(** * The foreground event renderer of the calendar widget

    A shallow embedding of
    [packages/core/src/component/renderers/FgEventRenderer.ts] and of
    [packages/common/src/vdom.ts], with the properties of the renderer
    that the specification relies on.

    JavaScript objects that the code mutates (segments and the DOM elements
    they point to) live in stores indexed by references; code that can throw
    returns a [Res]. Code of the library that is outside the two files
    (the date environment, the HTML parser, the field-spec comparator, the
    hooks of the subclasses) is taken as a parameter, through type classes. *)

From Stdlib Require Import ZArith Sorted Permutation Lia Ascii.
From stdpp Require Import base tactics option list strings gmap functions.

Local Open Scope string_scope.
Local Open Scope list_scope.

(** ** JavaScript values and results *)

(** References to objects (segments, DOM elements). *)
Abbreviation loc := nat (only parsing).

(** The primitive values the compared objects hold, references, and the
    built-in functions and objects of the language, known by their names. *)
Inductive JsVal : Type :=
| JUndefined
| JNull
| JBool (b : bool)
| JNum (n : Z)
| JStr (s : string)
| JRef (l : loc)
| JBuiltin (name : string).

(** ToBoolean. *)
Definition truthy (v : JsVal) : bool :=
  match v with
  | JUndefined | JNull => false
  | JBool b => b
  | JNum n => negb (Z.eqb n 0)
  | JStr s => negb (String.eqb s "")
  | JRef _ => true
  | JBuiltin _ => true
  end.

(** The names of the properties of [Object.prototype], which every plain
    object inherits: eleven functions, and the accessor [__proto__], which
    reads as [Object.prototype] itself on a plain object. *)
Definition Object_prototype_names : list string :=
  [ "constructor"; "__defineGetter__"; "__defineSetter__";
    "hasOwnProperty"; "__lookupGetter__"; "__lookupSetter__";
    "isPrototypeOf"; "propertyIsEnumerable"; "toString"; "valueOf";
    "__proto__"; "toLocaleString" ].

(** What a plain object inherits under the name [k], if anything. *)
Definition Object_prototype (k : string) : option JsVal :=
  if bool_decide (k ∈ Object_prototype_names)
  then Some (JBuiltin ("Object.prototype." +:+ k))
  else None.

(** A property read [o[k]] on a plain object, given by its own
    properties: an own property first, then one inherited from
    [Object.prototype], and [undefined] when there is neither. *)
Definition js_get (o : gmap string JsVal) (k : string) : JsVal :=
  match o !! k with
  | Some v => v
  | None => default JUndefined (Object_prototype k)
  end.

Inductive JsError : Type :=
| TypeError
| Error (msg : string).

Inductive Res (A : Type) : Type :=
| Ok (a : A)
| Throw (e : JsError).
Arguments Ok {A} a.
Arguments Throw {A} e.

(** ** Dates, event definitions, segments *)

(** A [DateMarker] is a valid [Date]; only its time value is observed: a
    whole number of milliseconds, of at most 8.64e15 in magnitude. *)
Record DateMarker : Type := {
  valueOf : Z;
  valueOf_range :
    bool_decide (-8640000000000000 ≤ valueOf ≤ 8640000000000000)%Z
}.

(** [range.start] and [range.end] may be null (open ranges). *)
Record DateRange : Type := {
  start : option DateMarker;
  end_ : option DateMarker
}.

Record EventDef : Type := {
  publicId : string;
  hasEnd : bool;
  allDay : bool;
  (* the properties of the object [extendedProps], and the reference the
     definition holds to that object *)
  extendedProps : gmap string JsVal;
  extendedProps_ref : loc;
  (* the remaining own properties of the definition object *)
  otherProps : gmap string JsVal
}.

Record EventInstance : Type := {
  instanceId : string;
  range : DateRange;
  forcedStartTzo : option Z;
  forcedEndTzo : option Z
}.

Record EventUi : Type := {
  classNames : list string;
  backgroundColor : string;
  borderColor : string;
  textColor : string
}.

Record EventRenderRange : Type := {
  def : EventDef;
  instance : option EventInstance;
  ui : EventUi
}.

Record Seg : Type := {
  isStart : bool;
  isEnd : bool;
  eventRange : EventRenderRange;
  el : option loc
}.

(** [mirrorInfo] is only tested for truthiness, and so are its two flags. *)
Record MirrorInfo : Type := {
  isDragging : bool;
  isResizing : bool
}.

(** ** The date library ([datelib/formatting], [datelib/env]) *)

Class Datelib : Type := {
  DateFormatter : Type;
  FormatterInput : Type;
  createFormatter : FormatterInput → JsVal → DateFormatter;
  (* a formatter input given as an object literal *)
  formatterInput_of_object : gmap string JsVal → FormatterInput
}.

(** [context.dateEnv]: the arguments are passed on as the renderer has them. *)
Record DateEnv `{Datelib} : Type := {
  formatRange :
    option DateMarker → option DateMarker → DateFormatter →
    option Z → option Z → string;
  format : option DateMarker → DateFormatter → option Z → string
}.

(** The options the renderer reads; [None] is a null or undefined option. *)
Record Options `{Datelib} : Type := {
  opt_eventTimeFormat : option FormatterInput;
  opt_defaultRangeSeparator : JsVal;
  opt_displayEventTime : option bool;
  opt_displayEventEnd : option bool
}.

Record ComponentContext `{Datelib} : Type := {
  dateEnv : DateEnv;
  options : Options
}.

(** ** The renderer's own fields *)

Record FgEventRenderer `{Datelib} : Type := {
  context : ComponentContext;
  eventTimeFormat : DateFormatter;
  displayEventTime : bool;
  displayEventEnd : bool;
  segs : list loc;
  isSizeDirty : bool
}.

(** The methods of the base class that a subclass may override, with the
    bodies of the base class. *)
Class ComputedDefaults `{Datelib} : Type := {
  computeEventTimeFormat : FormatterInput;
  computeDisplayEventTime : bool;
  computeDisplayEventEnd : bool
}.

Definition baseDefaults `{Datelib} : ComputedDefaults := {|
  computeEventTimeFormat :=
    formatterInput_of_object
      (<["hour" := JStr "numeric"]>
         (<["minute" := JStr "2-digit"]>
            (<["omitZeroMinute" := JBool true]> ∅)));
  computeDisplayEventTime := true;
  computeDisplayEventEnd := true
|}.

Definition _updateComputedOptions `{Datelib} `{!ComputedDefaults}
    (this : FgEventRenderer) (options : Options) : FgEventRenderer :=
  let eventTimeFormat' :=
    createFormatter
      (default computeEventTimeFormat (opt_eventTimeFormat options))
      (opt_defaultRangeSeparator options) in
  let displayEventTime' :=
    match opt_displayEventTime options with
    | None => computeDisplayEventTime
    | Some b => b
    end in
  let displayEventEnd' :=
    match opt_displayEventEnd options with
    | None => computeDisplayEventEnd
    | Some b => b
    end in
  {| context := context this;
     eventTimeFormat := eventTimeFormat';
     displayEventTime := displayEventTime';
     displayEventEnd := displayEventEnd';
     segs := segs this;
     isSizeDirty := isSizeDirty this |}.

(** ** Time text *)

Definition _getTimeText `{Datelib} (this : FgEventRenderer)
    (start : option DateMarker) (end_ : option DateMarker) (allDay : bool)
    (formatter : option DateFormatter) (displayEnd : option bool)
    (forcedStartTzo forcedEndTzo : option Z) : string :=
  let dateEnv := dateEnv (context this) in
  let formatter :=
    match formatter with None => eventTimeFormat this | Some f => f end in
  let displayEnd :=
    match displayEnd with None => displayEventEnd this | Some b => b end in
  if displayEventTime this && negb allDay then
    if displayEnd && bool_decide (is_Some end_) then
      formatRange dateEnv start end_ formatter forcedStartTzo forcedEndTzo
    else
      format dateEnv start formatter forcedStartTzo
  else "".

Definition getTimeText `{Datelib} (this : FgEventRenderer)
    (eventRange : EventRenderRange)
    (formatter : option DateFormatter) (displayEnd : option bool) : Res string :=
  match instance eventRange with
  | None => Throw TypeError
  | Some inst =>
      Ok (_getTimeText this
            (start (range inst))
            (if hasEnd (def eventRange) then end_ (range inst) else None)
            (allDay (def eventRange))
            formatter displayEnd
            (forcedStartTzo inst) (forcedEndTzo inst))
  end.

(** ** Stores, calls to the outside, and the monad of the effectful code *)

(** A DOM element, as far as the renderer touches it. [classList] is a
    [DOMTokenList]: an ordered set of tokens. *)
Record Element : Type := {
  classList : list string;
  visibility : string
}.

Definition classList_add (token : string) (e : Element) : Element :=
  {| classList :=
       if bool_decide (token ∈ classList e) then classList e
       else classList e ++ [token];
     visibility := visibility e |}.

Definition classList_remove (token : string) (e : Element) : Element :=
  {| classList := filter (λ t, t ≠ token) (classList e);
     visibility := visibility e |}.

Definition set_visibility (v : string) (e : Element) : Element :=
  {| classList := classList e; visibility := v |}.

(** Calls that leave the renderer, in the order they are made. *)
Inductive Call : Type :=
| CallRenderSegHtml (seg : loc) (mirrorInfo : option MirrorInfo)
| CallHtmlToElements (html : string)
| CallFilterSegsViaEls (segs : list loc) (isMirror : bool)
| CallTriggerPositionedSegs (segs : list loc) (isMirror : bool)
| CallTriggerWillRemoveSegs (segs : list loc) (isMirror : bool)
| CallComputeSegSizes (segs : list loc) (userComponent : JsVal)
| CallAssignSegSizes (segs : list loc) (userComponent : JsVal).

(** Every reference denotes an object: the stores are total. The calls
    are a record kept beside the program: the code outside the renderer
    works on the stores alone (see [outside]). *)
Record World : Type := {
  segStore : loc → Seg;
  elStore : loc → Element;
  calls : list Call
}.

Definition set_segStore (f : (loc → Seg) → (loc → Seg)) (w : World) : World :=
  {| segStore := f (segStore w); elStore := elStore w; calls := calls w |}.

Definition set_elStore (f : (loc → Element) → (loc → Element)) (w : World) : World :=
  {| segStore := segStore w; elStore := f (elStore w); calls := calls w |}.

Definition log_call (c : Call) (w : World) : World :=
  {| segStore := segStore w; elStore := elStore w; calls := calls w ++ [c] |}.

(** State and exceptions. *)
Definition StateRes (St A : Type) : Type := St → Res (A * St).

Global Instance StateRes_ret {St} : MRet (StateRes St) :=
  λ A a s, Ok (a, s).

Global Instance StateRes_bind {St} : MBind (StateRes St) :=
  λ A B f m s,
    match m s with
    | Ok (a, s') => f a s'
    | Throw e => Throw e
    end.

Definition throw {St A} (e : JsError) : StateRes St A := λ _, Throw e.
Definition get {St} : StateRes St St := λ s, Ok (s, s).
Definition modify {St} (f : St → St) : StateRes St unit := λ s, Ok (tt, f s).

(** [for (let x of xs) body] *)
Fixpoint for_of {St A} (xs : list A) (body : A → StateRes St unit) : StateRes St unit :=
  match xs with
  | [] => mret tt
  | x :: xs' => body x ≫= λ _, for_of xs' body
  end.

(** [for (i = i0; i < i0 + count; i++) acc = body(i, acc)] *)
Fixpoint for_upto {St X} (count i : nat) (body : nat → X → StateRes St X) (acc : X)
    : StateRes St X :=
  match count with
  | O => mret acc
  | S count' => body i acc ≫= for_upto count' (S i) body
  end.

(** [xs.forEach((x, i) => body)], the index starting at [i]. *)
Fixpoint forEach_from {St A} (i : nat) (xs : list A) (body : A → nat → StateRes St unit)
    : StateRes St unit :=
  match xs with
  | [] => mret tt
  | x :: xs' => body x i ≫= λ _, forEach_from (S i) xs' body
  end.

Definition forEach {St A} (xs : list A) (body : A → nat → StateRes St unit)
    : StateRes St unit :=
  forEach_from 0 xs body.

(** [view-framework-util] and [util/memoize] wrap the rendering functions
    in closures that remember what they were last called with. *)
Class ViewFrameworkState : Type := {
  FrameworkState : Type
}.

(** The renderer, the world it acts on, and what the wrappers remember. *)
Record State `{Datelib} `{ViewFrameworkState} : Type := {
  this : FgEventRenderer;
  world : World;
  framework : FrameworkState
}.

Definition lift_world `{Datelib} `{ViewFrameworkState} {A}
    (m : StateRes World A) : StateRes State A :=
  λ s,
    match m (world s) with
    | Ok (a, w') =>
        Ok (a, {| this := this s; world := w'; framework := framework s |})
    | Throw e => Throw e
    end.

Definition set_this `{Datelib} `{ViewFrameworkState}
    (f : FgEventRenderer → FgEventRenderer) : StateRes State unit :=
  modify (λ s,
    {| this := f (this s); world := world s; framework := framework s |}).

Global Instance Res_ret : MRet Res := λ A a, Ok a.

Global Instance Res_bind : MBind Res :=
  λ A B f r,
    match r with
    | Ok a => f a
    | Throw e => Throw e
    end.

(** [xs.map(f)], for an [f] that can throw. *)
Fixpoint res_map {A B} (f : A → Res B) (xs : list A) : Res (list B) :=
  match xs with
  | [] => Ok []
  | x :: xs' => f x ≫= λ y, res_map f xs' ≫= λ ys, Ok (y :: ys)
  end.

(** Reading the object a segment reference points to. *)
Definition read_seg (l : loc) : StateRes World Seg :=
  λ w, Ok (segStore w l, w).

(** [seg.el.<...> = ...]: a write through [seg.el], which throws when
    [seg.el] is null. *)
Definition update_el (seg : Seg) (f : Element → Element) : StateRes World unit :=
  match el seg with
  | None => throw TypeError
  | Some e => modify (set_elStore (λ st, <[e := f (st e)]> st))
  end.

(** ** Manipulation on rendered segs *)

(** A string or undefined argument is truthy when it is a non-empty string. *)
Definition str_truthy (s : option string) : bool :=
  match s with
  | None => false
  | Some s => negb (String.eqb s "")
  end.

Module HiddenProps.
Record t : Type := {
  segs : list loc;
  hiddenInstances : option (gmap string JsVal)
}.
End HiddenProps.

Module SelectedProps.
Record t : Type := {
  segs : list loc;
  instanceId : option string
}.
End SelectedProps.

Definition hiddenInstances_loop (v : string) (segs : list loc)
    (hiddenInstances : gmap string JsVal) : StateRes World unit :=
  for_of segs (λ l,
    read_seg l ≫= λ seg,
    match instance (eventRange seg) with
    | None => throw TypeError
    | Some inst =>
        if truthy (js_get hiddenInstances (instanceId inst)) then
          update_el seg (set_visibility v)
        else mret tt
    end).

Definition renderHiddenInstances (props : HiddenProps.t)
    : StateRes World HiddenProps.t :=
  match HiddenProps.hiddenInstances props with
  | Some hiddenInstances =>
      hiddenInstances_loop "hidden" (HiddenProps.segs props) hiddenInstances
  | None => mret tt
  end ≫= λ _, mret props.

Definition unrenderHiddenInstances (props : HiddenProps.t) : StateRes World unit :=
  match HiddenProps.hiddenInstances props with
  | Some hiddenInstances =>
      hiddenInstances_loop "" (HiddenProps.segs props) hiddenInstances
  | None => mret tt
  end.

(** [eventInstance && eventInstance.instanceId === instanceId && seg.el],
    for the truthy [instanceId] of the props, called [id] here. *)
Definition is_selected (id : string) (seg : Seg) : bool :=
  match instance (eventRange seg) with
  | None => false
  | Some eventInstance =>
      bool_decide (instanceId eventInstance = id)
      && bool_decide (is_Some (el seg))
  end.

Definition renderSelectedInstance (props : SelectedProps.t)
    : StateRes World SelectedProps.t :=
  (if str_truthy (SelectedProps.instanceId props) then
     for_of (SelectedProps.segs props) (λ l,
       read_seg l ≫= λ seg,
       if is_selected (default "" (SelectedProps.instanceId props)) seg then
         update_el seg (classList_add "fc-selected")
       else mret tt)
   else mret tt) ≫= λ _, mret props.

Definition unrenderSelectedInstance (props : SelectedProps.t)
    : StateRes World unit :=
  if str_truthy (SelectedProps.instanceId props) then
    for_of (SelectedProps.segs props) (λ l,
      read_seg l ≫= λ seg,
      if bool_decide (is_Some (el seg)) then
        update_el seg (classList_remove "fc-selected")
      else mret tt)
  else mret tt.

(** ** Class names of a segment's element *)

Definition getSegClasses (seg : Seg) (isDraggable isResizable : bool)
    (mirrorInfo : option MirrorInfo) : list string :=
  let classes :=
    [ "fc-event";
      if isStart seg then "fc-start" else "fc-not-start";
      if isEnd seg then "fc-end" else "fc-not-end" ]
    ++ classNames (ui (eventRange seg)) in
  let classes := if isDraggable then classes ++ ["fc-draggable"] else classes in
  let classes := if isResizable then classes ++ ["fc-resizable"] else classes in
  match mirrorInfo with
  | Some mirrorInfo =>
      let classes := classes ++ ["fc-mirror"] in
      let classes :=
        if isDragging mirrorInfo then classes ++ ["fc-dragging"] else classes in
      let classes :=
        if isResizing mirrorInfo then classes ++ ["fc-resizing"] else classes in
      classes
  | None => classes
  end.

(** ** Sorting *)

(** The own properties [...eventDef] copies; [extendedProps] is one of
    them. *)
Definition eventDef_props (eventDef : EventDef) : gmap string JsVal :=
  <["publicId" := JStr (publicId eventDef)]>
    (<["hasEnd" := JBool (hasEnd eventDef)]>
       (<["allDay" := JBool (allDay eventDef)]>
          (<["extendedProps" := JRef (extendedProps_ref eventDef)]>
             (otherProps eventDef)))).

(** Numbers are doubles. A whole number of at most 2^53 in magnitude is a
    double; a larger one is rounded to 53 significant bits, to the nearest,
    and to the even one of two that are equally near. *)
Definition round_double (z : Z) : Z :=
  let m := Z.abs z in
  if (m <=? 2 ^ 53)%Z then z
  else
    let e := (Z.log2 m - 52)%Z in
    let q := (m / 2 ^ e)%Z in
    let r := (m mod 2 ^ e)%Z in
    let half := (2 ^ (e - 1))%Z in
    let q' :=
      if (half <? r)%Z || ((r =? half)%Z && Z.odd q) then (q + 1)%Z else q in
    (Z.sgn z * (q' * 2 ^ e))%Z.

(** [a - b] for two numbers that are whole. *)
Definition js_minus (a b : Z) : Z := round_double (a - b).

(** [Number(b)] for a boolean. *)
Definition Number_of_bool (b : bool) : Z := if b then 1%Z else 0%Z.

(** The segment is the object at [l]; the compare object keeps the
    reference in [_seg]. Later properties of the literal override earlier
    ones, and the spread of [eventDef] overrides that of its
    [extendedProps]. *)
Definition buildSegCompareObj (store : loc → Seg) (l : loc) : Res (gmap string JsVal) :=
  let seg := store l in
  let eventDef := def (eventRange seg) in
  match instance (eventRange seg) with
  | None => Throw TypeError
  | Some inst =>
      let range := range inst in
      let start := match start range with Some d => valueOf d | None => 0%Z end in
      let end_ := match end_ range with Some d => valueOf d | None => 0%Z end in
      Ok (<["_seg" := JRef l]>
         (<["allDay" := JNum (Number_of_bool (allDay eventDef))]>
         (<["duration" := JNum (js_minus end_ start)]>
         (<["end" := JNum end_]>
         (<["start" := JNum start]>
         (<["id" := JStr (publicId eventDef)]>
         (eventDef_props eventDef ∪ extendedProps eventDef)))))))
  end.

(** The stable insertion sort; [cmp a b <= 0] keeps [a] before [b]. *)
Fixpoint sort_insert {A} (cmp : A → A → Z) (x : A) (l : list A) : list A :=
  match l with
  | [] => [x]
  | y :: l' =>
      if (cmp x y <=? 0)%Z then x :: y :: l' else y :: sort_insert cmp x l'
  end.

Definition array_sort {A} (cmp : A → A → Z) (l : list A) : list A :=
  foldr (sort_insert cmp) [] l.

(** A consistent comparison function for the values of [xs], as the
    language defines it: equal to itself, and [=], [<] and [>] (the sign
    of the result) symmetric or transitive as they should be. *)
Definition consistent {A} (cmp : A → A → Z) (xs : list A) : Prop :=
  (∀ a, a ∈ xs → cmp a a = 0%Z)
  ∧ (∀ a b, a ∈ xs → b ∈ xs → cmp a b = 0%Z → cmp b a = 0%Z)
  ∧ (∀ a b c, a ∈ xs → b ∈ xs → c ∈ xs →
       cmp a b = 0%Z → cmp b c = 0%Z → cmp a c = 0%Z)
  ∧ (∀ a b c, a ∈ xs → b ∈ xs → c ∈ xs →
       (cmp a b < 0)%Z → (cmp b c < 0)%Z → (cmp a c < 0)%Z)
  ∧ (∀ a b c, a ∈ xs → b ∈ xs → c ∈ xs →
       (cmp a b > 0)%Z → (cmp b c > 0)%Z → (cmp a c > 0)%Z).

(** [Array.prototype.sort] with a comparator, on an array of objects. The
    engine chooses the algorithm. *)
Class ArraySort : Type := {
  Array_prototype_sort :
    (gmap string JsVal → gmap string JsVal → Z) →
    list (gmap string JsVal) → list (gmap string JsVal)
}.

(** What the language fixes of the engine's sort: the result is a
    rearrangement of the array, and for a consistent comparator it is the
    stable sorted one, which is the result of [array_sort]. For another
    comparator the order is the engine's. *)
Definition conforming `{ArraySort} : Prop :=
  (∀ cmp xs, Array_prototype_sort cmp xs ≡ₚ xs)
  ∧ (∀ cmp xs, consistent cmp xs → Array_prototype_sort cmp xs = array_sort cmp xs).

(** [util/misc]: the comparator of two objects by a list of field specs. *)
Class Misc : Type := {
  FieldSpecs : Type;
  compareByFieldSpecs : gmap string JsVal → gmap string JsVal → FieldSpecs → Z
}.

Definition sortEventSegs `{Misc} `{ArraySort} (store : loc → Seg) (segs : list loc)
    (eventOrderSpecs : FieldSpecs) : Res (list JsVal) :=
  res_map (buildSegCompareObj store) segs ≫= λ objs,
  let objs :=
    Array_prototype_sort
      (λ obj0 obj1, compareByFieldSpecs obj0 obj1 eventOrderSpecs) objs in
  Ok (map (λ c, js_get c "_seg") objs).

(** ** Rendering the segments *)

Definition set_el (e : loc) (seg : Seg) : Seg :=
  {| isStart := isStart seg; isEnd := isEnd seg;
     eventRange := eventRange seg; el := Some e |}.

(** What code outside the renderer can read and change. *)
Record Heap : Type := {
  heap_segs : loc → Seg;
  heap_els : loc → Element
}.

Definition outside {A} (m : StateRes Heap A) : StateRes World A :=
  λ w,
    match m {| heap_segs := segStore w; heap_els := elStore w |} with
    | Ok (a, h) =>
        Ok (a, {| segStore := heap_segs h; elStore := heap_els h;
                  calls := calls w |})
    | Throw e => Throw e
    end.

(** [util/dom-manip]: parsing creates elements in the element store. An
    entry of the result may be null for the renderer. *)
Class DomManip : Type := {
  htmlToElements :
    string → (loc → Element) → list (option loc) * (loc → Element)
}.

(** [component/event-rendering] *)
Class EventRendering `{Datelib} : Type := {
  filterSegsViaEls :
    ComponentContext → list loc → bool → StateRes Heap (list loc);
  triggerPositionedSegs :
    ComponentContext → list loc → bool → StateRes Heap unit;
  triggerWillRemoveSegs :
    ComponentContext → list loc → bool → StateRes Heap unit
}.

(** The abstract method, and the two sizing hooks, whose bodies are empty
    in the base class. *)
Class SegMethods `{Datelib} : Type := {
  renderSegHtml : FgEventRenderer → Seg → option MirrorInfo → string;
  computeSegSizes : list loc → JsVal → StateRes Heap unit;
  assignSegSizes : list loc → JsVal → StateRes Heap unit
}.

(** A call that leaves the renderer is recorded, then made. *)
Definition call {A} (c : Call) (m : StateRes Heap A) : StateRes World A :=
  modify (log_call c) ≫= λ _, outside m.

(** [Boolean(mirrorInfo)] *)
Definition Boolean_of {A} (x : option A) : bool := bool_decide (is_Some x).

Module PlainProps.
Record t : Type := {
  segs : list loc;
  mirrorInfo : option MirrorInfo
}.
End PlainProps.

Module PlainResult.
Record t : Type := {
  segs : list loc;
  isMirror : bool
}.
End PlainResult.

(** [BaseFgEventRendererProps] *)
Module Props.
Record t : Type := {
  segs : list loc;
  mirrorInfo : option MirrorInfo;
  selectedInstanceId : option string;
  hiddenInstances : option (gmap string JsVal)
}.
End Props.

Section Rendering.
Context `{Datelib} `{!DomManip} `{!EventRendering} `{!SegMethods}.

Definition renderSegEls (this : FgEventRenderer) (segs : list loc)
    (mirrorInfo : option MirrorInfo) : StateRes World (list loc) :=
  let html := "" in
  if bool_decide (length segs ≠ 0%nat) then
    (* build a large concatenation of event segment HTML *)
    for_upto (length segs) 0 (λ i html,
      match segs !! i with
      | Some l =>
          read_seg l ≫= λ seg,
          call (CallRenderSegHtml l mirrorInfo)
            (mret (html +:+ renderSegHtml this seg mirrorInfo))
      | None => throw TypeError
      end) html ≫= λ html,
    call (CallHtmlToElements html)
      (λ h, let '(els, st) := htmlToElements html (heap_els h) in
            Ok (els, {| heap_segs := heap_segs h; heap_els := st |})) ≫= λ els,
    forEach els (λ el i,
      let seg := segs !! i in
      match el with
      | Some e =>
          match seg with
          | Some l => modify (set_segStore (λ st, <[l := set_el e (st l)]> st))
          | None => throw TypeError
          end
      | None => mret tt
      end) ≫= λ _,
    call (CallFilterSegsViaEls segs (Boolean_of mirrorInfo))
      (filterSegsViaEls (context this) segs (Boolean_of mirrorInfo))
  else mret segs.

Context `{ViewFrameworkState}.

(** doesn't worry about selection/hidden state *)
Definition _renderSegsPlain (props : PlainProps.t) (context : ComponentContext)
    : StateRes State PlainResult.t :=
  let isMirror := Boolean_of (PlainProps.mirrorInfo props) in
  get ≫= λ s,
  lift_world
    (renderSegEls (this s) (PlainProps.segs props) (PlainProps.mirrorInfo props))
  ≫= λ segs,
  lift_world
    (call (CallTriggerPositionedSegs segs false)
       (triggerPositionedSegs context segs false)) ≫= λ _,
  mret {| PlainResult.segs := segs; PlainResult.isMirror := isMirror |}.

Definition _unrenderSegsPlain (r : PlainResult.t) (context : ComponentContext)
    : StateRes State unit :=
  lift_world
    (call (CallTriggerWillRemoveSegs (PlainResult.segs r) (PlainResult.isMirror r))
       (triggerWillRemoveSegs context (PlainResult.segs r) (PlainResult.isMirror r))).

(** [memoize(f)] and [subrenderer(render, unrender)] return the function
    that the renderer calls in place of [f] and of [render]. *)
Class ViewFramework : Type := {
  memoize : ∀ {A : Type},
    (A → StateRes State unit) → A → StateRes State unit;
  subrenderer : ∀ {P R : Type},
    (P → ComponentContext → StateRes State R) →
    (R → ComponentContext → StateRes State unit) →
    P → StateRes State R
}.

Context `{!ViewFramework} `{!ComputedDefaults}.

Definition set_segs (segs : list loc) (r : FgEventRenderer) : FgEventRenderer :=
  {| context := context r;
     eventTimeFormat := eventTimeFormat r;
     displayEventTime := displayEventTime r;
     displayEventEnd := displayEventEnd r;
     segs := segs;
     isSizeDirty := isSizeDirty r |}.

Definition set_isSizeDirty (b : bool) (r : FgEventRenderer) : FgEventRenderer :=
  {| context := context r;
     eventTimeFormat := eventTimeFormat r;
     displayEventTime := displayEventTime r;
     displayEventEnd := displayEventEnd r;
     segs := segs r;
     isSizeDirty := b |}.

(** The four private fields holding wrapped functions. *)
Definition updateComputedOptions : Options → StateRes State unit :=
  memoize (λ options, set_this (λ r, _updateComputedOptions r options)).

Definition renderSegsPlain : PlainProps.t → StateRes State PlainResult.t :=
  subrenderer _renderSegsPlain _unrenderSegsPlain.

Definition renderSelectedInstance_sub
    : SelectedProps.t → StateRes State SelectedProps.t :=
  subrenderer (λ props _, lift_world (renderSelectedInstance props))
              (λ props _, lift_world (unrenderSelectedInstance props)).

Definition renderHiddenInstances_sub
    : HiddenProps.t → StateRes State HiddenProps.t :=
  subrenderer (λ props _, lift_world (renderHiddenInstances props))
              (λ props _, lift_world (unrenderHiddenInstances props)).

Definition renderSegs (props : Props.t) : StateRes State (list loc) :=
  get ≫= λ s,
  updateComputedOptions (options (context (this s))) ≫= λ _,
  renderSegsPlain
    {| PlainProps.segs := Props.segs props;
       PlainProps.mirrorInfo := Props.mirrorInfo props |} ≫= λ r,
  let segs := PlainResult.segs r in
  renderSelectedInstance_sub
    {| SelectedProps.segs := segs;
       SelectedProps.instanceId := Props.selectedInstanceId props |} ≫= λ _,
  renderHiddenInstances_sub
    {| HiddenProps.segs := segs;
       HiddenProps.hiddenInstances := Props.hiddenInstances props |} ≫= λ _,
  set_this (set_segs segs) ≫= λ _,
  set_this (set_isSizeDirty true) ≫= λ _,
  mret segs.

(** ** Sizing *)

Definition computeSizes (force : bool) (userComponent : JsVal)
    : StateRes State unit :=
  get ≫= λ s,
  if force || isSizeDirty (this s) then
    lift_world
      (call (CallComputeSegSizes (segs (this s)) userComponent)
         (computeSegSizes (segs (this s)) userComponent))
  else mret tt.

Definition assignSizes (force : bool) (userComponent : JsVal)
    : StateRes State unit :=
  get ≫= λ s,
  (if force || isSizeDirty (this s) then
     lift_world
       (call (CallAssignSegSizes (segs (this s)) userComponent)
          (assignSegSizes (segs (this s)) userComponent))
   else mret tt) ≫= λ _,
  set_this (set_isSizeDirty false).

End Rendering.

(** ** Loading [packages/common/src/vdom.ts] *)

Module VDom.

(** The names the module exports, in the order of the file. *)
Definition exported : list string :=
  [ "Ref"; "RefObject"; "ComponentType"; "VNode"; "Context"; "Component";
    "ComponentChild"; "ComponentChildren"; "createElement"; "render";
    "createRef"; "Fragment"; "createContext"; "VUIEvent" ].

Definition message : string :=
  "Please import the top-level fullcalendar lib before attempting to import a plugin.".

(** [FullCalendarVDom] is the global namespace object, [None] when
    [typeof FullCalendarVDom === 'undefined']. Each export is bound to the
    member of the same name. *)
Definition load (FullCalendarVDom : option (gmap string JsVal))
    : Res (gmap string JsVal) :=
  match FullCalendarVDom with
  | None => Throw (Error message)
  | Some ns => Ok (foldr (λ name ex, <[name := js_get ns name]> ex) ∅ exported)
  end.

End VDom.

(** ** Definitions that the statements use *)

(** What the function appends after the names of the event's [ui]. *)
Definition flag_classes (isDraggable isResizable : bool)
    (mirrorInfo : option MirrorInfo) : list string :=
  (if isDraggable then ["fc-draggable"] else [])
  ++ (if isResizable then ["fc-resizable"] else [])
  ++ match mirrorInfo with
     | Some m =>
         ["fc-mirror"]
         ++ (if isDragging m then ["fc-dragging"] else [])
         ++ (if isResizing m then ["fc-resizing"] else [])
     | None => []
     end.

(** The millisecond value of an endpoint, 0 for a missing one. *)
Definition endpoint_ms (d : option DateMarker) : Z :=
  match d with
  | Some d => valueOf d
  | None => 0%Z
  end.

(** The keys the object literal sets after the two spreads. *)
Definition literal_keys : list string :=
  [ "id"; "start"; "end"; "duration"; "allDay"; "_seg" ].

(** [a] may stand before [b]. *)
Definition in_order {A} (cmp : A → A → Z) (a b : A) : Prop := (cmp a b ≤ 0)%Z.

(** The compare object of the segment at [l], when it has one. *)
Definition compare_obj (store : loc → Seg) (l : loc) : gmap string JsVal :=
  match buildSegCompareObj store l with
  | Ok obj => obj
  | Throw _ => ∅
  end.

(** The loops over rendered segments have one shape: a test on the segment,
    which may throw, and a write to the segment's element when it holds. *)
Definition els_loop (test : Seg → Res bool) (f : Element → Element)
    (segs : list loc) : StateRes World unit :=
  for_of segs (λ l,
    read_seg l ≫= λ seg,
    match test seg with
    | Throw e => throw e
    | Ok true => update_el seg f
    | Ok false => mret tt
    end).

(** [e] is the element of a segment of [segs] for which the test holds. *)
Definition targeted (test : Seg → Res bool) (store : loc → Seg)
    (segs : list loc) (e : loc) : Prop :=
  ∃ l, l ∈ segs ∧ test (store l) = Ok true ∧ el (store l) = Some e.

(** The loop runs to its end on [segs]. *)
Definition passable (test : Seg → Res bool) (store : loc → Seg)
    (segs : list loc) : Prop :=
  ∀ l, l ∈ segs →
    ∃ b, test (store l) = Ok b ∧ (b = true → is_Some (el (store l))).

(** The test of the two loops on hidden instances. *)
Definition hidden_test (hiddenInstances : gmap string JsVal) (seg : Seg)
    : Res bool :=
  match instance (eventRange seg) with
  | None => Throw TypeError
  | Some inst => Ok (truthy (js_get hiddenInstances (instanceId inst)))
  end.

(** The read [o[k]] is truthy: [k] is an own key of [o] with a truthy
    value, or it is no own key of [o] and names a property that [o]
    inherits from [Object.prototype]. *)
Definition reads_truthy (o : gmap string JsVal) (k : string) : Prop :=
  (∃ v, o !! k = Some v ∧ truthy v = true)
  ∨ (o !! k = None ∧ k ∈ Object_prototype_names).

(** [hiddenInstances[id]] is truthy for the instance id of the segment. *)
Definition is_hidden (hiddenInstances : gmap string JsVal) (seg : Seg) : Prop :=
  ∃ inst,
    instance (eventRange seg) = Some inst
    ∧ reads_truthy hiddenInstances (instanceId inst).

(** [e] is the element of a hidden segment of [segs]. *)
Definition hidden_el (hiddenInstances : gmap string JsVal) (store : loc → Seg)
    (segs : list loc) (e : loc) : Prop :=
  ∃ l, l ∈ segs ∧ is_hidden hiddenInstances (store l) ∧ el (store l) = Some e.

(** Every segment has an event instance, and every hidden one an element. *)
Definition hideable (hiddenInstances : gmap string JsVal) (store : loc → Seg)
    (segs : list loc) : Prop :=
  ∀ l, l ∈ segs →
    is_Some (instance (eventRange (store l)))
    ∧ (is_hidden hiddenInstances (store l) → is_Some (el (store l))).

(** [e] is the element of a segment of [segs] that has an event instance
    with the id [id]. *)
Definition selected_el (id : string) (store : loc → Seg) (segs : list loc)
    (e : loc) : Prop :=
  ∃ l inst,
    l ∈ segs ∧ instance (eventRange (store l)) = Some inst
    ∧ instanceId inst = id ∧ el (store l) = Some e.

(** [e] is the element of a segment of [segs]. *)
Definition seg_el (store : loc → Seg) (segs : list loc) (e : loc) : Prop :=
  ∃ l, l ∈ segs ∧ el (store l) = Some e.

(** The strings of [parts], one after the other. *)
Definition concat_html (parts : list string) : string :=
  foldr String.append "" parts.

(** The HTML of the segments, in the order of the list. *)
Definition segs_html `{Datelib} `{!SegMethods} (this : FgEventRenderer)
    (store : loc → Seg) (segs : list loc) (mirrorInfo : option MirrorInfo)
    : string :=
  concat_html (map (λ l, renderSegHtml this (store l) mirrorInfo) segs).

(** The i-th parsed element, when it is not null, becomes the [el] of the
    i-th segment. *)
Fixpoint assign_els (segs : list loc) (els : list (option loc))
    (store : loc → Seg) : loc → Seg :=
  match segs, els with
  | l :: segs', Some e :: els' =>
      assign_els segs' els' (<[l := set_el e (store l)]> store)
  | _ :: segs', None :: els' => assign_els segs' els' store
  | _, _ => store
  end.

(** Every parsed element that is not null has a segment at its index. *)
Fixpoint every_el_has_seg (segs : list loc) (els : list (option loc)) : bool :=
  match els with
  | [] => true
  | el :: els' =>
      match segs with
      | _ :: segs' => every_el_has_seg segs' els'
      | [] => negb (Boolean_of el) && every_el_has_seg [] els'
      end
  end.

(** The world after the calls [cs] were recorded. *)
Definition log_calls (cs : list Call) (w : World) : World :=
  {| segStore := segStore w; elStore := elStore w; calls := calls w ++ cs |}.

(** The stores of a world, as code outside the renderer has them. *)
Definition heap_of (w : World) : Heap :=
  {| heap_segs := segStore w; heap_els := elStore w |}.

(** The world after the call [c], which left the stores as [h]. *)
Definition world_after (c : Call) (h : Heap) (w : World) : World :=
  {| segStore := heap_segs h; elStore := heap_els h; calls := calls w ++ [c] |}.

(** The state in which the world is [w]. *)
Definition with_world `{Datelib} `{ViewFrameworkState} (w : World) (s : State)
    : State :=
  {| this := this s; world := w; framework := framework s |}.

(** The state in which the renderer is [r]. *)
Definition with_this `{Datelib} `{ViewFrameworkState} (r : FgEventRenderer)
    (s : State) : State :=
  {| this := r; world := world s; framework := framework s |}.

(** What a function that calls the hook [hook], recorded as [c], and then
    goes on with [next] gives in the state [s]: the hook works on the
    stores of [s], what it throws is thrown on, and what it leaves is the
    world after the call. *)
Definition through_hook `{Datelib} `{ViewFrameworkState} {A}
    (c : Call) (hook : StateRes Heap unit) (next : State → Res (A * State))
    (s : State) : Res (A * State) :=
  match hook (heap_of (world s)) with
  | Ok (_, h) => next (with_world (world_after c h (world s)) s)
  | Throw e => Throw e
  end.

(** ** Concrete values, for running the definitions *)

Module Sample.

Definition datelib : Datelib := {|
  DateFormatter := string;
  FormatterInput := gmap string JsVal;
  createFormatter := λ _ _, "h:mm";
  formatterInput_of_object := λ o, o
|}.

Definition dateEnv0 : @DateEnv datelib := {|
  formatRange := λ _ _ _ _ _, "9:00 - 10:30";
  format := λ _ _ _, "9:00"
|}.

Definition options0 : @Options datelib := {|
  opt_eventTimeFormat := None;
  opt_defaultRangeSeparator := JStr " - ";
  opt_displayEventTime := None;
  opt_displayEventEnd := None
|}.

Definition renderer : @FgEventRenderer datelib := {|
  context := {| dateEnv := dateEnv0; options := options0 |};
  eventTimeFormat := "h:mm";
  displayEventTime := true;
  displayEventEnd := true;
  segs := [];
  isSizeDirty := false
|}.

Definition nine : DateMarker :=
  {| valueOf := 32400000; valueOf_range := I |}.
Definition half_past_ten : DateMarker :=
  {| valueOf := 37800000; valueOf_range := I |}.

Definition eventDef0 (withEnd wholeDay : bool) : EventDef := {|
  publicId := "meeting";
  hasEnd := withEnd;
  allDay := wholeDay;
  extendedProps :=
    {[ "start" := JStr "shadowed"; "room" := JStr "B2";
       "extendedProps" := JStr "shadowed" ]};
  extendedProps_ref := 50;
  otherProps := {[ "title" := JStr "Meeting"; "id" := JNull ]}
|}.

Definition eventInstance0 (id : string) : EventInstance := {|
  instanceId := id;
  range := {| start := Some nine; end_ := Some half_past_ten |};
  forcedStartTzo := None;
  forcedEndTzo := None
|}.

Definition eventUi0 (names : list string) : EventUi := {|
  classNames := names;
  backgroundColor := "";
  borderColor := "";
  textColor := ""
|}.

Definition eventRange0 (withEnd wholeDay : bool) (id : option string)
    (names : list string) : EventRenderRange := {|
  def := eventDef0 withEnd wholeDay;
  instance := eventInstance0 <$> id;
  ui := eventUi0 names
|}.

Definition seg0 (id : option string) (e : option loc) : Seg := {|
  isStart := true;
  isEnd := false;
  eventRange := eventRange0 true false id [];
  el := e
|}.

(** Three segments: the first two have an element, and the event
    instances start at 300, 100 and 200. *)
Definition seg_at (id : string) (t : DateMarker) (e : option loc) : Seg := {|
  isStart := true;
  isEnd := true;
  eventRange := {|
    def := eventDef0 true false;
    instance := Some {| instanceId := id;
                        range := {| start := Some t; end_ := None |};
                        forcedStartTzo := None;
                        forcedEndTzo := None |};
    ui := eventUi0 []
  |};
  el := e
|}.

(** A segment whose event carries a class name of the renderer. *)
Definition named_draggable : Seg := {|
  isStart := true;
  isEnd := true;
  eventRange := eventRange0 true false (Some "7") ["fc-draggable"];
  el := None
|}.

Definition store0 (l : loc) : Seg :=
  match l with
  | 0%nat => seg_at "a" {| valueOf := 300; valueOf_range := I |} (Some 10%nat)
  | 1%nat => seg_at "b" {| valueOf := 100; valueOf_range := I |} (Some 11%nat)
  | _ => seg_at "c" {| valueOf := 200; valueOf_range := I |} None
  end.

Definition element0 : Element :=
  {| classList := ["fc-event"; "fc-selected"]; visibility := "" |}.

Definition world0 : World :=
  {| segStore := store0; elStore := λ _, element0; calls := [] |}.

(** A parser that makes an element of every seven characters. *)
Definition domManip : DomManip := {|
  htmlToElements := λ html st,
    (map (λ i, Some (100 + i)%nat) (seq 0 (String.length html `div` 7)), st)
|}.

Definition eventRendering : @EventRendering datelib := {|
  filterSegsViaEls := λ _ segs _ h,
    Ok (filter (λ l, is_Some (el (heap_segs h l))) segs, h);
  triggerPositionedSegs := λ _ _ _, mret tt;
  triggerWillRemoveSegs := λ _ _ _, mret tt
|}.

(** A subclass that renders one element for a segment, and one that
    renders two. *)
Definition segMethods : @SegMethods datelib := {|
  renderSegHtml := λ _ _ _, "<a></a>";
  computeSegSizes := λ _ _, mret tt;
  assignSegSizes := λ _ _, mret tt
|}.

Definition twoElements : @SegMethods datelib := {|
  renderSegHtml := λ _ _ _, "<a></a><b></b>";
  computeSegSizes := λ _ _, mret tt;
  assignSegSizes := λ _ _, mret tt
|}.

Definition viewFrameworkState : ViewFrameworkState :=
  {| FrameworkState := unit |}.

(** Wrappers that remember nothing: they call the function each time. *)
Definition viewFramework : @ViewFramework datelib viewFrameworkState := {|
  memoize := λ A f, f;
  subrenderer := λ P R render unrender props s,
    render props (context (this s)) s
|}.

Definition state0 : @State datelib viewFrameworkState :=
  @Build_State datelib viewFrameworkState renderer world0 tt.

(** Field specs that name one numeric field. *)
Definition misc : Misc := {|
  FieldSpecs := string;
  compareByFieldSpecs := λ obj0 obj1 field,
    match js_get obj0 field, js_get obj1 field with
    | JNum a, JNum b => (a - b)%Z
    | _, _ => 0%Z
    end
|}.

(** An engine that sorts by insertion. *)
Definition arraySort : ArraySort := {|
  Array_prototype_sort := λ cmp xs, array_sort cmp xs
|}.

End Sample.

(** ** The elements the manipulations write to *)

(** [e] is the element of a segment of the props that is selected: the
    [instanceId] of the props is truthy and is the id of the segment's
    event instance. *)
Definition selects (props : SelectedProps.t) (store : loc → Seg) (e : loc)
    : Prop :=
  ∃ id,
    SelectedProps.instanceId props = Some id ∧ id ≠ ""
    ∧ selected_el id store (SelectedProps.segs props) e.

(** [e] is the element of a segment of the props, and the [instanceId] of
    the props is truthy. *)
Definition unselects (props : SelectedProps.t) (store : loc → Seg) (e : loc)
    : Prop :=
  str_truthy (SelectedProps.instanceId props) = true
  ∧ seg_el store (SelectedProps.segs props) e.

(** [e] is the element of a segment of the props that is hidden: the props
    have [hiddenInstances], with a truthy value for the id of the segment's
    event instance. *)
Definition hides (props : HiddenProps.t) (store : loc → Seg) (e : loc) : Prop :=
  ∃ hidden,
    HiddenProps.hiddenInstances props = Some hidden
    ∧ hidden_el hidden store (HiddenProps.segs props) e.

(** ** The world [filterSegsViaEls] is called in *)

(** What [renderSegEls] has done to the world of a non-empty list when it
    calls [filterSegsViaEls]: the parsed elements are created and assigned,
    and the three kinds of calls are recorded. *)
Definition assigned_world `{Datelib} `{!DomManip} `{!SegMethods}
    (this : FgEventRenderer) (segs : list loc) (mirrorInfo : option MirrorInfo)
    (w : World) : World :=
  let html := segs_html this (segStore w) segs mirrorInfo in
  {| segStore :=
       assign_els segs (htmlToElements html (elStore w)).1 (segStore w);
     elStore := (htmlToElements html (elStore w)).2;
     calls := calls w
              ++ map (λ l, CallRenderSegHtml l mirrorInfo) segs
              ++ [ CallHtmlToElements html;
                   CallFilterSegsViaEls segs (Boolean_of mirrorInfo) ] |}.

(** The elements up to and with the first one for which [stop] holds. *)
Fixpoint take_through {A} (stop : A → bool) (xs : list A) : list A :=
  match xs with
  | [] => []
  | x :: xs' => if stop x then [x] else x :: take_through stop xs'
  end.

(** ** [scripts/example-projects-build.js] *)

Module ExampleProjectsBuild.

Definition dquote : string := String (Ascii.ascii_of_nat 34) "".
Definition newline : string := String (Ascii.ascii_of_nat 10) "".

(** [s] begins with [p]. *)
Fixpoint starts_with (p s : string) : bool :=
  match p, s with
  | EmptyString, _ => true
  | String a p', String b s' => bool_decide (a = b) && starts_with p' s'
  | String _ _, EmptyString => false
  end.

(** [s.match(p)] is truthy, for a pattern [p] of plain letters: the regular
    expression made of [p] matches wherever [p] occurs in [s]. *)
Fixpoint contains (p s : string) : bool :=
  starts_with p s
  || match s with
     | String _ s' => contains p s'
     | EmptyString => false
     end.

(** [s.replace(/\/$/, '')]: one slash at the end of [s] is removed. *)
Fixpoint strip_trailing_slash (s : string) : string :=
  match s with
  | EmptyString => EmptyString
  | String c s' =>
      match s' with
      | EmptyString => if bool_decide (c = "/"%char) then EmptyString else s
      | String _ _ => String c (strip_trailing_slash s')
      end
  end.

(** What the script has from outside: the resolved root of the example
    projects, [path.join], and [exec.sync] of [./lib/shell], of which the
    script reads [success]. *)
Class Environment : Type := {
  PROJECTS_ROOT : string;
  path_join : string → string → string;
  exec_sync : list string → string → bool
}.

(** What the script does that can be seen, in order. *)
Inductive Effect : Type :=
| ConsoleLog (message : string)
| ConsoleWarn (message : string)
| ExecSync (command : list string) (cwd : string).

(** The loop runs to its end, or [process.exit(code)] ends the process. *)
Inductive Outcome : Type :=
| Completed
| Exit (code : Z).

Definition skip_message : string :=
  "Skipping angular example project because we sometimes get a " +:+ dquote
  +:+ "Maximum call stack size exceeded" +:+ dquote +:+ " when " +:+ dquote
  +:+ "flattening the source-map" +:+ dquote +:+ newline
  +:+ "TODO: come up with a solution for v5".

Definition fail_message (exampleName : string) : string :=
  "Failed building example project " +:+ dquote +:+ exampleName +:+ dquote.

Definition build_command : list string := ["yarn"; "run"; "build"].

(** The callback of [forEach] over the directories [globby.sync] found,
    and the rest of the loop after it. *)
Fixpoint build_projects `{Environment} (IS_CI : bool) (dirs : list string)
    : list Effect * Outcome :=
  match dirs with
  | [] => ([], Completed)
  | exampleDir :: rest =>
      let exampleName := strip_trailing_slash exampleDir in
      if IS_CI && contains "angular" exampleName then
        let '(effects, outcome) := build_projects IS_CI rest in
        (ConsoleLog skip_message :: effects, outcome)
      else
        let cwd := path_join PROJECTS_ROOT exampleDir in
        let success := exec_sync build_command cwd in
        if success then
          let '(effects, outcome) := build_projects IS_CI rest in
          (ExecSync build_command cwd :: effects, outcome)
        else
          ([ ExecSync build_command cwd;
             ConsoleWarn (fail_message exampleName) ],
           Exit 1)
  end.

(** [CI] is [process.env.CI]; [IS_CI = Boolean(process.env.CI)]. *)
Definition main `{Environment} (CI : option string) (dirs : list string)
    : list Effect * Outcome :=
  build_projects (str_truthy CI) dirs.

(** The project in [dir] is skipped. *)
Definition skipped (IS_CI : bool) (dir : string) : bool :=
  IS_CI && contains "angular" (strip_trailing_slash dir).

(** The build of the project in [dir] fails. *)
Definition fails `{Environment} (dir : string) : bool :=
  negb (exec_sync build_command (path_join PROJECTS_ROOT dir)).

(** The working directories of the builds run. *)
Definition builds (effects : list Effect) : list string :=
  omap (λ e, match e with ExecSync _ cwd => Some cwd | _ => None end) effects.

(** Builds fail in the directories of [failing]. *)
Definition sample_environment (failing : list string) : Environment := {|
  PROJECTS_ROOT := "/repo/example-projects";
  path_join := λ a b, a +:+ "/" +:+ b;
  exec_sync := λ _ cwd,
    negb (bool_decide (cwd ∈ map (λ d, "/repo/example-projects/" +:+ d) failing))
|}.

End ExampleProjectsBuild.

(** ** More concrete values *)

Module Sample2.

(** Field specs by which every object is after every other. *)
Definition always_after : Misc := {|
  FieldSpecs := unit;
  compareByFieldSpecs := λ _ _ _, 1%Z
|}.

(** A segment whose event runs from the second millisecond a date can
    have to the last. *)
Definition seg_of_all_time : Seg := {|
  isStart := true;
  isEnd := true;
  eventRange := {|
    def := Sample.eventDef0 true false;
    instance :=
      Some {| instanceId := "all";
              range :=
                {| start := Some {| valueOf := -8639999999999999;
                                    valueOf_range := I |};
                   end_ := Some {| valueOf := 8640000000000000;
                                   valueOf_range := I |} |};
              forcedStartTzo := None;
              forcedEndTzo := None |};
    ui := Sample.eventUi0 []
  |};
  el := None
|}.

(** The world of [Sample.world0] with elements that are not selected. *)
Definition plain_element : Element :=
  {| classList := ["fc-event"]; visibility := "" |}.

Definition plain_world : World :=
  {| segStore := Sample.store0; elStore := λ _, plain_element; calls := [] |}.

Definition hidden_a : HiddenProps.t :=
  {| HiddenProps.segs := [0; 1]%nat;
     HiddenProps.hiddenInstances := Some {[ "a" := JBool true ]} |}.

Definition selected_b : SelectedProps.t :=
  {| SelectedProps.segs := [0; 1]%nat;
     SelectedProps.instanceId := Some "b" |}.

(** A world whose segments are of an instance with the id ['constructor'],
    the name of a property that every object inherits. The segment 0 has
    the element 10, the others have none. *)
Definition constructor_world : World :=
  {| segStore := λ l,
       match l with
       | 0%nat => Sample.seg0 (Some "constructor") (Some 10%nat)
       | _ => Sample.seg0 (Some "constructor") None
       end;
     elStore := λ _, plain_element;
     calls := [] |}.

(** The state of a renderer that has rendered the segments 0 and 1. *)
Definition dirty_state : @State Sample.datelib Sample.viewFrameworkState :=
  @Build_State Sample.datelib Sample.viewFrameworkState
    {| context := context Sample.renderer;
       eventTimeFormat := "h:mm";
       displayEventTime := true;
       displayEventEnd := true;
       segs := [0; 1]%nat;
       isSizeDirty := true |}
    plain_world tt.

(** Code outside the renderer that leaves a mark: the class [token] on
    the element [e]. *)
Definition mark (token : string) (e : loc) : StateRes Heap unit :=
  λ h, Ok (tt, {| heap_segs := heap_segs h;
                  heap_els := <[e := classList_add token (heap_els h e)]>
                                (heap_els h) |}).

(** A subclass whose sizing hooks mark the element 10. *)
Definition measuring : @SegMethods Sample.datelib := {|
  renderSegHtml := λ _ _ _, "<a></a>";
  computeSegSizes := λ _ _, mark "computed" 10%nat;
  assignSegSizes := λ _ _, mark "assigned" 10%nat
|}.

(** Triggers that mark the element 11. *)
Definition marking : @EventRendering Sample.datelib := {|
  filterSegsViaEls := λ _ segs _ h,
    Ok (filter (λ l, is_Some (el (heap_segs h l))) segs, h);
  triggerPositionedSegs := λ _ _ _, mark "positioned" 11%nat;
  triggerWillRemoveSegs := λ _ _ _, mark "removed" 11%nat
|}.

End Sample2.

(** * Properties *)

(** ** Time text *)

Section TimeText.
Context `{Datelib}.
Implicit Types (this : FgEventRenderer) (from till : option DateMarker).

Lemma _getTimeText_hidden this from till isAllDay formatter displayEnd tzo1 tzo2 :
  displayEventTime this = false ∨ isAllDay = true →
  _getTimeText this from till isAllDay formatter displayEnd tzo1 tzo2 = "".
Proof.
  unfold _getTimeText. intros [-> | ->]; [done|].
  by rewrite andb_false_r.
Qed.

Lemma _getTimeText_shown this from till isAllDay formatter displayEnd tzo1 tzo2 :
  _getTimeText this from till isAllDay formatter displayEnd tzo1 tzo2 ≠ "" →
  displayEventTime this = true ∧ isAllDay = false.
Proof.
  intros Htext.
  destruct (displayEventTime this) eqn:Hd, isAllDay eqn:Ha; try done;
    exfalso; apply Htext, _getTimeText_hidden; auto.
Qed.

(** C1. [_getTimeText] returns a text other than [''] only when
    [this.displayEventTime] is true and [allDay] is false, and returns ['']
    in every other case; [getTimeText], which passes the [allDay] of the
    event definition on, inherits both. *)
Theorem timeText_only_when_displayed this from till isAllDay formatter displayEnd
    tzo1 tzo2 :
  (_getTimeText this from till isAllDay formatter displayEnd tzo1 tzo2 ≠ "" →
   displayEventTime this = true ∧ isAllDay = false)
  ∧ (displayEventTime this = false ∨ isAllDay = true →
     _getTimeText this from till isAllDay formatter displayEnd tzo1 tzo2 = "")
  ∧ ∀ eventRange inst,
      instance eventRange = Some inst →
      ∃ text,
        getTimeText this eventRange formatter displayEnd = Ok text
        ∧ (text ≠ "" →
           displayEventTime this = true ∧ allDay (def eventRange) = false)
        ∧ (displayEventTime this = false ∨ allDay (def eventRange) = true →
           text = "").
Proof.
  split; [apply _getTimeText_shown|].
  split; [apply _getTimeText_hidden|].
  intros eventRange inst Hinst. unfold getTimeText. rewrite Hinst.
  eexists. split; [reflexivity|].
  split; [apply _getTimeText_shown | apply _getTimeText_hidden].
Qed.

(** C6. When the time text is displayed it is the formatted range of start
    and end exactly when the effective [displayEnd] is true and [end] is not
    null, and the formatted start otherwise; [getTimeText] passes a null end
    for a definition without an end, whose text is therefore never a
    range. *)
Theorem timeText_range_or_start this from till formatter displayEnd tzo1 tzo2 :
  let env := dateEnv (context this) in
  let fmt := default (eventTimeFormat this) formatter in
  let showEnd := default (displayEventEnd this) displayEnd in
  displayEventTime this = true →
  (showEnd = true ∧ is_Some till →
   _getTimeText this from till false formatter displayEnd tzo1 tzo2
   = formatRange env from till fmt tzo1 tzo2)
  ∧ (¬ (showEnd = true ∧ is_Some till) →
     _getTimeText this from till false formatter displayEnd tzo1 tzo2
     = format env from fmt tzo1)
  ∧ ∀ eventRange inst,
      instance eventRange = Some inst →
      hasEnd (def eventRange) = false →
      getTimeText this eventRange formatter displayEnd
      = Ok (_getTimeText this (start (range inst)) None
              (allDay (def eventRange)) formatter displayEnd
              (forcedStartTzo inst) (forcedEndTzo inst))
      ∧ (allDay (def eventRange) = false →
         getTimeText this eventRange formatter displayEnd
         = Ok (format env (start (range inst)) fmt (forcedStartTzo inst))).
Proof.
  intros env fmt showEnd Hshow.
  assert (Hsingle : ∀ st e t1 t2,
    ¬ (showEnd = true ∧ is_Some e) →
    _getTimeText this st e false formatter displayEnd t1 t2
    = format env st fmt t1).
  { intros st e t1 t2 Hno. unfold _getTimeText. rewrite Hshow. simpl.
    subst showEnd fmt env. destruct displayEnd as [b|], formatter; simpl in *;
      repeat case_bool_decide; simpl;
      try reflexivity;
      try (destruct b); try (destruct (displayEventEnd this));
      simpl; try reflexivity; exfalso; apply Hno; auto. }
  split.
  - intros [Hend Hsome]. unfold _getTimeText. rewrite Hshow. simpl.
    subst showEnd fmt env.
    destruct displayEnd, formatter; simpl in *; rewrite Hend;
      rewrite bool_decide_eq_true_2 by done; reflexivity.
  - split; [apply Hsingle|].
    intros eventRange inst Hinst HnoEnd. unfold getTimeText.
    rewrite Hinst, HnoEnd. split; [reflexivity|].
    intros ->. f_equal. apply Hsingle.
    intros [_ [? ?]]. discriminate.
Qed.

End TimeText.

Lemma timeText_only_when_displayed_witness :
  (displayEventTime Sample.renderer = true ∧ false = false)
  ∧ _getTimeText Sample.renderer (Some Sample.nine) None true None None None None
    = "".
Proof.
  split.
  - apply (proj1 (timeText_only_when_displayed Sample.renderer
                    (Some Sample.nine) (Some Sample.half_past_ten)
                    false None None None None)).
    vm_compute. discriminate.
  - apply (proj1 (proj2 (timeText_only_when_displayed Sample.renderer
                           (Some Sample.nine) None true None None None None))).
    right. reflexivity.
Defined.

Lemma timeText_range_or_start_witness :
  _getTimeText Sample.renderer (Some Sample.nine) (Some Sample.half_past_ten)
    false None None None None = "9:00 - 10:30"
  ∧ getTimeText Sample.renderer (Sample.eventRange0 false false (Some "7") [])
      None None = Ok "9:00".
Proof.
  split.
  - apply (proj1 (timeText_range_or_start Sample.renderer (Some Sample.nine)
                    (Some Sample.half_past_ten) None None None None eq_refl)).
    split; [reflexivity | eexists; reflexivity].
  - apply (proj2 (proj2 (timeText_range_or_start Sample.renderer None None
                           None None None None eq_refl))
             (Sample.eventRange0 false false (Some "7") [])
             (Sample.eventInstance0 "7") eq_refl eq_refl).
    reflexivity.
Defined.

(** The flags [_getTimeText] reads are the options or, for a null option,
    what the base class computes: true. *)
Lemma base_computed_flags `{Datelib} (this : FgEventRenderer) (options : Options) :
  let this' := @_updateComputedOptions _ baseDefaults this options in
  displayEventTime this' = default true (opt_displayEventTime options)
  ∧ displayEventEnd this' = default true (opt_displayEventEnd options).
Proof. by destruct options as [? ? [] []]. Qed.

(** ** Class names *)

Lemma getSegClasses_layout seg isDraggable isResizable mirrorInfo :
  getSegClasses seg isDraggable isResizable mirrorInfo
  = [ "fc-event";
      if isStart seg then "fc-start" else "fc-not-start";
      if isEnd seg then "fc-end" else "fc-not-end" ]
    ++ classNames (ui (eventRange seg))
    ++ flag_classes isDraggable isResizable mirrorInfo.
Proof.
  unfold getSegClasses, flag_classes.
  destruct isDraggable, isResizable, mirrorInfo as [[[] []]|]; simpl;
    rewrite <- ?app_assoc; simpl; rewrite ?app_nil_r; reflexivity.
Qed.

Lemma elem_of_if_singleton (b : bool) (x c : string) :
  c ∈ (if b then [x] else []) ↔ c = x ∧ b = true.
Proof.
  destruct b; rewrite ?elem_of_cons, ?elem_of_nil; intuition congruence.
Qed.

Lemma elem_of_flag_classes c isDraggable isResizable mirrorInfo :
  c ∈ flag_classes isDraggable isResizable mirrorInfo ↔
    (c = "fc-draggable" ∧ isDraggable = true)
    ∨ (c = "fc-resizable" ∧ isResizable = true)
    ∨ (c = "fc-mirror" ∧ is_Some mirrorInfo)
    ∨ (c = "fc-dragging" ∧ ∃ m, mirrorInfo = Some m ∧ isDragging m = true)
    ∨ (c = "fc-resizing" ∧ ∃ m, mirrorInfo = Some m ∧ isResizing m = true).
Proof.
  unfold flag_classes. rewrite !elem_of_app, !elem_of_if_singleton.
  destruct mirrorInfo as [m|].
  - rewrite !elem_of_app, !elem_of_if_singleton, elem_of_cons, elem_of_nil.
    assert (is_Some (Some m)) by by eexists.
    split; intros Hc.
    + destruct Hc as [?|[?|[[?|[]]|[[? ?]|[? ?]]]]]; eauto 10.
    + destruct Hc
        as [?|[?|[[? ?]|[[? (m' & [= <-] & ?)]|[? (m' & [= <-] & ?)]]]]];
        auto 10.
  - rewrite elem_of_nil. split; intros Hc.
    + destruct Hc as [?|[?|[]]]; auto.
    + destruct Hc as [?|[?|[[? [? [=]]]|[[? (m' & [=] & ?)]|[? (m' & [=] & ?)]]]]];
        auto.
Qed.

Lemma elem_of_getSegClasses c seg isDraggable isResizable mirrorInfo :
  c ∈ getSegClasses seg isDraggable isResizable mirrorInfo ↔
    c = "fc-event"
    ∨ c = (if isStart seg then "fc-start" else "fc-not-start")
    ∨ c = (if isEnd seg then "fc-end" else "fc-not-end")
    ∨ c ∈ classNames (ui (eventRange seg))
    ∨ c ∈ flag_classes isDraggable isResizable mirrorInfo.
Proof.
  rewrite getSegClasses_layout, !elem_of_app, !elem_of_cons, elem_of_nil.
  tauto.
Qed.

(** Case analysis on a membership in the class list, for a literal name. *)
Ltac pick_disjunct :=
  lazymatch goal with
  | |- _ ∨ _ => first [ left; pick_disjunct | right; pick_disjunct ]
  | |- _ => solve [ eauto 4 ]
  end.

Ltac class_cases :=
  repeat match goal with
         | H : _ ∨ _ |- _ => destruct H
         | H : _ ∧ _ |- _ => destruct H
         | H : ∃ _, _ |- _ => destruct H
         end;
  try discriminate; subst; pick_disjunct.

(** C8, as the code has it. The list is ['fc-event'], the start class,
    the end class, the names of the event's [ui], then the classes of the
    flags. So it contains ['fc-event'], and each other name of the
    renderer is in the list exactly when its flag holds or the names of the
    event's [ui] contain it. *)
Theorem getSegClasses_flags seg isDraggable isResizable mirrorInfo :
  let classes := getSegClasses seg isDraggable isResizable mirrorInfo in
  let user := classNames (ui (eventRange seg)) in
  classes
  = [ "fc-event";
      if isStart seg then "fc-start" else "fc-not-start";
      if isEnd seg then "fc-end" else "fc-not-end" ]
    ++ user ++ flag_classes isDraggable isResizable mirrorInfo
  ∧ "fc-event" ∈ classes
  ∧ ("fc-start" ∈ classes ↔ isStart seg = true ∨ "fc-start" ∈ user)
  ∧ ("fc-not-start" ∈ classes ↔ isStart seg = false ∨ "fc-not-start" ∈ user)
  ∧ ("fc-end" ∈ classes ↔ isEnd seg = true ∨ "fc-end" ∈ user)
  ∧ ("fc-not-end" ∈ classes ↔ isEnd seg = false ∨ "fc-not-end" ∈ user)
  ∧ ("fc-draggable" ∈ classes ↔ isDraggable = true ∨ "fc-draggable" ∈ user)
  ∧ ("fc-resizable" ∈ classes ↔ isResizable = true ∨ "fc-resizable" ∈ user)
  ∧ ("fc-mirror" ∈ classes ↔ is_Some mirrorInfo ∨ "fc-mirror" ∈ user)
  ∧ ("fc-dragging" ∈ classes ↔
       (∃ m, mirrorInfo = Some m ∧ isDragging m = true) ∨ "fc-dragging" ∈ user)
  ∧ ("fc-resizing" ∈ classes ↔
       (∃ m, mirrorInfo = Some m ∧ isResizing m = true) ∨ "fc-resizing" ∈ user).
Proof.
  intros classes user. subst classes user.
  split; [apply getSegClasses_layout|].
  rewrite !elem_of_getSegClasses, !elem_of_flag_classes.
  split; [by left|].
  destruct (isStart seg), (isEnd seg); repeat split; intros Hin; class_cases.
Qed.

(** The claim C8 fails where the event's own class names contain a name of
    the renderer: the list has ['fc-draggable'] for a segment that is not
    draggable. *)
Lemma getSegClasses_user_class_counterexample :
  ¬ ("fc-draggable" ∈ getSegClasses Sample.named_draggable false false None
     ↔ false = true).
Proof.
  intros [Hin _]. enough (false = true) by discriminate.
  apply Hin. vm_compute. do 3 apply list_elem_of_further. apply list_elem_of_here.
Qed.

Lemma getSegClasses_flags_witness :
  "fc-draggable" ∈ getSegClasses (Sample.seg0 None None) true false None
  ∧ "fc-not-end" ∈ getSegClasses (Sample.seg0 None None) true false None.
Proof.
  pose proof (getSegClasses_flags (Sample.seg0 None None) true false None)
    as (_ & _ & _ & _ & _ & Hend & Hdrag & _).
  split; [apply Hdrag | apply Hend]; left; reflexivity.
Defined.

(** ** The compare object *)

Lemma buildSegCompareObj_no_instance (store : loc → Seg) (l : loc) :
  instance (eventRange (store l)) = None →
  buildSegCompareObj store l = Throw TypeError.
Proof. unfold buildSegCompareObj. by intros ->. Qed.

Lemma buildSegCompareObj_instance (store : loc → Seg) (l : loc) obj :
  buildSegCompareObj store l = Ok obj →
  ∃ inst, instance (eventRange (store l)) = Some inst.
Proof.
  unfold buildSegCompareObj.
  destruct (instance (eventRange (store l))) as [inst|]; [by eexists | done].
Qed.

(** Rounding leaves a whole number of at most 2^53 in magnitude as it is. *)
Lemma round_double_exact (z : Z) : (Z.abs z ≤ 2 ^ 53)%Z → round_double z = z.
Proof.
  intros Hz. unfold round_double.
  destruct (Z.leb_spec (Z.abs z) (2 ^ 53)) as [_|Hgt]; [done | lia].
Qed.

(** Between 2^53 and 2^54 the doubles are the even numbers: an even number
    is left as it is, an odd one becomes its neighbour that is a multiple
    of 4. *)
Lemma round_double_near (z : Z) :
  (2 ^ 53 < Z.abs z < 2 ^ 54)%Z →
  (Z.even z = true → round_double z = z)
  ∧ (Z.even z = false →
     (round_double z mod 4 = 0)%Z ∧ Z.abs (round_double z - z) = 1%Z).
Proof.
  intros Hz. unfold round_double.
  destruct (Z.leb_spec (Z.abs z) (2 ^ 53)) as [Hle|_]; [lia|].
  assert (Hlog : Z.log2 (Z.abs z) = 53%Z).
  { apply Z.log2_unique; [lia|]. change (2 ^ (53 + 1))%Z with (2 ^ 54)%Z. lia. }
  rewrite Hlog. change (53 - 52)%Z with 1%Z. change (2 ^ 1)%Z with 2%Z.
  change (2 ^ (1 - 1))%Z with 1%Z.
  set (m := Z.abs z) in *.
  assert (Hr : (m mod 2 = 0 ∨ m mod 2 = 1)%Z) by (pose proof (Z.mod_pos_bound m 2); lia).
  assert (Hm : (m = 2 * (m / 2) + m mod 2)%Z) by (apply Z.div_mod; lia).
  assert (Heven : Z.even z = Z.even m) by (subst m; destruct (Z.abs_eq_or_opp z) as [-> | ->]; [done | by rewrite Z.even_opp]).
  rewrite Heven.
  assert (Hparity : Z.even m = (m mod 2 =? 0)%Z) by apply Zeven_mod.
  rewrite Hparity.
  destruct Hr as [Hr|Hr]; rewrite Hr; simpl.
  - split; [intros _|done].
    subst m. destruct (Z.abs_spec z) as [[? Habs]|[? Habs]];
      rewrite Habs in *; [rewrite (Z.sgn_pos z) by lia | rewrite (Z.sgn_neg z) by lia]; lia.
  - split; [done|intros _].
    assert (Hz' : z = m ∧ Z.sgn z = 1%Z ∨ z = (- m)%Z ∧ Z.sgn z = (-1)%Z).
    { subst m. destruct (Z.abs_spec z) as [[? Habs]|[? Habs]]; rewrite Habs in *.
      - left. split; [done | apply Z.sgn_pos; lia].
      - right. split; [lia | apply Z.sgn_neg; lia]. }
    clearbody m. set (q := (m / 2)%Z) in *. clearbody q.
    destruct (Z.odd q) eqn:Hq.
    + apply Z.odd_spec in Hq as [k Hk].
      destruct Hz' as [[-> ->]|[-> ->]]; split; try lia.
      * replace (1 * ((q + 1) * 2))%Z with ((k + 1) * 4)%Z by lia.
        apply Z.mod_mul. lia.
      * replace (-1 * ((q + 1) * 2))%Z with ((- k - 1) * 4)%Z by lia.
        apply Z.mod_mul. lia.
    + rewrite <- Z.negb_even in Hq. apply negb_false_iff in Hq.
      apply Z.even_spec in Hq as [k Hk].
      destruct Hz' as [[-> ->]|[-> ->]]; split; try lia.
      * replace (1 * (q * 2))%Z with (k * 4)%Z by lia.
        apply Z.mod_mul. lia.
      * replace (-1 * (q * 2))%Z with ((- k) * 4)%Z by lia.
        apply Z.mod_mul. lia.
Qed.

Lemma endpoint_ms_range (d : option DateMarker) :
  (-8640000000000000 ≤ endpoint_ms d ≤ 8640000000000000)%Z.
Proof.
  destruct d as [[t Ht]|]; simpl; [|lia].
  by apply bool_decide_unpack in Ht.
Qed.

(** C10, as the code has it. The object [buildSegCompareObj] returns for a
    segment has as [start] and [end] the millisecond values of the
    endpoints of the instance's range (0 for a missing endpoint), as
    [duration] what the subtraction [end - start] of two numbers gives:
    their difference when that is at most 2^53 in magnitude or even, and
    otherwise the neighbour of the difference that is a multiple of 4; as
    [allDay] 0 or 1 as the definition's flag, as [id] the definition's
    [publicId] and as [_seg] the segment it was given; every other
    property comes from the definition or, failing that, from its
    [extendedProps]. It returns for every segment that has an event
    instance. *)
Theorem buildSegCompareObj_fields (store : loc → Seg) (l : loc) :
  let eventDef := def (eventRange (store l)) in
  (∀ obj, buildSegCompareObj store l = Ok obj →
     ∃ inst,
       instance (eventRange (store l)) = Some inst
       ∧ let t0 := endpoint_ms (start (range inst)) in
         let t1 := endpoint_ms (end_ (range inst)) in
         obj !! "start" = Some (JNum t0)
         ∧ obj !! "end" = Some (JNum t1)
         ∧ ((Z.abs (t1 - t0) ≤ 2 ^ 53)%Z ∨ Z.even (t1 - t0) = true →
            obj !! "duration" = Some (JNum (t1 - t0)))
         ∧ (¬ ((Z.abs (t1 - t0) ≤ 2 ^ 53)%Z ∨ Z.even (t1 - t0) = true) →
            ∃ d, obj !! "duration" = Some (JNum d)
                 ∧ (d mod 4 = 0)%Z ∧ Z.abs (d - (t1 - t0)) = 1%Z)
         ∧ obj !! "allDay" = Some (JNum (if allDay eventDef then 1 else 0))
         ∧ obj !! "id" = Some (JStr (publicId eventDef))
         ∧ obj !! "_seg" = Some (JRef l)
         ∧ ∀ k, k ∉ literal_keys →
             obj !! k = (eventDef_props eventDef ∪ extendedProps eventDef) !! k)
  ∧ (is_Some (instance (eventRange (store l))) →
     ∃ obj, buildSegCompareObj store l = Ok obj).
Proof.
  intros eventDef. split.
  - intros obj Hrun.
    destruct (buildSegCompareObj_instance store l obj Hrun) as [inst Hinst].
    exists inst. split; [done|].
    unfold buildSegCompareObj in Hrun. rewrite Hinst in Hrun.
    injection Hrun as <-. fold eventDef.
    fold (endpoint_ms (start (range inst))) (endpoint_ms (end_ (range inst))).
    pose proof (endpoint_ms_range (start (range inst))) as H0.
    pose proof (endpoint_ms_range (end_ (range inst))) as H1.
    set (t0 := endpoint_ms (start (range inst))) in *.
    set (t1 := endpoint_ms (end_ (range inst))) in *.
    assert (Hduration :
      (<["_seg":=JRef l]>
         (<["allDay":=JNum (Number_of_bool (allDay eventDef))]>
            (<["duration":=JNum (js_minus t1 t0)]>
               (<["end":=JNum t1]>
                  (<["start":=JNum t0]>
                     (<["id":=JStr (publicId eventDef)]>
                        (eventDef_props eventDef ∪ extendedProps eventDef)))))))
      !! "duration" = Some (JNum (round_double (t1 - t0)))) by by simplify_map_eq.
    destruct (decide (Z.abs (t1 - t0) ≤ 2 ^ 53)%Z) as [Hsmall|Hlarge].
    { repeat split; try (by simplify_map_eq).
      - intros _. by rewrite Hduration, round_double_exact.
      - intros Hno. exfalso. apply Hno. by left.
      - intros k Hk. unfold literal_keys in Hk.
        rewrite !not_elem_of_cons in Hk. destruct Hk as (?&?&?&?&?&?&_).
        by rewrite !lookup_insert_ne. }
    destruct (round_double_near (t1 - t0)) as [Heven Hodd].
    { change (2 ^ 53)%Z with 9007199254740992%Z in *.
      change (2 ^ 54)%Z with 18014398509481984%Z. lia. }
    repeat split; try (by simplify_map_eq).
    + intros [Hsmall|He]; [done|]. by rewrite Hduration, Heven.
    + intros Hno. exists (round_double (t1 - t0)). split; [done|].
      apply Hodd. destruct (Z.even (t1 - t0)); [|done].
      exfalso. apply Hno. by right.
    + intros k Hk. unfold literal_keys in Hk.
      rewrite !not_elem_of_cons in Hk. destruct Hk as (?&?&?&?&?&?&_).
      by rewrite !lookup_insert_ne.
  - intros [inst Hinst]. unfold buildSegCompareObj. rewrite Hinst. by eexists.
Qed.

(** The claim C10 fails for a range from the second millisecond of the
    time line to its last one: the difference of the endpoints is above
    2^53 and odd, and [duration] is the even number after it. *)
Lemma buildSegCompareObj_duration_counterexample :
  ∃ obj,
    buildSegCompareObj (λ _, Sample2.seg_of_all_time) 0 = Ok obj
    ∧ obj !! "start" = Some (JNum (-8639999999999999))
    ∧ obj !! "end" = Some (JNum 8640000000000000)
    ∧ obj !! "duration" = Some (JNum 17280000000000000)
    ∧ obj !! "duration"
      ≠ Some (JNum (8640000000000000 - (-8639999999999999))).
Proof.
  eexists. split; [reflexivity|].
  split; [by vm_compute|]. split; [by vm_compute|]. split; [by vm_compute|].
  by vm_compute.
Qed.

Lemma buildSegCompareObj_fields_witness :
  ∃ obj,
    buildSegCompareObj Sample.store0 1 = Ok obj
    ∧ obj !! "start" = Some (JNum 100)
    ∧ obj !! "end" = Some (JNum 0)
    ∧ obj !! "duration" = Some (JNum (-100))
    ∧ obj !! "_seg" = Some (JRef 1)
    ∧ obj !! "extendedProps" = Some (JRef 50).
Proof.
  destruct (proj2 (buildSegCompareObj_fields Sample.store0 1)) as [obj Hrun];
    [by eexists|].
  destruct (proj1 (buildSegCompareObj_fields Sample.store0 1) obj Hrun)
    as (inst & [= <-] & Hstart & Hend & Hduration & _ & _ & _ & Hseg & Hrest).
  exists obj. split; [exact Hrun|]. split; [exact Hstart|].
  split; [exact Hend|]. split; [apply Hduration; left; by vm_compute|].
  split; [exact Hseg|].
  rewrite Hrest; [by vm_compute|].
  unfold literal_keys. rewrite !not_elem_of_cons. repeat split; try done.
  apply not_elem_of_nil.
Defined.

(** ** Loading the vdom module *)

Lemma lookup_foldr_insert (f : string → JsVal) (names : list string) (k : string) :
  foldr (λ name ex, <[name := f name]> ex) (∅ : gmap string JsVal) names !! k
  = if bool_decide (k ∈ names) then Some (f k) else None.
Proof.
  induction names as [|name names IH]; cbn [foldr].
  - rewrite lookup_empty, bool_decide_eq_false_2; [done | apply not_elem_of_nil].
  - destruct (decide (name = k)) as [->|Hk].
    + rewrite lookup_insert_eq, bool_decide_eq_true_2;
        [done | apply list_elem_of_here].
    + rewrite lookup_insert_ne, IH by done.
      apply (f_equal (λ b : bool, if b then Some (f k) else None)).
      apply bool_decide_ext. rewrite elem_of_cons.
      split; [by right | by intros [->|?]].
Qed.

(** C7. Loading the module throws, and then it throws the [Error] with the
    message about the top-level lib, exactly when the global
    [FullCalendarVDom] is undefined; when it is defined the load completes
    and every exported name is bound to the member of that name. *)
Theorem vdom_load_guard (FullCalendarVDom : option (gmap string JsVal)) :
  (VDom.load FullCalendarVDom = Throw (Error VDom.message)
   ↔ FullCalendarVDom = None)
  ∧ ((∃ e, VDom.load FullCalendarVDom = Throw e) ↔ FullCalendarVDom = None)
  ∧ ∀ ns, FullCalendarVDom = Some ns →
      ∃ ex,
        VDom.load FullCalendarVDom = Ok ex
        ∧ (∀ name, name ∈ VDom.exported → ex !! name = Some (js_get ns name))
        ∧ (∀ name, name ∉ VDom.exported → ex !! name = None).
Proof.
  destruct FullCalendarVDom as [ns|]; unfold VDom.load.
  - split; [split; discriminate|].
    split; [split; [intros [e He]|]; discriminate|].
    intros ? [= <-]. eexists. split; [reflexivity|].
    split; intros name Hname; rewrite lookup_foldr_insert.
    + by rewrite bool_decide_eq_true_2.
    + by rewrite bool_decide_eq_false_2.
  - split; [done|]. split; [split; eauto|]. discriminate.
Qed.

Lemma vdom_load_guard_witness :
  VDom.load None = Throw (Error VDom.message)
  ∧ ∃ ex, VDom.load (Some {[ "render" := JRef 1 ]}) = Ok ex
          ∧ ex !! "render" = Some (JRef 1).
Proof.
  split.
  - apply (proj1 (vdom_load_guard None)). reflexivity.
  - destruct (proj2 (proj2 (vdom_load_guard (Some {[ "render" := JRef 1 ]})))
                _ eq_refl) as (ex & Hload & Hin & _).
    exists ex. split; [exact Hload|].
    apply (Hin "render"). unfold VDom.exported.
    rewrite !elem_of_cons. auto 20.
Defined.

(** ** Sorting *)

Section ArraySort.
Context {A : Type} (cmp : A → A → Z).

Lemma sort_insert_Permutation x l : sort_insert cmp x l ≡ₚ x :: l.
Proof.
  induction l as [|y l IH]; simpl; [done|].
  destruct (cmp x y <=? 0)%Z; [done|].
  rewrite IH. apply perm_swap.
Qed.

Lemma array_sort_Permutation l : array_sort cmp l ≡ₚ l.
Proof.
  induction l as [|x l IH]; simpl; [done|].
  unfold array_sort in *. simpl. by rewrite sort_insert_Permutation, IH.
Qed.

Lemma sort_insert_HdRel a x l :
  in_order cmp a x → HdRel (in_order cmp) a l → HdRel (in_order cmp) a (sort_insert cmp x l).
Proof.
  intros Hax Hal. destruct l as [|y l]; simpl; [by constructor|].
  destruct (cmp x y <=? 0)%Z; constructor; [done|].
  by inversion Hal.
Qed.

Lemma sort_insert_Sorted x l :
  (∀ y, y ∈ l → (0 < cmp x y)%Z → (cmp y x ≤ 0)%Z) →
  Sorted (in_order cmp) l → Sorted (in_order cmp) (sort_insert cmp x l).
Proof.
  intros Htotal Hsorted. induction Hsorted as [|y l Hl IH Hhd]; simpl.
  - repeat constructor.
  - destruct (Z.leb_spec (cmp x y) 0) as [Hle|Hgt].
    + constructor; [by constructor | by constructor].
    + constructor.
      * apply IH. intros z Hz. apply Htotal. by apply list_elem_of_further.
      * apply sort_insert_HdRel; [|done].
        apply Htotal; [apply list_elem_of_here | done].
Qed.

Lemma array_sort_Sorted l :
  (∀ a b, a ∈ l → b ∈ l → (0 < cmp a b)%Z → (cmp b a ≤ 0)%Z) →
  Sorted (in_order cmp) (array_sort cmp l).
Proof.
  induction l as [|x l IH]; intros Htotal; [constructor|].
  change (array_sort cmp (x :: l)) with (sort_insert cmp x (array_sort cmp l)).
  apply sort_insert_Sorted.
  - intros y Hy. rewrite array_sort_Permutation in Hy.
    apply Htotal; [apply list_elem_of_here | by apply list_elem_of_further].
  - apply IH. intros a b Ha Hb.
    apply Htotal; by apply list_elem_of_further.
Qed.

End ArraySort.

Lemma sort_insert_map {A B} (f : A → B) (cmp : B → B → Z) x l :
  sort_insert cmp (f x) (map f l)
  = map f (sort_insert (λ a b, cmp (f a) (f b)) x l).
Proof.
  induction l as [|y l IH]; simpl; [done|].
  destruct (cmp (f x) (f y) <=? 0)%Z; simpl; [done|]. by rewrite IH.
Qed.

Lemma array_sort_map {A B} (f : A → B) (cmp : B → B → Z) l :
  array_sort cmp (map f l) = map f (array_sort (λ a b, cmp (f a) (f b)) l).
Proof.
  induction l as [|x l IH]; [done|].
  change (array_sort cmp (map f (x :: l)))
    with (sort_insert cmp (f x) (array_sort cmp (map f l))).
  rewrite IH. apply sort_insert_map.
Qed.

Lemma res_map_buildSegCompareObj (store : loc → Seg) (ls : list loc) :
  (∀ l, l ∈ ls → is_Some (instance (eventRange (store l)))) →
  res_map (buildSegCompareObj store) ls = Ok (map (compare_obj store) ls).
Proof.
  induction ls as [|l ls IH]; intros Hinst; [done|].
  simpl. rewrite IH.
  - destruct (Hinst l) as [inst Hl]; [apply list_elem_of_here|].
    unfold compare_obj, buildSegCompareObj. by rewrite Hl.
  - intros l' Hl'. apply Hinst. by apply list_elem_of_further.
Qed.

Lemma compare_obj_seg (store : loc → Seg) (l : loc) :
  is_Some (instance (eventRange (store l))) →
  js_get (compare_obj store l) "_seg" = JRef l.
Proof.
  intros [inst Hl]. unfold compare_obj, buildSegCompareObj. rewrite Hl.
  unfold js_get. by rewrite lookup_insert_eq.
Qed.

Lemma res_map_Ok_inv {A B} (f : A → Res B) (xs : list A) ys :
  res_map f xs = Ok ys → ∀ x, x ∈ xs → ∃ y, f x = Ok y.
Proof.
  revert ys. induction xs as [|x0 xs IH]; intros ys Hrun x Hx.
  - by apply elem_of_nil in Hx.
  - simpl in Hrun. unfold mbind, Res_bind in Hrun.
    destruct (f x0) as [y0|] eqn:Hx0; [|done].
    destruct (res_map f xs) as [ys0|]; [|done].
    apply elem_of_cons in Hx as [->|Hx]; [by eexists | by eapply IH].
Qed.

Lemma sortEventSegs_instances `{Misc} `{ArraySort} (store : loc → Seg)
    (segs : list loc) (eventOrderSpecs : FieldSpecs) res :
  sortEventSegs store segs eventOrderSpecs = Ok res →
  ∀ l, l ∈ segs → is_Some (instance (eventRange (store l))).
Proof.
  unfold sortEventSegs. unfold mbind, Res_bind.
  destruct (res_map (buildSegCompareObj store) segs) as [objs|] eqn:Hmap;
    [|done].
  intros _ l Hl.
  destruct (res_map_Ok_inv _ _ _ Hmap l Hl) as [obj Hobj].
  by eapply buildSegCompareObj_instance.
Qed.

(** A consistent comparator never has two values each strictly after the
    other, and its order is transitive. *)
Lemma consistent_total {A} (cmp : A → A → Z) (xs : list A) :
  consistent cmp xs →
  ∀ a b, a ∈ xs → b ∈ xs → (0 < cmp a b)%Z → (cmp b a ≤ 0)%Z.
Proof.
  intros (Hrefl & _ & _ & _ & Hgt) a b Ha Hb Hab.
  destruct (Z_le_gt_dec (cmp b a) 0) as [|Hba]; [done|].
  pose proof (Hgt a b a Ha Hb Ha ltac:(lia) Hba).
  pose proof (Hrefl a Ha). lia.
Qed.

Lemma consistent_in_order_trans {A} (cmp : A → A → Z) (xs : list A) :
  consistent cmp xs →
  ∀ a b c, a ∈ xs → b ∈ xs → c ∈ xs →
    in_order cmp a b → in_order cmp b c → in_order cmp a c.
Proof.
  intros (Hrefl & Hsym & Heq & Hlt & Hgt) a b c Ha Hb Hc. unfold in_order.
  intros Hab Hbc.
  destruct (Z_le_gt_dec (cmp a c) 0) as [|Hac]; [done|]. exfalso.
  assert (Hca : (cmp c a < 0)%Z).
  { destruct (Z.lt_trichotomy (cmp c a) 0) as [?|[Hz|Hpos]]; [done| |].
    - pose proof (Hsym c a Hc Ha Hz). lia.
    - pose proof (Hgt a c a Ha Hc Ha Hac ltac:(lia)).
      pose proof (Hrefl a Ha). lia. }
  destruct (Z.eq_dec (cmp a b) 0%Z) as [Hab0|Hab0],
           (Z.eq_dec (cmp b c) 0%Z) as [Hbc0|Hbc0].
  - pose proof (Heq a b c Ha Hb Hc Hab0 Hbc0). lia.
  - pose proof (Hlt b c a Hb Hc Ha ltac:(lia) Hca).
    pose proof (Hsym a b Ha Hb Hab0). lia.
  - pose proof (Hlt c a b Hc Ha Hb Hca ltac:(lia)).
    pose proof (Hsym b c Hb Hc Hbc0). lia.
  - pose proof (Hlt a b c Ha Hb Hc ltac:(lia) ltac:(lia)). lia.
Qed.

Lemma consistent_Permutation {A} (cmp : A → A → Z) (xs ys : list A) :
  xs ≡ₚ ys → consistent cmp xs → consistent cmp ys.
Proof.
  intros Hperm (Hrefl & Hsym & Heq & Hlt & Hgt).
  repeat split; intros *; rewrite <- !Hperm; eauto.
Qed.

Lemma array_sort_consistent_Sorted {A} (cmp : A → A → Z) (xs : list A) :
  consistent cmp xs → Sorted (in_order cmp) (array_sort cmp xs).
Proof. intros Hc. by apply array_sort_Sorted, consistent_total. Qed.

(** The insertion sort is an engine as the language asks for. *)
Lemma insertion_sort_conforming : @conforming Sample.arraySort.
Proof. split; [intros cmp xs; apply array_sort_Permutation | done]. Qed.

Lemma map_seg_compare_obj (store : loc → Seg) (ls : list loc) :
  (∀ l, l ∈ ls → is_Some (instance (eventRange (store l)))) →
  map (λ c, js_get c "_seg") (map (compare_obj store) ls) = JRef <$> ls.
Proof.
  intros Hinst. rewrite map_map. apply map_ext_in. intros l Hl.
  apply compare_obj_seg, Hinst. by apply list_elem_of_In.
Qed.

(** What [sortEventSegs] returns, in terms of the engine's sort. *)
Lemma sortEventSegs_engine `{Misc} `{ArraySort} (store : loc → Seg)
    (segs : list loc) (eventOrderSpecs : FieldSpecs) :
  (∀ l, l ∈ segs → is_Some (instance (eventRange (store l)))) →
  sortEventSegs store segs eventOrderSpecs
  = Ok (map (λ c, js_get c "_seg")
          (Array_prototype_sort
             (λ obj0 obj1, compareByFieldSpecs obj0 obj1 eventOrderSpecs)
             (map (compare_obj store) segs))).
Proof.
  intros Hinst. unfold sortEventSegs.
  by rewrite res_map_buildSegCompareObj.
Qed.

(** What [sortEventSegs] returns are the segments of a rearrangement of
    its input, when the engine's sort rearranges. *)
Lemma sortEventSegs_permuted `{Misc} `{ArraySort} (store : loc → Seg)
    (segs : list loc) (eventOrderSpecs : FieldSpecs) res :
  (∀ cmp xs, Array_prototype_sort cmp xs ≡ₚ xs) →
  sortEventSegs store segs eventOrderSpecs = Ok res →
  ∃ sorted,
    res = JRef <$> sorted
    ∧ sorted ≡ₚ segs
    ∧ Array_prototype_sort
        (λ obj0 obj1, compareByFieldSpecs obj0 obj1 eventOrderSpecs)
        (map (compare_obj store) segs)
      = map (compare_obj store) sorted
    ∧ res_map (buildSegCompareObj store) sorted
      = Ok (map (compare_obj store) sorted).
Proof.
  intros Hperm Hres.
  assert (Hinst : ∀ l, l ∈ segs → is_Some (instance (eventRange (store l))))
    by by eapply sortEventSegs_instances.
  rewrite sortEventSegs_engine in Hres by done. injection Hres as <-.
  destruct (Permutation_map_inv (compare_obj store) segs
              (Hperm (λ obj0 obj1, compareByFieldSpecs obj0 obj1 eventOrderSpecs)
                 (map (compare_obj store) segs)))
    as (sorted & Hobjs & Hsorted).
  assert (Hinst' : ∀ l, l ∈ sorted →
                        is_Some (instance (eventRange (store l)))).
  { intros l Hl. apply Hinst. by rewrite Hsorted. }
  exists sorted. rewrite Hobjs.
  split; [by apply map_seg_compare_obj|]. split; [done|]. split; [done|].
  by apply res_map_buildSegCompareObj.
Qed.

(** C3, as the code has it. For an engine whose sort is as the language
    asks, what [sortEventSegs] returns are the segments of a permutation of
    its input: the [_seg] of the compare objects after sorting. When
    [compareByFieldSpecs] with the given specs is a consistent comparison
    function for the compare objects, these are in its order. It returns
    for segments that have an event instance. *)
Theorem sortEventSegs_sorted_permutation `{Misc} `{ArraySort}
    (store : loc → Seg) (segs : list loc) (eventOrderSpecs : FieldSpecs) :
  let cmp := λ obj0 obj1, compareByFieldSpecs obj0 obj1 eventOrderSpecs in
  conforming →
  (∀ res, sortEventSegs store segs eventOrderSpecs = Ok res →
     ∃ sorted objs,
       res = JRef <$> sorted
       ∧ sorted ≡ₚ segs
       ∧ res_map (buildSegCompareObj store) sorted = Ok objs
       ∧ map (λ c, js_get c "_seg") objs = res
       ∧ (consistent cmp objs → Sorted (in_order cmp) objs))
  ∧ ((∀ l, l ∈ segs → is_Some (instance (eventRange (store l)))) →
     ∃ res, sortEventSegs store segs eventOrderSpecs = Ok res).
Proof.
  intros cmp [Hperm Hstable]. split.
  - intros res Hres.
    destruct (sortEventSegs_permuted _ _ _ _ Hperm Hres)
      as (sorted & -> & Hsorted & Hobjs & Hbuild).
    fold cmp in Hobjs.
    assert (Hinst : ∀ l, l ∈ sorted →
                         is_Some (instance (eventRange (store l)))).
    { intros l Hl. rewrite Hsorted in Hl. revert l Hl.
      by eapply sortEventSegs_instances. }
    exists sorted, (map (compare_obj store) sorted).
    split; [done|]. split; [done|]. split; [done|].
    split; [by apply map_seg_compare_obj|].
    intros Hconsistent. rewrite <- Hobjs.
    assert (Hconsistent' : consistent cmp (map (compare_obj store) segs)).
    { eapply consistent_Permutation; [|exact Hconsistent].
      rewrite <- Hobjs. apply Hperm. }
    rewrite Hstable by done. by apply array_sort_consistent_Sorted.
  - intros Hinst. rewrite sortEventSegs_engine by done. by eexists.
Qed.

(** The claim C3 fails for specs by which every object is after every
    other: no order of the compare objects of two segments is sorted, so
    what [sortEventSegs] returns is not, whichever way the engine
    rearranges. *)
Lemma sortEventSegs_unsortable_counterexample :
  let cmp := λ a b, @compareByFieldSpecs Sample2.always_after a b tt in
  (∃ objs,
     res_map (buildSegCompareObj Sample.store0) [0; 1]%nat = Ok objs
     ∧ ∀ objs', objs' ≡ₚ objs → ¬ Sorted (in_order cmp) objs')
  ∧ ∀ engine : ArraySort,
      (∀ cmp xs, @Array_prototype_sort engine cmp xs ≡ₚ xs) →
      ∃ sorted objs,
        @sortEventSegs Sample2.always_after engine Sample.store0
          [0; 1]%nat tt = Ok (JRef <$> sorted)
        ∧ sorted ≡ₚ [0; 1]%nat
        ∧ res_map (buildSegCompareObj Sample.store0) sorted = Ok objs
        ∧ ¬ Sorted (in_order cmp) objs.
Proof.
  intros cmp.
  assert (Hno : ∀ objs' : list (gmap string JsVal),
            length objs' = 2%nat → ¬ Sorted (in_order cmp) objs').
  { intros [|a [|b [|c objs']]] [=] Hsorted.
    apply Sorted_inv in Hsorted as [_ Hhd]. apply HdRel_inv in Hhd.
    unfold in_order, cmp in Hhd. simpl in Hhd. lia. }
  split.
  - eexists. split; [reflexivity|].
    intros objs' Hperm. apply Hno. by rewrite Hperm.
  - intros engine Hperm.
    destruct (@sortEventSegs Sample2.always_after engine Sample.store0
                [0; 1]%nat tt) as [res|e] eqn:Hres.
    + destruct (@sortEventSegs_permuted Sample2.always_after engine _ _ _ _
                  Hperm Hres) as (sorted & -> & Hsorted & _ & Hbuild).
      exists sorted, (map (compare_obj Sample.store0) sorted).
      split; [done|]. split; [done|]. split; [done|].
      apply Hno. by rewrite length_map, Hsorted.
    + rewrite sortEventSegs_engine in Hres; [done|].
      intros l _. destruct l as [|[|l]]; by eexists.
Qed.

(** ** Loops that write through [seg.el] *)

Lemma for_of_ext {St A} (xs : list A) (body1 body2 : A → StateRes St unit) :
  (∀ x s, body1 x s = body2 x s) →
  ∀ s, for_of xs body1 s = for_of xs body2 s.
Proof.
  intros Hbody. induction xs as [|x xs IH]; intros s; [done|].
  simpl. unfold mbind, StateRes_bind. rewrite Hbody.
  destruct (body2 x s) as [[[] s']|]; [apply IH | done].
Qed.

Lemma targeted_nil test store e : ¬ targeted test store [] e.
Proof. intros (l & Hl & _). by apply elem_of_nil in Hl. Qed.

Lemma targeted_cons test store l segs e :
  targeted test store (l :: segs) e ↔
    (test (store l) = Ok true ∧ el (store l) = Some e)
    ∨ targeted test store segs e.
Proof.
  unfold targeted. split.
  - intros (l' & [->|Hl']%elem_of_cons & Htest); [by left | right; eauto].
  - intros [Htest | (l' & Hl' & Htest)].
    + exists l. split; [apply list_elem_of_here | done].
    + exists l'. split; [by apply list_elem_of_further | done].
Qed.

Lemma targeted_decidable test store segs e :
  targeted test store segs e ∨ ¬ targeted test store segs e.
Proof.
  induction segs as [|l segs IH].
  - right. apply targeted_nil.
  - rewrite targeted_cons. destruct IH as [IH|IH]; [by auto|].
    destruct (test (store l)) as [[]|err]; [|right; intros [[[=] _]|]; done..].
    destruct (el (store l)) as [e0|]; [|right; intros [[_ [=]]|]; done].
    destruct (decide (e0 = e)) as [->|Hne]; [by auto|].
    right. intros [[_ [=]]|]; done.
Qed.

Section ElsLoop.
Context (test : Seg → Res bool) (f : Element → Element).
Hypothesis f_idempotent : ∀ x, f (f x) = f x.

Lemma els_loop_ok segs w w' :
  els_loop test f segs w = Ok (tt, w') →
  segStore w' = segStore w
  ∧ calls w' = calls w
  ∧ passable test (segStore w) segs
  ∧ ∀ e,
      (targeted test (segStore w) segs e → elStore w' e = f (elStore w e))
      ∧ (¬ targeted test (segStore w) segs e → elStore w' e = elStore w e).
Proof.
  revert w. induction segs as [|l segs IH]; intros w Hrun.
  - injection Hrun as <-. repeat split; try done.
    + intros l Hl. by apply elem_of_nil in Hl.
    + intros Ht. by apply targeted_nil in Ht.
  - unfold els_loop in Hrun. simpl in Hrun.
    unfold mbind, StateRes_bind, read_seg in Hrun. simpl in Hrun.
    destruct (test (segStore w l)) as [[]|err] eqn:Htest; [| |done].
    + unfold update_el in Hrun.
      destruct (el (segStore w l)) as [e0|] eqn:Hel; [|done].
      simpl in Hrun.
      apply IH in Hrun as (Hseg & Hcalls & Hpass & Hels). simpl in *.
      split; [done|]. split; [done|]. split.
      * intros l' [->|Hl']%elem_of_cons; [|by apply Hpass].
        exists true. by rewrite Hel.
      * intros e. rewrite targeted_cons, Htest, Hel.
        destruct (Hels e) as [Hyes Hno].
        destruct (decide (e0 = e)) as [->|Hne].
        -- split; [intros _|intros []; auto].
           destruct (targeted_decidable test (segStore w) segs e) as [Ht|Ht].
           ++ rewrite Hyes by done. rewrite fn_lookup_insert. apply f_idempotent.
           ++ rewrite Hno by done. apply fn_lookup_insert.
        -- split.
           ++ intros [[_ [=]]|Ht]; [done|].
              rewrite Hyes by done. by rewrite fn_lookup_insert_ne.
           ++ intros Ht. rewrite Hno by tauto. by rewrite fn_lookup_insert_ne.
    + fold (els_loop test f segs) in Hrun.
      apply IH in Hrun as (Hseg & Hcalls & Hpass & Hels).
      split; [done|]. split; [done|]. split.
      * intros l' [->|Hl']%elem_of_cons; [|by apply Hpass].
        exists false. by split.
      * intros e. rewrite targeted_cons, Htest.
        destruct (Hels e) as [Hyes Hno]. split.
        -- intros [[[=] _]|Ht]. by apply Hyes.
        -- intros Ht. apply Hno. tauto.
Qed.

End ElsLoop.

Lemma els_loop_passable test f segs w :
  passable test (segStore w) segs →
  ∃ w', els_loop test f segs w = Ok (tt, w').
Proof.
  revert w. induction segs as [|l segs IH]; intros w Hpass; [by eexists|].
  unfold els_loop. simpl. unfold mbind, StateRes_bind, read_seg. simpl.
  destruct (Hpass l) as (b & Htest & Hel); [apply list_elem_of_here|].
  assert (Hrest : passable test (segStore w) segs).
  { intros l' Hl'. apply Hpass. by apply list_elem_of_further. }
  rewrite Htest. destruct b.
  - destruct Hel as [e0 Hel]; [done|]. unfold update_el. rewrite Hel. simpl.
    by apply IH.
  - by apply IH.
Qed.

(** ** Hidden instances *)

Lemma truthy_js_get (o : gmap string JsVal) (k : string) :
  truthy (js_get o k) = true ↔ reads_truthy o k.
Proof.
  unfold js_get, reads_truthy, Object_prototype. split.
  - destruct (o !! k) as [v|]; [intros Ht; left; by exists v|].
    case_bool_decide; [|done]. intros _. by right.
  - intros [(v & -> & Ht)|[-> Hk]]; [done|].
    by rewrite bool_decide_eq_true_2.
Qed.

Lemma hidden_test_true hiddenInstances seg :
  hidden_test hiddenInstances seg = Ok true ↔ is_hidden hiddenInstances seg.
Proof.
  unfold hidden_test, is_hidden. split.
  - destruct (instance (eventRange seg)) as [inst|]; [|done].
    intros [= Ht]. exists inst. split; [done | by apply truthy_js_get].
  - intros (inst & -> & Ht). f_equal. by apply truthy_js_get.
Qed.

Lemma hidden_el_targeted hiddenInstances store segs e :
  targeted (hidden_test hiddenInstances) store segs e
  ↔ hidden_el hiddenInstances store segs e.
Proof.
  unfold targeted, hidden_el.
  split; intros (l & Hl & Ht & He); exists l; by rewrite hidden_test_true in *.
Qed.

Lemma hideable_passable hiddenInstances store segs :
  hideable hiddenInstances store segs →
  passable (hidden_test hiddenInstances) store segs.
Proof.
  intros Hok l Hl. destruct (Hok l Hl) as [[inst Hinst] Hel].
  exists (truthy (js_get hiddenInstances (instanceId inst))).
  split; [unfold hidden_test; by rewrite Hinst|].
  intros Ht. apply Hel, hidden_test_true. unfold hidden_test.
  by rewrite Hinst, Ht.
Qed.

Lemma hiddenInstances_loop_els v segs hiddenInstances w :
  hiddenInstances_loop v segs hiddenInstances w
  = els_loop (hidden_test hiddenInstances) (set_visibility v) segs w.
Proof.
  apply for_of_ext. intros l s.
  unfold mbind, StateRes_bind, read_seg, hidden_test. simpl.
  destruct (instance (eventRange (segStore s l))); [|done].
  by destruct (truthy _).
Qed.

Lemma hiddenInstances_loop_ok v segs hiddenInstances w w' :
  hiddenInstances_loop v segs hiddenInstances w = Ok (tt, w') →
  segStore w' = segStore w
  ∧ calls w' = calls w
  ∧ ∀ e,
      (hidden_el hiddenInstances (segStore w) segs e →
       elStore w' e = set_visibility v (elStore w e))
      ∧ (¬ hidden_el hiddenInstances (segStore w) segs e →
         elStore w' e = elStore w e).
Proof.
  rewrite hiddenInstances_loop_els. intros Hrun.
  apply els_loop_ok in Hrun as (Hseg & Hcalls & _ & Hels); [|done].
  split; [done|]. split; [done|].
  intros e. rewrite <- hidden_el_targeted. apply Hels.
Qed.

Lemma hiddenInstances_loop_returns v segs hiddenInstances w :
  hideable hiddenInstances (segStore w) segs →
  ∃ w', hiddenInstances_loop v segs hiddenInstances w = Ok (tt, w').
Proof.
  intros Hok. rewrite hiddenInstances_loop_els.
  by apply els_loop_passable, hideable_passable.
Qed.

(** C5, as the code has it. [renderHiddenInstances] sets the visibility of
    an element to ['hidden'], and leaves its class list, exactly when it is
    the element of a segment for whose instance id the read
    [hiddenInstances[id]] is truthy: the id is an own key with a truthy
    value, or it is no own key and names a property that the object
    inherits; every other element stays as it was.
    [unrenderHiddenInstances] sets the visibility of the same elements to
    ['']; without [hiddenInstances] neither changes anything. Both return
    when every segment has an event instance and every hidden segment an
    element. *)
Theorem hiddenInstances_visibility (segs : list loc)
    (hiddenInstances : option (gmap string JsVal)) (w : World) :
  let props := {| HiddenProps.segs := segs;
                  HiddenProps.hiddenInstances := hiddenInstances |} in
  (hiddenInstances = None →
   renderHiddenInstances props w = Ok (props, w)
   ∧ unrenderHiddenInstances props w = Ok (tt, w))
  ∧ ∀ hidden, hiddenInstances = Some hidden →
      (hideable hidden (segStore w) segs →
       (∃ w', renderHiddenInstances props w = Ok (props, w'))
       ∧ (∃ w', unrenderHiddenInstances props w = Ok (tt, w')))
      ∧ (∀ p w', renderHiddenInstances props w = Ok (p, w') →
           p = props ∧ segStore w' = segStore w ∧ calls w' = calls w
           ∧ ∀ e,
               (hidden_el hidden (segStore w) segs e →
                elStore w' e = set_visibility "hidden" (elStore w e)
                ∧ visibility (elStore w' e) = "hidden"
                ∧ classList (elStore w' e) = classList (elStore w e))
               ∧ (¬ hidden_el hidden (segStore w) segs e →
                  elStore w' e = elStore w e))
      ∧ (∀ w', unrenderHiddenInstances props w = Ok (tt, w') →
           segStore w' = segStore w ∧ calls w' = calls w
           ∧ ∀ e,
               (hidden_el hidden (segStore w) segs e →
                elStore w' e = set_visibility "" (elStore w e)
                ∧ visibility (elStore w' e) = ""
                ∧ classList (elStore w' e) = classList (elStore w e))
               ∧ (¬ hidden_el hidden (segStore w) segs e →
                  elStore w' e = elStore w e))
      ∧ (∀ l inst,
           l ∈ segs → instance (eventRange (segStore w l)) = Some inst →
           (is_hidden hidden (segStore w l)
            ↔ (∃ v, hidden !! instanceId inst = Some v ∧ truthy v = true)
              ∨ (hidden !! instanceId inst = None
                 ∧ instanceId inst ∈ Object_prototype_names))).
Proof.
  intros props. split.
  - intros ->. done.
  - intros hidden ->.
    unfold renderHiddenInstances, unrenderHiddenInstances. simpl.
    unfold mbind, StateRes_bind. split; [|split; [|split]].
    + intros Hok.
      destruct (hiddenInstances_loop_returns "hidden" segs hidden w Hok)
        as [w1 ->].
      destruct (hiddenInstances_loop_returns "" segs hidden w Hok) as [w2 ->].
      split; by eexists.
    + intros p w' Hrun.
      destruct (hiddenInstances_loop "hidden" segs hidden w)
        as [[[] w1]|] eqn:Hloop; [|done].
      injection Hrun as <- <-. split; [done|].
      apply hiddenInstances_loop_ok in Hloop as (Hsegs & Hcalls & Hels).
      split; [done|]. split; [done|]. intros e.
      destruct (Hels e) as [Hyes Hno]. split; [|done].
      intros He. by rewrite (Hyes He).
    + intros w' Hrun.
      apply hiddenInstances_loop_ok in Hrun as (Hsegs & Hcalls & Hels).
      split; [done|]. split; [done|]. intros e.
      destruct (Hels e) as [Hyes Hno]. split; [|done].
      intros He. by rewrite (Hyes He).
    + intros l inst _ Hinst. unfold is_hidden, reads_truthy. rewrite Hinst.
      split; [by intros (? & [= <-] & ?) | intros ?; by exists inst].
Qed.

(** The claim C5 fails for an instance id that names a property every
    object inherits: [hiddenInstances] has no key at all, and the element
    of the segment is hidden. *)
Lemma renderHiddenInstances_inherited_counterexample :
  let props := {| HiddenProps.segs := [0%nat];
                  HiddenProps.hiddenInstances := Some ∅ |} in
  ∃ inst w',
    instance (eventRange (segStore Sample2.constructor_world 0%nat)) = Some inst
    ∧ instanceId inst = "constructor"
    ∧ (∅ : gmap string JsVal) !! instanceId inst = None
    ∧ el (segStore Sample2.constructor_world 0%nat) = Some 10%nat
    ∧ visibility (elStore Sample2.constructor_world 10%nat) = ""
    ∧ renderHiddenInstances props Sample2.constructor_world = Ok (props, w')
    ∧ visibility (elStore w' 10%nat) = "hidden".
Proof.
  intros props. eexists _, _.
  split; [reflexivity|]. split; [reflexivity|]. split; [reflexivity|].
  split; [reflexivity|]. split; [reflexivity|].
  split; [by vm_compute | reflexivity].
Qed.

(** ** The selected instance *)

Lemma selected_el_targeted id store segs e :
  targeted (λ seg, Ok (is_selected id seg)) store segs e
  ↔ selected_el id store segs e.
Proof.
  unfold targeted, selected_el, is_selected. split.
  - intros (l & Hl & [= Ht] & He).
    destruct (instance (eventRange (store l))) as [inst|] eqn:Hinst; [|done].
    apply andb_prop in Ht as [Hid%bool_decide_eq_true _].
    exists l, inst. by repeat split.
  - intros (l & inst & Hl & Hinst & Hid & He). exists l.
    rewrite Hinst, He, Hid. split; [done|]. split; [|done].
    f_equal. apply andb_true_intro.
    split; apply bool_decide_eq_true_2; [done | by eexists].
Qed.

Lemma seg_el_targeted store segs e :
  targeted (λ seg, Ok (bool_decide (is_Some (el seg)))) store segs e
  ↔ seg_el store segs e.
Proof.
  unfold targeted, seg_el. split.
  - intros (l & Hl & _ & He). by exists l.
  - intros (l & Hl & He). exists l. rewrite He.
    split; [done|]. split; [|done]. by rewrite bool_decide_eq_true_2.
Qed.

Lemma classList_add_idempotent token x :
  classList_add token (classList_add token x) = classList_add token x.
Proof.
  unfold classList_add. simpl. f_equal.
  destruct (bool_decide (token ∈ classList x)) eqn:Hin.
  - by rewrite Hin.
  - rewrite bool_decide_eq_true_2; [done|].
    apply elem_of_app. right. apply list_elem_of_here.
Qed.

Lemma classList_remove_idempotent token x :
  classList_remove token (classList_remove token x) = classList_remove token x.
Proof.
  unfold classList_remove. simpl. f_equal.
  induction (classList x) as [|t ts IH]; [done|].
  rewrite filter_cons. case_decide; [|done].
  rewrite filter_cons. case_decide; [|done]. by rewrite IH.
Qed.

Lemma elem_of_classList_add token x : token ∈ classList (classList_add token x).
Proof.
  unfold classList_add. simpl. case_bool_decide; [done|].
  apply elem_of_app. right. apply list_elem_of_here.
Qed.

Lemma not_elem_of_classList_remove token x :
  token ∉ classList (classList_remove token x).
Proof.
  unfold classList_remove. simpl. rewrite list_elem_of_filter. tauto.
Qed.

Lemma selected_loop_els id segs w :
  for_of segs (λ l,
    read_seg l ≫= λ seg,
    if is_selected id seg then update_el seg (classList_add "fc-selected")
    else mret tt) w
  = els_loop (λ seg, Ok (is_selected id seg)) (classList_add "fc-selected") segs w.
Proof. apply for_of_ext. intros l s. reflexivity. Qed.

Lemma unselected_loop_els segs w :
  for_of segs (λ l,
    read_seg l ≫= λ seg,
    if bool_decide (is_Some (el seg))
    then update_el seg (classList_remove "fc-selected")
    else mret tt) w
  = els_loop (λ seg, Ok (bool_decide (is_Some (el seg))))
      (classList_remove "fc-selected") segs w.
Proof. apply for_of_ext. intros l s. reflexivity. Qed.

Lemma selected_passable id store segs :
  passable (λ seg, Ok (is_selected id seg)) store segs.
Proof.
  intros l _. eexists. split; [done|]. unfold is_selected.
  destruct (instance (eventRange (store l))); [|done].
  intros [_ Hel%bool_decide_eq_true]%andb_prop. done.
Qed.

Lemma seg_el_passable store segs :
  passable (λ seg, Ok (bool_decide (is_Some (el seg)))) store segs.
Proof.
  intros l _. eexists. split; [done|]. by intros ?%bool_decide_eq_true.
Qed.

(** C4, as the code has it. With a truthy [instanceId],
    [renderSelectedInstance] adds ['fc-selected'] to an element exactly
    when it is the element of a segment whose event instance exists and
    has that id, and [unrenderSelectedInstance] removes ['fc-selected']
    from the element of every segment that has one; with a falsy
    [instanceId] neither function changes anything. Neither throws. *)
Theorem selectedInstance_class (segs : list loc) (instanceId : option string)
    (w : World) :
  let props := {| SelectedProps.segs := segs;
                  SelectedProps.instanceId := instanceId |} in
  ∃ w1 w2,
    renderSelectedInstance props w = Ok (props, w1)
    ∧ unrenderSelectedInstance props w = Ok (tt, w2)
    ∧ segStore w1 = segStore w ∧ calls w1 = calls w
    ∧ segStore w2 = segStore w ∧ calls w2 = calls w
    ∧ (str_truthy instanceId = false → w1 = w ∧ w2 = w)
    ∧ ∀ id, instanceId = Some id → id ≠ "" → ∀ e,
        (selected_el id (segStore w) segs e →
         elStore w1 e = classList_add "fc-selected" (elStore w e)
         ∧ "fc-selected" ∈ classList (elStore w1 e))
        ∧ (¬ selected_el id (segStore w) segs e → elStore w1 e = elStore w e)
        ∧ (seg_el (segStore w) segs e →
           elStore w2 e = classList_remove "fc-selected" (elStore w e)
           ∧ "fc-selected" ∉ classList (elStore w2 e))
        ∧ (¬ seg_el (segStore w) segs e → elStore w2 e = elStore w e).
Proof.
  intros props. unfold renderSelectedInstance, unrenderSelectedInstance.
  simpl. destruct (str_truthy instanceId) eqn:Htruthy.
  - destruct instanceId as [id|]; [|done]. simpl.
    unfold mbind at 1, StateRes_bind at 1.
    rewrite selected_loop_els, unselected_loop_els.
    destruct (els_loop_passable _ (classList_add "fc-selected") segs w
                (selected_passable id (segStore w) segs)) as [w1 Hw1].
    destruct (els_loop_passable _ (classList_remove "fc-selected") segs w
                (seg_el_passable (segStore w) segs)) as [w2 Hw2].
    rewrite Hw1, Hw2. exists w1, w2.
    apply els_loop_ok in Hw1 as (Hs1 & Hc1 & _ & He1);
      [|apply classList_add_idempotent].
    apply els_loop_ok in Hw2 as (Hs2 & Hc2 & _ & He2);
      [|apply classList_remove_idempotent].
    repeat (split; [done|]). intros id' [= <-] _ e.
    destruct (He1 e) as [Hadd Hkeep1]. destruct (He2 e) as [Hrem Hkeep2].
    rewrite selected_el_targeted in Hadd, Hkeep1.
    rewrite seg_el_targeted in Hrem, Hkeep2.
    split; [|split; [done|split; [|done]]].
    + intros Hsel. rewrite Hadd by done.
      split; [done | apply elem_of_classList_add].
    + intros Hel. rewrite Hrem by done.
      split; [done | apply not_elem_of_classList_remove].
  - exists w, w. repeat (split; [done|]).
    intros id -> Hid. simpl in Htruthy.
    apply negb_false_iff, String.eqb_eq in Htruthy. done.
Qed.

(** The claim C4 fails for [unrenderSelectedInstance] with a falsy
    [instanceId]: segment 0 has the element 10, which has ['fc-selected']
    before the call and keeps it. *)
Lemma unrenderSelectedInstance_falsy_counterexample :
  unrenderSelectedInstance
    {| SelectedProps.segs := [0%nat]; SelectedProps.instanceId := None |}
    Sample.world0
  = Ok (tt, Sample.world0)
  ∧ el (segStore Sample.world0 0%nat) = Some 10%nat
  ∧ "fc-selected" ∈ classList (elStore Sample.world0 10%nat).
Proof.
  split; [reflexivity|]. split; [reflexivity|].
  apply list_elem_of_further, list_elem_of_here.
Qed.

(** ** Rendering the segment elements *)

Lemma string_app_nil_r (s : string) : s +:+ "" = s.
Proof. induction s as [|c s IH]; [done|]. cbv [String.append] in *. by f_equal. Qed.

Lemma string_app_assoc (s1 s2 s3 : string) :
  (s1 +:+ s2) +:+ s3 = s1 +:+ (s2 +:+ s3).
Proof.
  induction s1 as [|c s1 IH]; [done|].
  change (String c (s1 +:+ s2 +:+ s3)) with (String c s1 +:+ s2 +:+ s3).
  change ((String c s1 +:+ s2) +:+ s3) with (String c ((s1 +:+ s2) +:+ s3)).
  by rewrite IH.
Qed.

Lemma foldl_string_app {A} (f : A → string) (acc : string) (xs : list A) :
  foldl (λ acc x, acc +:+ f x) acc xs = acc +:+ concat_html (map f xs).
Proof.
  revert acc. induction xs as [|x xs IH]; intros acc; simpl.
  - by rewrite string_app_nil_r.
  - by rewrite IH, string_app_assoc.
Qed.

Lemma every_el_has_seg_length segs els :
  (length els ≤ length segs)%nat → every_el_has_seg segs els = true.
Proof.
  revert segs. induction els as [|el els IH]; intros segs Hlen; [done|].
  destruct segs as [|l segs]; simpl in *; [lia|]. apply IH. lia.
Qed.

Lemma assign_els_other segs els store l :
  l ∉ segs → assign_els segs els store l = store l.
Proof.
  revert els store. induction segs as [|l0 segs IH]; intros els store Hl.
  - by destruct els.
  - apply not_elem_of_cons in Hl as [Hne Hl].
    destruct els as [|[e|] els]; simpl; [done| |by apply IH].
    rewrite IH by done. by rewrite fn_lookup_insert_ne.
Qed.

Lemma assign_els_lookup segs els store i l :
  NoDup segs → segs !! i = Some l →
  assign_els segs els store l
  = match els !! i with
    | Some (Some e) => set_el e (store l)
    | _ => store l
    end.
Proof.
  revert els store i. induction segs as [|l0 segs IH]; intros els store i Hnd Hi.
  - done.
  - pose proof (NoDup_cons_1_1 _ _ Hnd) as Hl0.
    apply NoDup_cons_1_2 in Hnd. destruct i as [|i]; simpl in Hi.
    + injection Hi as ->. destruct els as [|[e|] els]; simpl; [done| |].
      * rewrite assign_els_other by done. apply fn_lookup_insert.
      * by apply assign_els_other.
    + assert (l0 ≠ l) as Hne.
      { intros ->. apply Hl0. by eapply list_elem_of_lookup_2. }
      destruct els as [|[e|] els]; simpl.
      * done.
      * rewrite (IH els _ i) by done. by rewrite fn_lookup_insert_ne.
      * by apply IH.
Qed.

Section RenderSegEls.
Context `{Datelib} `{!DomManip} `{!EventRendering} `{!SegMethods}.
Context (this : FgEventRenderer) (segs : list loc)
  (mirrorInfo : option MirrorInfo).

Lemma html_loop rest i acc w :
  drop i segs = rest →
  for_upto (length rest) i (λ i html,
    match segs !! i with
    | Some l =>
        read_seg l ≫= λ seg,
        call (CallRenderSegHtml l mirrorInfo)
          (mret (html +:+ renderSegHtml this seg mirrorInfo))
    | None => throw TypeError
    end) acc w
  = Ok (acc +:+ segs_html this (segStore w) rest mirrorInfo,
        log_calls (map (λ l, CallRenderSegHtml l mirrorInfo) rest) w).
Proof.
  revert i acc w. induction rest as [|l rest IH]; intros i acc w Hdrop.
  - simpl. unfold mret, StateRes_ret, segs_html, log_calls. simpl.
    rewrite string_app_nil_r, app_nil_r. by destruct w.
  - assert (Hl : segs !! i = Some l).
    { rewrite <- (Nat.add_0_r i), <- lookup_drop, Hdrop. done. }
    assert (Hrest : drop (S i) segs = rest).
    { replace (S i) with (i + 1)%nat by lia.
      by rewrite <- drop_drop, Hdrop. }
    cbn [length for_upto]. unfold mbind at 1, StateRes_bind at 1.
    rewrite Hl. unfold mbind at 1, StateRes_bind at 1, read_seg at 1.
    unfold call, outside, modify, mret, StateRes_ret.
    unfold mbind at 1, StateRes_bind at 1. cbn [segStore elStore calls log_call].
    rewrite (IH (S i)) by done.
    unfold segs_html, log_calls. cbn [segStore elStore calls map concat_html foldr].
    rewrite string_app_assoc, <- app_assoc. done.
Qed.

Lemma assign_loop els i w :
  forEach_from i els (λ el i,
    let seg := segs !! i in
    match el with
    | Some e =>
        match seg with
        | Some l => modify (set_segStore (λ st, <[l := set_el e (st l)]> st))
        | None => throw TypeError
        end
    | None => mret tt
    end) w
  = if every_el_has_seg (drop i segs) els then
      Ok (tt, {| segStore := assign_els (drop i segs) els (segStore w);
                 elStore := elStore w;
                 calls := calls w |})
    else Throw TypeError.
Proof.
  revert i w. induction els as [|el els IH]; intros i w.
  - simpl. destruct w, (drop i segs); done.
  - cbn [forEach_from]. unfold mbind at 1, StateRes_bind at 1.
    destruct (segs !! i) as [l|] eqn:Hl.
    + rewrite (drop_S _ _ _ Hl).
      destruct el as [e|]; simpl; by rewrite IH.
    + rewrite (drop_ge segs i) by (by apply lookup_ge_None).
      destruct el as [e|]; simpl; [done|].
      rewrite IH. rewrite (drop_ge segs (S i)); [done|].
      apply lookup_ge_None in Hl. lia.
Qed.

End RenderSegEls.

Lemma bind_Ok {St A B} (m : StateRes St A) (f : A → StateRes St B) s a s' :
  m s = Ok (a, s') → (m ≫= f) s = f a s'.
Proof. unfold mbind, StateRes_bind. by intros ->. Qed.

Lemma bind_Throw {St A B} (m : StateRes St A) (f : A → StateRes St B) s e :
  m s = Throw e → (m ≫= f) s = Throw e.
Proof. unfold mbind, StateRes_bind. by intros ->. Qed.

Section RenderSegElsSteps.
Context `{Datelib} `{!DomManip} `{!EventRendering} `{!SegMethods}.

(** C2. For an empty list [renderSegEls] returns the list, and nothing is
    called and nothing changes. For a non-empty list it asks
    [renderSegHtml] for every segment in the order of the list, parses the
    concatenation of the answers, makes the i-th parsed element that is not
    null the [el] of the i-th segment (the other fields of the segment
    stay), and returns what [filterSegsViaEls] returns for the segments so
    changed. It returns like
    [filterSegsViaEls] when every parsed element that is not null has a
    segment at its index, as when no more elements than segments are
    parsed; with an element beyond the last segment the assignment throws
    a [TypeError]. *)
Theorem renderSegEls_steps (this : FgEventRenderer) (segs : list loc)
    (mirrorInfo : option MirrorInfo) (w : World) :
  let html := segs_html this (segStore w) segs mirrorInfo in
  let els := (htmlToElements html (elStore w)).1 in
  let assigned :=
    {| segStore := assign_els segs els (segStore w);
       elStore := (htmlToElements html (elStore w)).2;
       calls := calls w
                ++ map (λ l, CallRenderSegHtml l mirrorInfo) segs
                ++ [ CallHtmlToElements html;
                     CallFilterSegsViaEls segs (Boolean_of mirrorInfo) ] |} in
  (segs = [] → renderSegEls this segs mirrorInfo w = Ok (segs, w))
  ∧ (segs ≠ [] → ∀ res w',
     renderSegEls this segs mirrorInfo w = Ok (res, w') →
     every_el_has_seg segs els = true
     ∧ outside (filterSegsViaEls (context this) segs (Boolean_of mirrorInfo))
         assigned
       = Ok (res, w'))
  ∧ (segs ≠ [] → every_el_has_seg segs els = true →
     renderSegEls this segs mirrorInfo w
     = outside (filterSegsViaEls (context this) segs (Boolean_of mirrorInfo))
         assigned)
  ∧ (segs ≠ [] → every_el_has_seg segs els = false →
     renderSegEls this segs mirrorInfo w = Throw TypeError)
  ∧ ((length els ≤ length segs)%nat → every_el_has_seg segs els = true)
  ∧ (NoDup segs → ∀ i l, segs !! i = Some l →
     segStore assigned l
     = match els !! i with
       | Some (Some e) => set_el e (segStore w l)
       | _ => segStore w l
       end)
  ∧ (NoDup segs → ∀ i l e, segs !! i = Some l → els !! i = Some (Some e) →
     el (segStore assigned l) = Some e
     ∧ isStart (segStore assigned l) = isStart (segStore w l)
     ∧ isEnd (segStore assigned l) = isEnd (segStore w l)
     ∧ eventRange (segStore assigned l) = eventRange (segStore w l))
  ∧ (∀ l, l ∉ segs → segStore assigned l = segStore w l).
Proof.
  intros html els assigned.
  split; [by intros ->|].
  assert (Hrun : segs ≠ [] →
    renderSegEls this segs mirrorInfo w
    = if every_el_has_seg segs els then
        outside (filterSegsViaEls (context this) segs (Boolean_of mirrorInfo))
          assigned
      else Throw TypeError).
  { intros Hne. subst els assigned. unfold renderSegEls.
    rewrite bool_decide_eq_true_2 by (by destruct segs).
    erewrite bind_Ok; [|by apply (html_loop this segs mirrorInfo segs 0)].
    change ("" +:+ segs_html this (segStore w) segs mirrorInfo) with html.
    destruct (htmlToElements html (elStore w)) as [els' st] eqn:Hparse.
    cbn [fst snd].
    erewrite bind_Ok; cycle 1.
    { unfold call, outside, modify, mbind, StateRes_bind.
      cbn [log_calls log_call segStore elStore calls heap_els heap_segs].
      rewrite Hparse. reflexivity. }
    cbn [heap_els heap_segs].
    pose proof (assign_loop segs els' 0
      {| segStore := segStore w; elStore := st;
         calls := (calls w ++ map (λ l, CallRenderSegHtml l mirrorInfo) segs)
                  ++ [CallHtmlToElements html] |}) as Hassign.
    rewrite drop_0 in Hassign. cbn [segStore elStore calls] in Hassign.
    destruct (every_el_has_seg segs els').
    - erewrite bind_Ok; [|exact Hassign].
      unfold call, outside, modify, mbind, StateRes_bind.
      cbn [log_call segStore elStore calls].
      rewrite <- !app_assoc. reflexivity.
    - erewrite bind_Throw; [done | exact Hassign]. }
  split.
  { intros Hne res w' Hres. rewrite Hrun in Hres by done.
    by destruct (every_el_has_seg segs els). }
  split; [intros Hne Hfit; by rewrite Hrun, Hfit|].
  split; [intros Hne Hfit; by rewrite Hrun, Hfit|].
  split; [apply every_el_has_seg_length|].
  split; [intros Hnd i l Hi; by apply assign_els_lookup|].
  split; [|intros l Hl; by apply assign_els_other].
  intros Hnd i l e Hi He. subst assigned. cbn [segStore].
  rewrite (assign_els_lookup _ _ _ i) by done. by rewrite He.
Qed.

End RenderSegElsSteps.

(** ** The size-dirty flag *)

Lemma bind_inv {St A B} (m : StateRes St A) (f : A → StateRes St B) s b s' :
  (m ≫= f) s = Ok (b, s') → ∃ a s1, m s = Ok (a, s1) ∧ f a s1 = Ok (b, s').
Proof.
  unfold mbind, StateRes_bind. destruct (m s) as [[a s1]|]; [|done].
  intros Hf. by exists a, s1.
Qed.

Section Sizing.
Context `{Datelib} `{!DomManip} `{!EventRendering} `{!SegMethods}.
Context `{ViewFrameworkState} `{!ViewFramework} `{!ComputedDefaults}.

(** A sizing hook, called through [call]: the renderer's fields stay, and
    the call is recorded. *)
Lemma hook_call_inv (c : Call) (hook : StateRes Heap unit) (s s' : State) :
  lift_world (call c hook) s = Ok (tt, s') →
  this s' = this s ∧ framework s' = framework s
  ∧ calls (world s') = calls (world s) ++ [c]
  ∧ hook {| heap_segs := segStore (world s); heap_els := elStore (world s) |}
    = Ok (tt, {| heap_segs := segStore (world s');
                 heap_els := elStore (world s') |}).
Proof.
  unfold lift_world, call, outside, modify, mbind, StateRes_bind. simpl.
  destruct (hook _) as [[[] h]|]; [|done].
  intros [= <-]. simpl. by destruct h.
Qed.

Lemma hook_call_returns (c : Call) (hook : StateRes Heap unit) (s : State) h' :
  hook {| heap_segs := segStore (world s); heap_els := elStore (world s) |}
  = Ok (tt, h') →
  ∃ s', lift_world (call c hook) s = Ok (tt, s').
Proof.
  intros Hhook.
  unfold lift_world, call, outside, modify, mbind, StateRes_bind. simpl.
  rewrite Hhook. by eexists.
Qed.

Lemma lift_world_call (c : Call) (hook : StateRes Heap unit) (s : State) :
  lift_world (call c hook) s = through_hook c hook (λ s', Ok (tt, s')) s.
Proof.
  unfold lift_world, call, outside, modify, mbind, StateRes_bind, through_hook.
  unfold with_world, world_after, heap_of. simpl.
  by destruct (hook _) as [[[] h]|].
Qed.

Lemma computeSizes_run (force : bool) (userComponent : JsVal) (s : State) :
  computeSizes force userComponent s
  = if force || isSizeDirty (this s) then
      through_hook (CallComputeSegSizes (segs (this s)) userComponent)
        (computeSegSizes (segs (this s)) userComponent)
        (λ s', Ok (tt, s')) s
    else Ok (tt, s).
Proof.
  unfold computeSizes, mbind, StateRes_bind, get.
  destruct (force || isSizeDirty (this s)); [apply lift_world_call | done].
Qed.

Lemma assignSizes_run (force : bool) (userComponent : JsVal) (s : State) :
  assignSizes force userComponent s
  = if force || isSizeDirty (this s) then
      through_hook (CallAssignSegSizes (segs (this s)) userComponent)
        (assignSegSizes (segs (this s)) userComponent)
        (λ s', Ok (tt, with_this (set_isSizeDirty false (this s')) s')) s
    else Ok (tt, with_this (set_isSizeDirty false (this s)) s).
Proof.
  unfold assignSizes. unfold mbind at 1, StateRes_bind at 1, get.
  destruct (force || isSizeDirty (this s)); [|done].
  unfold mbind, StateRes_bind. rewrite lift_world_call. unfold through_hook.
  by destruct (assignSegSizes _ _ _) as [[[] h]|].
Qed.

(** The steps of [renderSegs]: the four wrapped functions, one after the
    other, then the two fields. *)
Lemma renderSegs_inv (props : Props.t) (s : State) r s' :
  renderSegs props s = Ok (r, s') ↔
  ∃ s1 plain s2 sel s3 hid s4,
    updateComputedOptions (options (context (this s))) s = Ok (tt, s1)
    ∧ renderSegsPlain
        {| PlainProps.segs := Props.segs props;
           PlainProps.mirrorInfo := Props.mirrorInfo props |} s1
      = Ok (plain, s2)
    ∧ renderSelectedInstance_sub
        {| SelectedProps.segs := PlainResult.segs plain;
           SelectedProps.instanceId := Props.selectedInstanceId props |} s2
      = Ok (sel, s3)
    ∧ renderHiddenInstances_sub
        {| HiddenProps.segs := PlainResult.segs plain;
           HiddenProps.hiddenInstances := Props.hiddenInstances props |} s3
      = Ok (hid, s4)
    ∧ r = PlainResult.segs plain
    ∧ s' = with_this
             (set_isSizeDirty true (set_segs (PlainResult.segs plain) (this s4)))
             s4.
Proof.
  unfold renderSegs. split.
  - intros Hrun.
    apply bind_inv in Hrun as (s0 & s0' & [= <- <-] & Hrun).
    apply bind_inv in Hrun as ([] & s1 & Hs1 & Hrun).
    apply bind_inv in Hrun as (plain & s2 & Hs2 & Hrun).
    apply bind_inv in Hrun as (sel & s3 & Hs3 & Hrun).
    apply bind_inv in Hrun as (hid & s4 & Hs4 & Hrun).
    injection Hrun as <- <-.
    by exists s1, plain, s2, sel, s3, hid, s4.
  - intros (s1 & plain & s2 & sel & s3 & hid & s4
            & Hs1 & Hs2 & Hs3 & Hs4 & -> & ->).
    erewrite bind_Ok by reflexivity.
    erewrite bind_Ok by exact Hs1.
    erewrite bind_Ok by exact Hs2.
    erewrite bind_Ok by exact Hs3.
    erewrite bind_Ok by exact Hs4.
    reflexivity.
Qed.

(** C9. [renderSegs] returns exactly when the four wrapped functions it
    calls return one after the other, and then [isSizeDirty] is true (and
    [segs] holds what it returned). [computeSizes] calls [computeSegSizes],
    once, on the stores as they are, exactly when [force] or [isSizeDirty]
    is true: what the hook leaves is the world after the call, what it
    throws is thrown on, and the renderer's fields stay as they were;
    otherwise nothing changes. [assignSizes] calls [assignSegSizes] in the
    same way under the same condition, and when it returns [isSizeDirty]
    is false whatever [force] is. Both return exactly when the hook they
    call does. *)
Theorem size_dirty_flag (props : Props.t) (force : bool) (userComponent : JsVal)
    (s : State) :
  let needed := force || isSizeDirty (this s) in
  let heap := {| heap_segs := segStore (world s);
                 heap_els := elStore (world s) |} in
  let compute := computeSegSizes (segs (this s)) userComponent in
  let assign := assignSegSizes (segs (this s)) userComponent in
  (∀ r s', renderSegs props s = Ok (r, s') →
     isSizeDirty (this s') = true ∧ segs (this s') = r)
  ∧ (∀ r s', renderSegs props s = Ok (r, s') ↔
     ∃ s1 plain s2 sel s3 hid s4,
       updateComputedOptions (options (context (this s))) s = Ok (tt, s1)
       ∧ renderSegsPlain
           {| PlainProps.segs := Props.segs props;
              PlainProps.mirrorInfo := Props.mirrorInfo props |} s1
         = Ok (plain, s2)
       ∧ renderSelectedInstance_sub
           {| SelectedProps.segs := PlainResult.segs plain;
              SelectedProps.instanceId := Props.selectedInstanceId props |} s2
         = Ok (sel, s3)
       ∧ renderHiddenInstances_sub
           {| HiddenProps.segs := PlainResult.segs plain;
              HiddenProps.hiddenInstances := Props.hiddenInstances props |} s3
         = Ok (hid, s4)
       ∧ r = PlainResult.segs plain
       ∧ s' = with_this
                (set_isSizeDirty true
                   (set_segs (PlainResult.segs plain) (this s4)))
                s4)
  ∧ (∀ s', computeSizes force userComponent s = Ok (tt, s') →
       this s' = this s
       ∧ framework s' = framework s
       ∧ calls (world s')
         = calls (world s)
           ++ (if needed
               then [CallComputeSegSizes (segs (this s)) userComponent]
               else [])
       ∧ (needed = true →
          compute heap
          = Ok (tt, {| heap_segs := segStore (world s');
                       heap_els := elStore (world s') |}))
       ∧ (needed = false → s' = s))
  ∧ (∀ s', assignSizes force userComponent s = Ok (tt, s') →
       this s' = set_isSizeDirty false (this s)
       ∧ framework s' = framework s
       ∧ isSizeDirty (this s') = false
       ∧ calls (world s')
         = calls (world s)
           ++ (if needed
               then [CallAssignSegSizes (segs (this s)) userComponent]
               else [])
       ∧ (needed = true →
          assign heap
          = Ok (tt, {| heap_segs := segStore (world s');
                       heap_els := elStore (world s') |}))
       ∧ (needed = false → world s' = world s))
  ∧ (needed = true →
     ((∃ s', computeSizes force userComponent s = Ok (tt, s'))
      ↔ ∃ h', compute heap = Ok (tt, h'))
     ∧ (∀ e, computeSizes force userComponent s = Throw e
             ↔ compute heap = Throw e)
     ∧ ((∃ s', assignSizes force userComponent s = Ok (tt, s'))
        ↔ ∃ h', assign heap = Ok (tt, h'))
     ∧ (∀ e, assignSizes force userComponent s = Throw e
             ↔ assign heap = Throw e))
  ∧ (needed = false →
     computeSizes force userComponent s = Ok (tt, s)
     ∧ assignSizes force userComponent s
       = Ok (tt, with_this (set_isSizeDirty false (this s)) s)).
Proof.
  intros needed heap compute assign.
  pose proof (computeSizes_run force userComponent s) as Hcompute.
  pose proof (assignSizes_run force userComponent s) as Hassign.
  fold needed in Hcompute, Hassign.
  unfold through_hook, heap_of in Hcompute, Hassign.
  fold heap compute in Hcompute. fold heap assign in Hassign.
  split; [|split; [|split; [|split; [|split]]]].
  - intros r s' Hrun.
    apply renderSegs_inv in Hrun
      as (s1 & plain & s2 & sel & s3 & hid & s4 & _ & _ & _ & _ & -> & ->).
    done.
  - intros r s'. apply renderSegs_inv.
  - intros s' Hrun. rewrite Hcompute in Hrun. destruct needed.
    + destruct (compute heap) as [[[] [hs he]]|]; [|done].
      injection Hrun as <-. done.
    + injection Hrun as <-. by rewrite app_nil_r.
  - intros s' Hrun. rewrite Hassign in Hrun. destruct needed.
    + destruct (assign heap) as [[[] [hs he]]|]; [|done].
      injection Hrun as <-. done.
    + injection Hrun as <-. simpl. by rewrite app_nil_r.
  - intros Hneeded. rewrite Hneeded in Hcompute, Hassign.
    rewrite Hcompute, Hassign.
    destruct (compute heap) as [[[] h1]|e1], (assign heap) as [[[] h2]|e2];
      repeat split;
      try (intros [? [=]]); try (intros [=]); try congruence; eauto.
  - intros Hneeded. by rewrite Hneeded in Hcompute, Hassign.
Qed.

End Sizing.

(** ** The theorems at the sample values *)

Lemma res_map_Ok_elem {A B} (f : A → Res B) (xs : list A) ys :
  res_map f xs = Ok ys → ∀ y, y ∈ ys → ∃ x, x ∈ xs ∧ f x = Ok y.
Proof.
  revert ys. induction xs as [|x0 xs IH]; intros ys Hrun y Hy.
  - injection Hrun as <-. by apply elem_of_nil in Hy.
  - simpl in Hrun. unfold mbind, Res_bind in Hrun.
    destruct (f x0) as [y0|] eqn:Hx0; [|done].
    destruct (res_map f xs) as [ys0|]; [|done].
    injection Hrun as <-.
    apply elem_of_cons in Hy as [->|Hy].
    + exists x0. split; [apply list_elem_of_here | done].
    + destruct (IH ys0 eq_refl y Hy) as (x & Hx & Hfx).
      exists x. split; [by apply list_elem_of_further | done].
Qed.

Lemma buildSegCompareObj_start (store : loc → Seg) (l : loc) obj :
  buildSegCompareObj store l = Ok obj → ∃ n, js_get obj "start" = JNum n.
Proof.
  unfold buildSegCompareObj.
  destruct (instance (eventRange (store l))) as [inst|]; [|done].
  intros [= <-]. eexists. unfold js_get. by simplify_map_eq.
Qed.

(** The comparator of the sample specs is consistent on objects that have
    a number in the field. *)
Lemma numeric_field_consistent (field : string)
    (objs : list (gmap string JsVal)) :
  (∀ o, o ∈ objs → ∃ n, js_get o field = JNum n) →
  consistent (λ a b, @compareByFieldSpecs Sample.misc a b field) objs.
Proof.
  intros Hnum. unfold consistent. simpl.
  split; [intros a [? ->]%Hnum; lia|].
  split; [intros a b [? ->]%Hnum [? ->]%Hnum; lia|].
  repeat split; intros a b c [? ->]%Hnum [? ->]%Hnum [? ->]%Hnum; lia.
Qed.

Lemma sortEventSegs_sorted_permutation_witness :
  @sortEventSegs Sample.misc Sample.arraySort Sample.store0 [0; 1; 2]%nat "start"
  = Ok (JRef <$> [1; 2; 0]%nat)
  ∧ ∃ objs,
      res_map (buildSegCompareObj Sample.store0) [1; 2; 0]%nat = Ok objs
      ∧ Sorted (in_order (λ a b, @compareByFieldSpecs Sample.misc a b "start"))
          objs.
Proof.
  assert (Hrun : @sortEventSegs Sample.misc Sample.arraySort Sample.store0
                   [0; 1; 2]%nat "start" = Ok (JRef <$> [1; 2; 0]%nat))
    by by vm_compute.
  split; [exact Hrun|].
  destruct (proj1 (@sortEventSegs_sorted_permutation Sample.misc
                     Sample.arraySort Sample.store0 [0; 1; 2]%nat "start"
                     insertion_sort_conforming) _ Hrun)
    as (sorted & objs & Heq & _ & Hobjs & _ & Hsorted).
  destruct sorted as [|a [|b [|c [|d sorted]]]]; try discriminate Heq.
  injection Heq as <- <- <-.
  exists objs. split; [exact Hobjs|].
  apply Hsorted, numeric_field_consistent. intros o Ho.
  destruct (res_map_Ok_elem _ _ _ Hobjs o Ho) as (l & _ & Hl).
  by eapply buildSegCompareObj_start.
Defined.

Lemma hiddenInstances_visibility_witness :
  ∃ w',
    renderHiddenInstances
      {| HiddenProps.segs := [0; 1]%nat;
         HiddenProps.hiddenInstances := Some {[ "a" := JBool true ]} |}
      Sample.world0
    = Ok ({| HiddenProps.segs := [0; 1]%nat;
             HiddenProps.hiddenInstances := Some {[ "a" := JBool true ]} |}, w')
    ∧ visibility (elStore w' 10%nat) = "hidden"
    ∧ classList (elStore w' 10%nat) = ["fc-event"; "fc-selected"]
    ∧ elStore w' 11%nat = Sample.element0.
Proof.
  destruct (proj2 (hiddenInstances_visibility [0; 1]%nat
                     (Some {[ "a" := JBool true ]}) Sample.world0)
              {[ "a" := JBool true ]} eq_refl)
    as (Hreturns & Hrender & _).
  destruct Hreturns as [[w' Hw'] _].
  - intros l Hl. split.
    + destruct l as [|[|l]]; by eexists.
    + intros _. apply elem_of_cons in Hl as [->|Hl]; [by eexists|].
      apply elem_of_cons in Hl as [->|Hl]; [by eexists|].
      by apply elem_of_nil in Hl.
  - exists w'. split; [exact Hw'|].
    destruct (Hrender _ _ Hw') as (_ & _ & _ & Hels).
    destruct (proj1 (Hels 10%nat)) as (_ & Hvisibility & HclassList).
    { exists 0%nat. split; [apply list_elem_of_here|]. split; [|reflexivity].
      eexists. split; [reflexivity|]. left. exists (JBool true).
      split; [apply lookup_singleton_eq | reflexivity]. }
    split; [exact Hvisibility|]. split; [exact HclassList|].
    apply (proj2 (Hels 11%nat)).
    intros (l & Hl & (inst & Hinst & Hreads) & Hel).
    apply elem_of_cons in Hl as [->|Hl].
    { discriminate Hel. }
    apply elem_of_cons in Hl as [->|Hl]; [|by apply elem_of_nil in Hl].
    injection Hinst as <-. apply truthy_js_get in Hreads.
    by vm_compute in Hreads.
Defined.

Lemma selectedInstance_class_witness :
  ∃ w1,
    renderSelectedInstance
      {| SelectedProps.segs := [0; 1]%nat;
         SelectedProps.instanceId := Some "b" |}
      Sample.world0
    = Ok ({| SelectedProps.segs := [0; 1]%nat;
             SelectedProps.instanceId := Some "b" |}, w1)
    ∧ "fc-selected" ∈ classList (elStore w1 11%nat).
Proof.
  destruct (selectedInstance_class [0; 1]%nat (Some "b") Sample.world0)
    as (w1 & w2 & Hrender & _ & _ & _ & _ & _ & _ & Hels).
  exists w1. split; [exact Hrender|].
  destruct (Hels "b" eq_refl) with (e := 11%nat) as [Hadd _]; [done|].
  apply Hadd. exists 1%nat. eexists.
  split; [apply list_elem_of_further, list_elem_of_here|].
  repeat split; reflexivity.
Defined.

Lemma renderSegEls_steps_witness :
  ∃ w',
    @renderSegEls Sample.datelib Sample.domManip Sample.eventRendering
      Sample.segMethods Sample.renderer [0; 2]%nat None Sample.world0
    = Ok ([0; 2]%nat, w')
    ∧ el (segStore w' 0%nat) = Some 100%nat
    ∧ el (segStore w' 2%nat) = Some 101%nat
    ∧ el (segStore w' 1%nat) = Some 11%nat
    ∧ calls w' = [ CallRenderSegHtml 0 None; CallRenderSegHtml 2 None;
                   CallHtmlToElements "<a></a><a></a>";
                   CallFilterSegsViaEls [0; 2]%nat false ].
Proof.
  pose proof (@renderSegEls_steps Sample.datelib Sample.domManip
                Sample.eventRendering Sample.segMethods Sample.renderer
                [0; 2]%nat None Sample.world0)
    as (_ & _ & Hrun & _ & _ & _ & Hel & _).
  assert (Hnd : NoDup [0; 2]%nat).
  { constructor; [intros [=]%list_elem_of_singleton | apply NoDup_singleton]. }
  eexists. split; [rewrite Hrun; [reflexivity | discriminate | reflexivity]|].
  split; [exact (proj1 (Hel Hnd 0%nat 0%nat 100%nat eq_refl eq_refl))|].
  split; [exact (proj1 (Hel Hnd 1%nat 2%nat 101%nat eq_refl eq_refl))|].
  split; reflexivity.
Defined.

(** A subclass that renders two elements for one segment: the second
    element has no segment, and the assignment throws. *)
Example renderSegEls_extra_element_throws :
  @renderSegEls Sample.datelib Sample.domManip Sample.eventRendering
    Sample.twoElements Sample.renderer [0%nat] None Sample.world0
  = Throw TypeError.
Proof. reflexivity. Qed.

Lemma size_dirty_flag_witness :
  let props := {| Props.segs := [0; 1]%nat; Props.mirrorInfo := None;
                  Props.selectedInstanceId := Some "a";
                  Props.hiddenInstances := None |} in
  (∃ r s',
     @renderSegs Sample.datelib Sample.domManip Sample.eventRendering
       Sample2.measuring Sample.viewFrameworkState Sample.viewFramework
       baseDefaults props Sample.state0
     = Ok (r, s')
     ∧ isSizeDirty (this s') = true)
  ∧ ∃ s2 s3,
      @computeSizes Sample.datelib Sample2.measuring Sample.viewFrameworkState
        false JUndefined Sample2.dirty_state = Ok (tt, s2)
      ∧ "computed" ∈ classList (elStore (world s2) 10%nat)
      ∧ isSizeDirty (this s2) = true
      ∧ @assignSizes Sample.datelib Sample2.measuring Sample.viewFrameworkState
          false JUndefined s2 = Ok (tt, s3)
      ∧ "assigned" ∈ classList (elStore (world s3) 10%nat)
      ∧ isSizeDirty (this s3) = false.
Proof.
  intros props. split.
  - eassert (Hrun : @renderSegs Sample.datelib Sample.domManip
                      Sample.eventRendering Sample2.measuring
                      Sample.viewFrameworkState Sample.viewFramework baseDefaults
                      props Sample.state0 = Ok (_, _))
      by (vm_compute; reflexivity).
    eexists _, _. split; [exact Hrun|].
    exact (proj1 (proj1 (@size_dirty_flag Sample.datelib Sample.domManip
                           Sample.eventRendering Sample2.measuring
                           Sample.viewFrameworkState Sample.viewFramework
                           baseDefaults props false JUndefined _) _ _ Hrun)).
  - pose proof (@size_dirty_flag Sample.datelib Sample.domManip
                  Sample.eventRendering Sample2.measuring
                  Sample.viewFrameworkState Sample.viewFramework baseDefaults
                  props false JUndefined Sample2.dirty_state)
      as (_ & _ & Hcompute & _ & Hreturns & _).
    destruct (proj2 (proj1 (Hreturns eq_refl))) as [s2 Hs2];
      [eexists; reflexivity|].
    destruct (Hcompute s2 Hs2) as (Hthis2 & _ & _ & Hhook2 & _).
    assert (Hneeded2 : false || isSizeDirty (this s2) = true).
    { rewrite Hthis2. reflexivity. }
    pose proof (@size_dirty_flag Sample.datelib Sample.domManip
                  Sample.eventRendering Sample2.measuring
                  Sample.viewFrameworkState Sample.viewFramework baseDefaults
                  props false JUndefined s2)
      as (_ & _ & _ & Hassign & Hreturns2 & _).
    destruct (proj2 (proj1 (proj2 (proj2 (Hreturns2 Hneeded2))))) as [s3 Hs3];
      [eexists; reflexivity|].
    destruct (Hassign s3 Hs3) as (_ & _ & Hclean & _ & Hhook3 & _).
    exists s2, s3.
    split; [exact Hs2|].
    injection (Hhook2 eq_refl) as _ Hels2.
    split; [rewrite <- Hels2, fn_lookup_insert; apply elem_of_classList_add|].
    split; [rewrite Hthis2; reflexivity|]. split; [exact Hs3|].
    injection (Hhook3 Hneeded2) as _ Hels3.
    split; [rewrite <- Hels3, fn_lookup_insert; apply elem_of_classList_add|].
    exact Hclean.
Defined.

(** * Further properties *)

(** ** Computed options and time text *)

Section ComputedOptions.
Context `{Datelib} `{!ComputedDefaults}.

(** The computed options are those of the last call: what an earlier
    call computed is forgotten, so a repeated call with the same options
    changes nothing; the context, the segments and the size-dirty flag are
    never touched. *)
Lemma updateComputedOptions_last_wins (this : FgEventRenderer)
    (options1 options2 : Options) :
  _updateComputedOptions (_updateComputedOptions this options1) options2
  = _updateComputedOptions this options2
  ∧ _updateComputedOptions (_updateComputedOptions this options2) options2
    = _updateComputedOptions this options2
  ∧ context (_updateComputedOptions this options2) = context this
  ∧ segs (_updateComputedOptions this options2) = segs this
  ∧ isSizeDirty (_updateComputedOptions this options2) = isSizeDirty this.
Proof. done. Qed.

(** X1. When the option [displayEventTime] is false, or is null and the
    subclass computes false, every time text is blank once the options are
    computed, whatever formatter and [displayEnd] the caller passes. *)
Theorem timeText_blank_when_option_off (this : FgEventRenderer)
    (options : Options) (eventRange : EventRenderRange) (inst : EventInstance)
    formatter displayEnd from till isAllDay tzo1 tzo2 :
  default computeDisplayEventTime (opt_displayEventTime options) = false →
  instance eventRange = Some inst →
  getTimeText (_updateComputedOptions this options) eventRange
    formatter displayEnd = Ok ""
  ∧ _getTimeText (_updateComputedOptions this options) from till isAllDay
      formatter displayEnd tzo1 tzo2 = "".
Proof.
  intros Hoff Hinst.
  assert (Hflag : displayEventTime (_updateComputedOptions this options) = false).
  { simpl. by destruct (opt_displayEventTime options). }
  split.
  - unfold getTimeText. rewrite Hinst. f_equal.
    apply _getTimeText_hidden. by left.
  - apply _getTimeText_hidden. by left.
Qed.

(** X2. [getTimeText] throws exactly when the event range has no instance,
    and then a [TypeError]; the settings and the all-day flag do not
    matter. *)
Theorem getTimeText_throws_without_instance (this : FgEventRenderer)
    (eventRange : EventRenderRange) formatter displayEnd :
  (instance eventRange = None ↔
   getTimeText this eventRange formatter displayEnd = Throw TypeError)
  ∧ (∀ e, getTimeText this eventRange formatter displayEnd = Throw e →
          e = TypeError ∧ instance eventRange = None)
  ∧ (is_Some (instance eventRange) ↔
     ∃ text, getTimeText this eventRange formatter displayEnd = Ok text).
Proof.
  unfold getTimeText. destruct (instance eventRange) as [inst|].
  - split; [split; discriminate|]. split; [discriminate|].
    split; [by eexists | by eexists].
  - split; [done|]. split; [by intros e [= <-]|].
    split; [by intros [? [=]] | by intros [? [=]]].
Qed.

End ComputedOptions.

Lemma timeText_blank_when_option_off_witness :
  getTimeText
    (@_updateComputedOptions Sample.datelib baseDefaults Sample.renderer
       {| opt_eventTimeFormat := None;
          opt_defaultRangeSeparator := JUndefined;
          opt_displayEventTime := Some false;
          opt_displayEventEnd := None |})
    (Sample.eventRange0 true false (Some "7") []) None None
  = Ok "".
Proof.
  apply (proj1 (@timeText_blank_when_option_off Sample.datelib baseDefaults
                  Sample.renderer
                  {| opt_eventTimeFormat := None;
                     opt_defaultRangeSeparator := JUndefined;
                     opt_displayEventTime := Some false;
                     opt_displayEventEnd := None |}
                  (Sample.eventRange0 true false (Some "7") [])
                  (Sample.eventInstance0 "7")
                  None None None None false None None eq_refl eq_refl)).
Defined.

Lemma getTimeText_throws_without_instance_witness :
  getTimeText Sample.renderer (Sample.eventRange0 true true None []) None None
  = Throw TypeError.
Proof.
  apply (proj1 (@getTimeText_throws_without_instance Sample.datelib
                  Sample.renderer _ None None)).
  reflexivity.
Defined.

(** ** More on rendering the segment elements *)

Lemma set_el_set_el e e0 seg : set_el e (set_el e0 seg) = set_el e seg.
Proof. done. Qed.

Lemma assign_els_fields segs els store l :
  isStart (assign_els segs els store l) = isStart (store l)
  ∧ isEnd (assign_els segs els store l) = isEnd (store l)
  ∧ eventRange (assign_els segs els store l) = eventRange (store l).
Proof.
  revert els store. induction segs as [|l0 segs IH]; intros els store.
  - by destruct els.
  - destruct els as [|[e|] els]; simpl; [done| |apply IH].
    destruct (IH els (<[l0 := set_el e (store l0)]> store)) as (-> & -> & ->).
    destruct (decide (l0 = l)) as [->|Hne].
    + by rewrite fn_lookup_insert.
    + by rewrite fn_lookup_insert_ne.
Qed.

Lemma assign_els_untouched segs els store l :
  (∀ j e, segs !! j = Some l → els !! j = Some (Some e) → False) →
  assign_els segs els store l = store l.
Proof.
  revert els store. induction segs as [|l0 segs IH]; intros els store Hno.
  - by destruct els.
  - destruct els as [|[e|] els]; simpl; [done| |].
    + assert (l0 ≠ l) as Hne by (intros ->; by apply (Hno 0%nat e)).
      rewrite IH; [by rewrite fn_lookup_insert_ne|].
      intros j e'. apply (Hno (S j) e').
    + apply IH. intros j e'. apply (Hno (S j) e').
Qed.

Lemma assign_els_last segs els store i l e :
  segs !! i = Some l → els !! i = Some (Some e) →
  (∀ j e', (i < j)%nat → segs !! j = Some l → els !! j = Some (Some e') →
           False) →
  assign_els segs els store l = set_el e (store l).
Proof.
  revert els store i.
  induction segs as [|l0 segs IH]; intros els store i Hi He Hlast; [done|].
  destruct els as [|el0 els]; [done|]. destruct i as [|i]; simpl in Hi, He.
  - injection Hi as ->. injection He as ->. simpl.
    rewrite assign_els_untouched; [apply fn_lookup_insert|].
    intros j e'. apply (Hlast (S j) e'). lia.
  - assert (Hrest : ∀ j e', (i < j)%nat → segs !! j = Some l →
                            els !! j = Some (Some e') → False).
    { intros j e' Hj. apply (Hlast (S j) e'). lia. }
    destruct el0 as [e0|]; simpl; [|by eapply IH].
    rewrite (IH els _ i) by done.
    destruct (decide (l0 = l)) as [->|Hne].
    + by rewrite fn_lookup_insert.
    + by rewrite fn_lookup_insert_ne.
Qed.

Section RenderSegElsMore.
Context `{Datelib} `{!DomManip} `{!EventRendering} `{!SegMethods}.

Lemma renderSegEls_run (this : FgEventRenderer) (segs : list loc)
    (mirrorInfo : option MirrorInfo) (w : World) :
  segs ≠ [] →
  renderSegEls this segs mirrorInfo w
  = if every_el_has_seg segs
         (htmlToElements (segs_html this (segStore w) segs mirrorInfo)
            (elStore w)).1
    then outside (filterSegsViaEls (context this) segs (Boolean_of mirrorInfo))
           (assigned_world this segs mirrorInfo w)
    else Throw TypeError.
Proof.
  intros Hne. unfold renderSegEls, assigned_world.
  rewrite bool_decide_eq_true_2 by (by destruct segs).
  erewrite bind_Ok; [|by apply (html_loop this segs mirrorInfo segs 0)].
  change ("" +:+ segs_html this (segStore w) segs mirrorInfo)
    with (segs_html this (segStore w) segs mirrorInfo).
  set (html := segs_html this (segStore w) segs mirrorInfo).
  destruct (htmlToElements html (elStore w)) as [els' st] eqn:Hparse.
  cbn [fst snd].
  erewrite bind_Ok; cycle 1.
  { unfold call, outside, modify, mbind, StateRes_bind.
    cbn [log_calls log_call segStore elStore calls heap_els heap_segs].
    rewrite Hparse. reflexivity. }
  cbn [heap_els heap_segs].
  pose proof (assign_loop segs els' 0
    {| segStore := segStore w; elStore := st;
       calls := (calls w ++ map (λ l, CallRenderSegHtml l mirrorInfo) segs)
                ++ [CallHtmlToElements html] |}) as Hassign.
  rewrite drop_0 in Hassign. cbn [segStore elStore calls] in Hassign.
  destruct (every_el_has_seg segs els').
  - erewrite bind_Ok; [|exact Hassign].
    unfold call, outside, modify, mbind, StateRes_bind.
    cbn [log_call segStore elStore calls].
    rewrite <- !app_assoc. reflexivity.
  - erewrite bind_Throw; [done | exact Hassign].
Qed.

Lemma renderSegEls_returned (this : FgEventRenderer) (segs : list loc)
    (mirrorInfo : option MirrorInfo) (w : World) res w' :
  segs ≠ [] →
  renderSegEls this segs mirrorInfo w = Ok (res, w') →
  outside (filterSegsViaEls (context this) segs (Boolean_of mirrorInfo))
    (assigned_world this segs mirrorInfo w)
  = Ok (res, w').
Proof.
  intros Hne Hrun. rewrite renderSegEls_run in Hrun by done.
  by destruct (every_el_has_seg _ _).
Qed.

(** X3. Before it filters, [renderSegEls] has changed nothing of any segment
    but its [el]: [isStart], [isEnd] and [eventRange] are what they were. *)
Theorem renderSegEls_changes_only_el (this : FgEventRenderer)
    (segs : list loc) (mirrorInfo : option MirrorInfo) (w : World) res w' :
  segs ≠ [] →
  renderSegEls this segs mirrorInfo w = Ok (res, w') →
  outside (filterSegsViaEls (context this) segs (Boolean_of mirrorInfo))
    (assigned_world this segs mirrorInfo w)
  = Ok (res, w')
  ∧ ∀ l,
      let seg := segStore (assigned_world this segs mirrorInfo w) l in
      isStart seg = isStart (segStore w l)
      ∧ isEnd seg = isEnd (segStore w l)
      ∧ eventRange seg = eventRange (segStore w l).
Proof.
  intros Hne Hrun. split; [by apply renderSegEls_returned|].
  intros l. apply assign_els_fields.
Qed.

(** X4. A segment may stand at several places of the list. Its [el] is then
    the parsed element, not null, at the last of these places that has
    one, and its other fields are what they were; a segment with no such
    place is left as it was. *)
Theorem renderSegEls_last_element_wins (this : FgEventRenderer)
    (segs : list loc) (mirrorInfo : option MirrorInfo) (w : World) res w' :
  let els :=
    (htmlToElements (segs_html this (segStore w) segs mirrorInfo)
       (elStore w)).1 in
  let assigned := segStore (assigned_world this segs mirrorInfo w) in
  segs ≠ [] →
  renderSegEls this segs mirrorInfo w = Ok (res, w') →
  outside (filterSegsViaEls (context this) segs (Boolean_of mirrorInfo))
    (assigned_world this segs mirrorInfo w)
  = Ok (res, w')
  ∧ (∀ i l e,
       segs !! i = Some l → els !! i = Some (Some e) →
       (∀ j e', (i < j)%nat → segs !! j = Some l →
                els !! j = Some (Some e') → False) →
       assigned l = set_el e (segStore w l)
       ∧ el (assigned l) = Some e
       ∧ isStart (assigned l) = isStart (segStore w l)
       ∧ isEnd (assigned l) = isEnd (segStore w l)
       ∧ eventRange (assigned l) = eventRange (segStore w l))
  ∧ (∀ l,
       (∀ j e, segs !! j = Some l → els !! j = Some (Some e) → False) →
       assigned l = segStore w l).
Proof.
  intros els assigned Hne Hrun. split; [by apply renderSegEls_returned|].
  split.
  - intros i l e Hi He Hlast. subst assigned. unfold assigned_world.
    cbn [segStore]. by rewrite (assign_els_last _ _ _ i l e).
  - intros l. apply assign_els_untouched.
Qed.

End RenderSegElsMore.

Lemma renderSegEls_changes_only_el_witness :
  ∃ res w',
    @renderSegEls Sample.datelib Sample.domManip Sample.eventRendering
      Sample.segMethods Sample.renderer [0; 2]%nat None Sample.world0
    = Ok (res, w')
    ∧ eventRange
        (segStore (@assigned_world Sample.datelib Sample.domManip
                     Sample.segMethods Sample.renderer [0; 2]%nat None
                     Sample.world0) 2%nat)
      = eventRange (Sample.store0 2%nat).
Proof.
  eassert (Hrun : @renderSegEls Sample.datelib Sample.domManip
                    Sample.eventRendering Sample.segMethods Sample.renderer
                    [0; 2]%nat None Sample.world0 = Ok (_, _))
    by (vm_compute; reflexivity).
  eexists _, _. split; [exact Hrun|].
  apply (proj2 (@renderSegEls_changes_only_el Sample.datelib Sample.domManip
                  Sample.eventRendering Sample.segMethods Sample.renderer
                  [0; 2]%nat None Sample.world0 _ _ ltac:(discriminate) Hrun)
           2%nat).
Defined.

Lemma renderSegEls_last_element_wins_witness :
  ∃ res w',
    @renderSegEls Sample.datelib Sample.domManip Sample.eventRendering
      Sample.segMethods Sample.renderer [0; 0]%nat None Sample.world0
    = Ok (res, w')
    ∧ el (segStore (@assigned_world Sample.datelib Sample.domManip
                      Sample.segMethods Sample.renderer [0; 0]%nat None
                      Sample.world0) 0%nat)
      = Some 101%nat.
Proof.
  eassert (Hrun : @renderSegEls Sample.datelib Sample.domManip
                    Sample.eventRendering Sample.segMethods Sample.renderer
                    [0; 0]%nat None Sample.world0 = Ok (_, _))
    by (vm_compute; reflexivity).
  eexists _, _. split; [exact Hrun|].
  apply (proj1 (proj2 (@renderSegEls_last_element_wins Sample.datelib
                         Sample.domManip Sample.eventRendering
                         Sample.segMethods Sample.renderer [0; 0]%nat None
                         Sample.world0 _ _ ltac:(discriminate) Hrun))
           1%nat 0%nat 101%nat eq_refl eq_refl).
  intros j e' Hj Hseg. destruct j as [|[|j]]; [lia | lia | discriminate].
Defined.

(** ** Plain rendering *)

Section RenderSegsPlain.
Context `{Datelib} `{!DomManip} `{!EventRendering} `{!SegMethods}.
Context `{ViewFrameworkState}.

Lemma lift_world_inv {A} (m : StateRes World A) (s s' : State) a :
  lift_world m s = Ok (a, s') →
  this s' = this s ∧ framework s' = framework s
  ∧ m (world s) = Ok (a, world s').
Proof.
  unfold lift_world. destruct (m (world s)) as [[a' w']|]; [|done].
  by intros [= <- <-].
Qed.

(** X5. [_renderSegsPlain] reports [isMirror] as [Boolean(mirrorInfo)], but
    the last thing it does is to call [triggerPositionedSegs] with
    [isMirror] false, for the segments [renderSegEls] returned, which are
    the segments of its result: the trigger works on the stores as
    [renderSegEls] left them, and what it leaves is the world at the end.
    The renderer's fields stay as they were. For an empty list it makes
    this call alone. *)
Theorem renderSegsPlain_triggers_not_mirror (props : PlainProps.t)
    (context : ComponentContext) (s s' : State) (r : PlainResult.t) :
  _renderSegsPlain props context s = Ok (r, s') →
  this s' = this s
  ∧ framework s' = framework s
  ∧ PlainResult.isMirror r = Boolean_of (PlainProps.mirrorInfo props)
  ∧ (∃ w1,
       renderSegEls (this s) (PlainProps.segs props)
         (PlainProps.mirrorInfo props) (world s)
       = Ok (PlainResult.segs r, w1)
       ∧ calls (world s')
         = calls w1 ++ [CallTriggerPositionedSegs (PlainResult.segs r) false]
       ∧ triggerPositionedSegs context (PlainResult.segs r) false
           {| heap_segs := segStore w1; heap_els := elStore w1 |}
         = Ok (tt, {| heap_segs := segStore (world s');
                      heap_els := elStore (world s') |}))
  ∧ (PlainProps.segs props = [] →
     PlainResult.segs r = []
     ∧ calls (world s')
       = calls (world s) ++ [CallTriggerPositionedSegs [] false]
     ∧ triggerPositionedSegs context [] false
         {| heap_segs := segStore (world s); heap_els := elStore (world s) |}
       = Ok (tt, {| heap_segs := segStore (world s');
                    heap_els := elStore (world s') |})).
Proof.
  intros Hrun. unfold _renderSegsPlain in Hrun.
  apply bind_inv in Hrun as (s0 & s1 & [= <- <-] & Hrun).
  apply bind_inv in Hrun as (segs1 & s2 & Hels & Hrun).
  apply bind_inv in Hrun as ([] & s3 & Htrigger & [= <- <-]).
  apply lift_world_inv in Hels as (Hthis2 & Hfw2 & Hels).
  apply hook_call_inv in Htrigger as (Hthis3 & Hfw3 & Hcalls & Hhook).
  simpl. split; [congruence|]. split; [congruence|]. split; [done|].
  split; [by exists (world s2)|].
  intros Hnil. rewrite Hnil in Hels. injection Hels as <- Hw.
  rewrite Hcalls, <- Hw in *. done.
Qed.

(** What [_renderSegsPlain] gives once [renderSegEls] has returned: the
    trigger decides. *)
Lemma renderSegsPlain_after_renderSegEls (props : PlainProps.t)
    (context : ComponentContext) (s : State) segs1 w1 :
  renderSegEls (this s) (PlainProps.segs props) (PlainProps.mirrorInfo props)
    (world s) = Ok (segs1, w1) →
  _renderSegsPlain props context s
  = through_hook (CallTriggerPositionedSegs segs1 false)
      (triggerPositionedSegs context segs1 false)
      (λ s', Ok ({| PlainResult.segs := segs1;
                    PlainResult.isMirror :=
                      Boolean_of (PlainProps.mirrorInfo props) |}, s'))
      (with_world w1 s).
Proof.
  intros Hels. unfold _renderSegsPlain.
  unfold mbind at 1, StateRes_bind at 1, get.
  unfold mbind at 1, StateRes_bind at 1, lift_world at 1. rewrite Hels.
  unfold mbind, StateRes_bind.
  change {| this := this s; world := w1; framework := framework s |}
    with (with_world w1 s).
  rewrite lift_world_call. unfold through_hook.
  by destruct (triggerPositionedSegs _ _ _ _) as [[[] h]|].
Qed.

End RenderSegsPlain.

Lemma renderSegsPlain_triggers_not_mirror_witness :
  ∃ r s',
    @_renderSegsPlain Sample.datelib Sample.domManip Sample2.marking
      Sample.segMethods Sample.viewFrameworkState
      {| PlainProps.segs := [0; 1]%nat;
         PlainProps.mirrorInfo :=
           Some {| isDragging := true; isResizing := false |} |}
      (context Sample.renderer) Sample.state0
    = Ok (r, s')
    ∧ PlainResult.isMirror r = true
    ∧ (∃ w1, calls (world s')
             = calls w1
               ++ [CallTriggerPositionedSegs (PlainResult.segs r) false])
    ∧ "positioned" ∈ classList (elStore (world s') 11%nat).
Proof.
  destruct (@_renderSegsPlain Sample.datelib Sample.domManip
              Sample2.marking Sample.segMethods Sample.viewFrameworkState
              {| PlainProps.segs := [0; 1]%nat;
                 PlainProps.mirrorInfo :=
                   Some {| isDragging := true; isResizing := false |} |}
              (context Sample.renderer) Sample.state0)
    as [[r s']|e] eqn:Hrun; [|by vm_compute in Hrun].
  exists r, s'. split; [reflexivity|].
  destruct (renderSegsPlain_triggers_not_mirror _ _ _ _ _ Hrun)
    as (_ & _ & Hmirror & (w1 & _ & Hcalls & Hhook) & _).
  split; [exact Hmirror|]. split; [by exists w1|].
  injection Hhook as _ Hels.
  rewrite <- Hels, fn_lookup_insert. apply elem_of_classList_add.
Defined.

(** ** More on the manipulations of rendered segments *)

Lemma els_loop_TypeError test f segs w e :
  (∀ seg e', test seg = Throw e' → e' = TypeError) →
  els_loop test f segs w = Throw e → e = TypeError.
Proof.
  intros Htest. revert w. induction segs as [|l segs IH]; intros w; [done|].
  unfold els_loop. simpl. unfold mbind, StateRes_bind, read_seg. simpl.
  destruct (test (segStore w l)) as [[]|e'] eqn:Hl.
  - unfold update_el. destruct (el (segStore w l)); simpl.
    + apply IH.
    + by intros [= <-].
  - apply IH.
  - intros [= <-]. by eapply Htest.
Qed.

Lemma passable_hideable hidden store segs :
  passable (hidden_test hidden) store segs → hideable hidden store segs.
Proof.
  intros Hpass l Hl. destruct (Hpass l Hl) as (b & Htest & Hel). split.
  - unfold hidden_test in Htest.
    destruct (instance (eventRange (store l))); [by eexists | done].
  - intros Hhidden%hidden_test_true. apply Hel. congruence.
Qed.

Lemma hiddenInstances_loop_hideable v segs hidden w :
  (∃ w', hiddenInstances_loop v segs hidden w = Ok (tt, w'))
  ↔ hideable hidden (segStore w) segs.
Proof.
  split; [|apply hiddenInstances_loop_returns].
  intros [w' Hrun]. rewrite hiddenInstances_loop_els in Hrun.
  apply els_loop_ok in Hrun as (_ & _ & Hpass & _); [|done].
  by apply passable_hideable.
Qed.

Lemma hiddenInstances_loop_TypeError v segs hidden w e :
  hiddenInstances_loop v segs hidden w = Throw e → e = TypeError.
Proof.
  rewrite hiddenInstances_loop_els. apply els_loop_TypeError.
  intros seg e'. unfold hidden_test.
  destruct (instance (eventRange seg)); [done | by intros [= <-]].
Qed.

(** X6. With [hiddenInstances] present, [renderHiddenInstances] and
    [unrenderHiddenInstances] return exactly when every segment has an event
    instance and every hidden segment an element; otherwise they throw, and
    what they throw is a [TypeError]. An empty [hiddenInstances] object
    does not spare a segment without an event instance, nor a segment
    without an element whose instance id names a property that the object
    inherits. *)
Theorem hiddenInstances_throws (segs : list loc)
    (hidden : gmap string JsVal) (w : World) :
  let props := {| HiddenProps.segs := segs;
                  HiddenProps.hiddenInstances := Some hidden |} in
  ((∃ w', renderHiddenInstances props w = Ok (props, w'))
   ↔ hideable hidden (segStore w) segs)
  ∧ ((∃ w', unrenderHiddenInstances props w = Ok (tt, w'))
     ↔ hideable hidden (segStore w) segs)
  ∧ (¬ hideable hidden (segStore w) segs →
     renderHiddenInstances props w = Throw TypeError
     ∧ unrenderHiddenInstances props w = Throw TypeError)
  ∧ ((∃ l, l ∈ segs ∧ instance (eventRange (segStore w l)) = None) →
     renderHiddenInstances props w = Throw TypeError)
  ∧ ((∃ l inst,
        l ∈ segs ∧ instance (eventRange (segStore w l)) = Some inst
        ∧ truthy (js_get hidden (instanceId inst)) = true
        ∧ el (segStore w l) = None) →
     renderHiddenInstances props w = Throw TypeError)
  ∧ (∀ k, hidden !! k = None → k ∈ Object_prototype_names →
          truthy (js_get hidden k) = true).
Proof.
  intros props.
  assert (Hrender : ∀ v,
    (∃ w', hiddenInstances_loop v segs hidden w = Ok (tt, w'))
    ∨ hiddenInstances_loop v segs hidden w = Throw TypeError).
  { intros v. destruct (hiddenInstances_loop v segs hidden w)
      as [[[] w']|e] eqn:Hrun; [by eauto|].
    right. f_equal. by eapply hiddenInstances_loop_TypeError. }
  assert (Hno : ¬ hideable hidden (segStore w) segs →
    renderHiddenInstances props w = Throw TypeError
    ∧ unrenderHiddenInstances props w = Throw TypeError).
  { intros Hnot.
    unfold renderHiddenInstances, unrenderHiddenInstances. simpl.
    unfold mbind, StateRes_bind.
    destruct (Hrender "hidden") as [Hok | ->];
      [by apply hiddenInstances_loop_hideable in Hok|].
    destruct (Hrender "") as [Hok | ->];
      [by apply hiddenInstances_loop_hideable in Hok | done]. }
  split; [|split; [|split; [done|split; [|split]]]].
  - rewrite <- (hiddenInstances_loop_hideable "hidden").
    unfold renderHiddenInstances. simpl. unfold mbind, StateRes_bind.
    destruct (hiddenInstances_loop "hidden" segs hidden w) as [[[] w1]|];
      split; intros [w' Hw']; try done; by eexists.
  - by rewrite <- (hiddenInstances_loop_hideable "").
  - intros (l & Hl & Hinst). apply Hno. intros Hok.
    destruct (Hok l Hl) as [[inst Hsome] _]. congruence.
  - intros (l & inst & Hl & Hinst & Htruthy & Hel). apply Hno. intros Hok.
    destruct (Hok l Hl) as [_ Hsome]. destruct Hsome as [e He]; [|congruence].
    exists inst. split; [done | by apply truthy_js_get].
  - intros k Hown Hinherited. apply truthy_js_get. by right.
Qed.

Lemma hiddenInstances_throws_witness :
  renderHiddenInstances
    {| HiddenProps.segs := [0%nat];
       HiddenProps.hiddenInstances := Some ∅ |}
    {| segStore := λ _, Sample.seg0 None (Some 5%nat);
       elStore := λ _, Sample.element0; calls := [] |}
  = Throw TypeError
  ∧ renderHiddenInstances
      {| HiddenProps.segs := [1%nat];
         HiddenProps.hiddenInstances := Some ∅ |}
      Sample2.constructor_world
    = Throw TypeError.
Proof.
  split.
  - apply (proj1 (proj2 (proj2 (proj2 (hiddenInstances_throws [0%nat] ∅
             {| segStore := λ _, Sample.seg0 None (Some 5%nat);
                elStore := λ _, Sample.element0; calls := [] |}))))).
    exists 0%nat. split; [apply list_elem_of_here | reflexivity].
  - apply (proj1 (proj2 (proj2 (proj2 (proj2 (hiddenInstances_throws [1%nat] ∅
             Sample2.constructor_world)))))).
    exists 1%nat. eexists.
    split; [apply list_elem_of_here|]. split; [reflexivity|].
    split; reflexivity.
Defined.

Lemma renderHiddenInstances_ok props w p w' :
  renderHiddenInstances props w = Ok (p, w') →
  p = props ∧ segStore w' = segStore w ∧ calls w' = calls w
  ∧ ∀ e,
      (hides props (segStore w) e →
       elStore w' e = set_visibility "hidden" (elStore w e))
      ∧ (¬ hides props (segStore w) e → elStore w' e = elStore w e).
Proof.
  unfold renderHiddenInstances, hides. unfold mbind, StateRes_bind.
  destruct (HiddenProps.hiddenInstances props) as [hidden|].
  - destruct (hiddenInstances_loop _ _ _ _) as [[[] w1]|] eqn:Hloop; [|done].
    intros [= <- <-].
    apply hiddenInstances_loop_ok in Hloop as (Hseg & Hcalls & Hels).
    repeat (split; [done|]). intros e. destruct (Hels e) as [Hyes Hno].
    split.
    + intros (? & [= <-] & He). by apply Hyes.
    + intros Hnot. apply Hno. intros He. apply Hnot. by exists hidden.
  - intros [= <- <-]. repeat (split; [done|]). intros e.
    split; [by intros (? & [=] & _) | done].
Qed.

Lemma unrenderHiddenInstances_ok props w w' :
  unrenderHiddenInstances props w = Ok (tt, w') →
  segStore w' = segStore w ∧ calls w' = calls w
  ∧ ∀ e,
      (hides props (segStore w) e →
       elStore w' e = set_visibility "" (elStore w e))
      ∧ (¬ hides props (segStore w) e → elStore w' e = elStore w e).
Proof.
  unfold unrenderHiddenInstances, hides.
  destruct (HiddenProps.hiddenInstances props) as [hidden|].
  - intros Hloop.
    apply hiddenInstances_loop_ok in Hloop as (Hseg & Hcalls & Hels).
    repeat (split; [done|]). intros e. destruct (Hels e) as [Hyes Hno].
    split.
    + intros (? & [= <-] & He). by apply Hyes.
    + intros Hnot. apply Hno. intros He. apply Hnot. by exists hidden.
  - intros [= <-]. repeat (split; [done|]). intros e.
    split; [by intros (? & [=] & _) | done].
Qed.

Lemma renderSelectedInstance_ok props w p w' :
  renderSelectedInstance props w = Ok (p, w') →
  p = props ∧ segStore w' = segStore w ∧ calls w' = calls w
  ∧ ∀ e,
      (selects props (segStore w) e →
       elStore w' e = classList_add "fc-selected" (elStore w e))
      ∧ (¬ selects props (segStore w) e → elStore w' e = elStore w e).
Proof.
  unfold renderSelectedInstance, selects. unfold mbind at 1, StateRes_bind at 1.
  destruct (str_truthy (SelectedProps.instanceId props)) eqn:Htruthy.
  - destruct (SelectedProps.instanceId props) as [id|]; [|done]. simpl.
    rewrite selected_loop_els.
    destruct (els_loop _ _ _ _) as [[[] w1]|] eqn:Hloop; [|done].
    intros [= <- <-].
    apply els_loop_ok in Hloop as (Hseg & Hcalls & _ & Hels);
      [|apply classList_add_idempotent].
    repeat (split; [done|]). intros e. destruct (Hels e) as [Hyes Hno].
    rewrite selected_el_targeted in Hyes, Hno. split.
    + intros (? & [= <-] & _ & He). by apply Hyes.
    + intros Hnot. apply Hno. intros He. apply Hnot. exists id.
      repeat split; [|done]. intros ->. done.
  - intros [= <- <-]. repeat (split; [done|]). intros e.
    split; [|done]. intros (id & Hid & Hne & _). rewrite Hid in Htruthy.
    simpl in Htruthy. apply negb_false_iff, String.eqb_eq in Htruthy. done.
Qed.

Lemma unrenderSelectedInstance_ok props w w' :
  unrenderSelectedInstance props w = Ok (tt, w') →
  segStore w' = segStore w ∧ calls w' = calls w
  ∧ ∀ e,
      (unselects props (segStore w) e →
       elStore w' e = classList_remove "fc-selected" (elStore w e))
      ∧ (¬ unselects props (segStore w) e → elStore w' e = elStore w e).
Proof.
  unfold unrenderSelectedInstance, unselects.
  destruct (str_truthy (SelectedProps.instanceId props)) eqn:Htruthy.
  - rewrite unselected_loop_els. intros Hloop.
    apply els_loop_ok in Hloop as (Hseg & Hcalls & _ & Hels);
      [|apply classList_remove_idempotent].
    repeat (split; [done|]). intros e. destruct (Hels e) as [Hyes Hno].
    rewrite seg_el_targeted in Hyes, Hno. split.
    + intros [_ He]. by apply Hyes.
    + intros Hnot. apply Hno. intros He. by apply Hnot.
  - intros [= <-]. repeat (split; [done|]). intros e.
    split; [by intros [[=] _] | done].
Qed.

Lemma unrenderSelectedInstance_returns props w :
  ∃ w', unrenderSelectedInstance props w = Ok (tt, w').
Proof.
  unfold unrenderSelectedInstance.
  destruct (str_truthy (SelectedProps.instanceId props)); [|by eexists].
  rewrite unselected_loop_els. apply els_loop_passable, seg_el_passable.
Qed.

Lemma renderSelectedInstance_returns props w :
  ∃ w', renderSelectedInstance props w = Ok (props, w').
Proof.
  unfold renderSelectedInstance. unfold mbind at 1, StateRes_bind at 1.
  destruct (str_truthy (SelectedProps.instanceId props)); [|by eexists].
  rewrite selected_loop_els.
  destruct (els_loop_passable _ (classList_add "fc-selected")
              (SelectedProps.segs props) w
              (selected_passable (default "" (SelectedProps.instanceId props))
                 (segStore w) (SelectedProps.segs props)))
    as [w' ->].
  by eexists.
Qed.

Lemma hides_decidable props store e :
  hides props store e ∨ ¬ hides props store e.
Proof.
  unfold hides. destruct (HiddenProps.hiddenInstances props) as [hidden|].
  - destruct (targeted_decidable (hidden_test hidden) store
                (HiddenProps.segs props) e) as [Ht|Ht];
      rewrite hidden_el_targeted in Ht.
    + left. by exists hidden.
    + right. by intros (? & [= <-] & ?).
  - right. by intros (? & [=] & _).
Qed.

Lemma selects_decidable props store e :
  selects props store e ∨ ¬ selects props store e.
Proof.
  unfold selects. destruct (SelectedProps.instanceId props) as [id|].
  - destruct (decide (id = "")) as [->|Hne]; [right; by intros (? & [= <-] & ? & _)|].
    destruct (targeted_decidable (λ seg, Ok (is_selected id seg)) store
                (SelectedProps.segs props) e) as [Ht|Ht];
      rewrite selected_el_targeted in Ht.
    + left. by exists id.
    + right. by intros (? & [= <-] & _ & ?).
  - right. by intros (? & [=] & _).
Qed.

Lemma set_visibility_same x : set_visibility (visibility x) x = x.
Proof. by destruct x. Qed.

Lemma classList_remove_absent token x :
  token ∉ classList x → classList_remove token x = x.
Proof.
  destruct x as [cs v]. unfold classList_remove. simpl. intros Hnot.
  f_equal. induction cs as [|c cs IH]; [done|].
  apply not_elem_of_cons in Hnot as [Hne Hnot].
  rewrite filter_cons_True by done. by rewrite IH.
Qed.

Lemma filter_snoc_removed (token : string) (cs : list string) :
  filter (λ t, t ≠ token) (cs ++ [token]) = filter (λ t, t ≠ token) cs.
Proof.
  induction cs as [|c cs IH]; simpl.
  - by rewrite filter_cons_False by (by intros ?).
  - rewrite !filter_cons. by rewrite IH.
Qed.

Lemma classList_remove_add token x :
  classList_remove token (classList_add token x) = classList_remove token x.
Proof.
  unfold classList_remove, classList_add. simpl. f_equal.
  case_bool_decide; [done | apply filter_snoc_removed].
Qed.

Lemma renderHiddenInstances_returns_again props w p w' wa :
  renderHiddenInstances props w = Ok (p, w') →
  segStore wa = segStore w →
  (∃ wa', renderHiddenInstances props wa = Ok (props, wa'))
  ∧ (∃ wa', unrenderHiddenInstances props wa = Ok (tt, wa')).
Proof.
  unfold renderHiddenInstances, unrenderHiddenInstances.
  unfold mbind, StateRes_bind. intros Hrun Hseg.
  destruct (HiddenProps.hiddenInstances props) as [hidden|];
    [|split; by eexists].
  destruct (hiddenInstances_loop "hidden" _ hidden w) as [[[] w1]|] eqn:Hloop;
    [|done].
  assert (Hok : hideable hidden (segStore wa) (HiddenProps.segs props)).
  { rewrite Hseg. apply (hiddenInstances_loop_hideable "hidden"). by eexists. }
  destruct (hiddenInstances_loop_returns "hidden" _ _ _ Hok) as [w2 ->].
  destruct (hiddenInstances_loop_returns "" _ _ _ Hok) as [w3 ->].
  split; by eexists.
Qed.

Lemma unselects_decidable props store e :
  unselects props store e ∨ ¬ unselects props store e.
Proof.
  unfold unselects.
  destruct (str_truthy (SelectedProps.instanceId props));
    [|right; by intros [[=] _]].
  destruct (targeted_decidable (λ seg, Ok (bool_decide (is_Some (el seg))))
              store (SelectedProps.segs props) e) as [Ht|Ht];
    rewrite seg_el_targeted in Ht; [by left | right; by intros [_ ?]].
Qed.

Lemma selects_unselects props store e :
  selects props store e → unselects props store e.
Proof.
  intros (id & Hid & Hne & l & inst & Hl & _ & _ & He). split.
  - rewrite Hid. simpl. apply negb_true_iff, String.eqb_neq. done.
  - by exists l.
Qed.

(** X7. After [renderHiddenInstances] has returned,
    [unrenderHiddenInstances] with the same props returns too, and the two
    together leave every element as it was but for the visibility of the
    hidden segments' elements, which was ['hidden'] in between and is
    [''] at the end, not what it was before. So the two cancel exactly
    when every such element had the visibility ['']. *)
Theorem hiddenInstances_round_trip (props : HiddenProps.t) (w w1 : World) p :
  renderHiddenInstances props w = Ok (p, w1) →
  ∃ w2,
    unrenderHiddenInstances props w1 = Ok (tt, w2)
    ∧ segStore w2 = segStore w ∧ calls w2 = calls w
    ∧ (∀ e,
         (hides props (segStore w) e →
          elStore w2 e = set_visibility "" (elStore w e)
          ∧ visibility (elStore w1 e) = "hidden"
          ∧ visibility (elStore w2 e) = ""
          ∧ classList (elStore w2 e) = classList (elStore w e))
         ∧ (¬ hides props (segStore w) e → elStore w2 e = elStore w e))
    ∧ ((∀ e, hides props (segStore w) e → visibility (elStore w e) = "")
       ↔ ∀ e, elStore w2 e = elStore w e).
Proof.
  intros Hrender.
  pose proof (renderHiddenInstances_ok _ _ _ _ Hrender)
    as (_ & Hseg1 & Hcalls1 & Hels1).
  destruct (renderHiddenInstances_returns_again _ _ _ _ w1 Hrender Hseg1)
    as [_ [w2 Hun]].
  exists w2. split; [done|].
  pose proof (unrenderHiddenInstances_ok _ _ _ Hun) as (Hseg2 & Hcalls2 & Hels2).
  rewrite Hseg1 in Hels2.
  assert (Hels : ∀ e,
    (hides props (segStore w) e →
     elStore w2 e = set_visibility "" (elStore w e))
    ∧ (¬ hides props (segStore w) e → elStore w2 e = elStore w e)).
  { intros e. destruct (Hels1 e) as [Hyes1 Hno1].
    destruct (Hels2 e) as [Hyes2 Hno2]. split.
    - intros He. by rewrite Hyes2, Hyes1.
    - intros He. by rewrite Hno2, Hno1. }
  split; [congruence|]. split; [congruence|]. split.
  - intros e. split; [|by apply Hels].
    intros He. rewrite (proj1 (Hels e) He), (proj1 (Hels1 e) He). done.
  - split.
    + intros Hblank e.
      destruct (hides_decidable props (segStore w) e) as [He|He].
      * rewrite (proj1 (Hels e) He), <- (Hblank e He).
        apply set_visibility_same.
      * by apply Hels.
    + intros Hsame e He. rewrite <- Hsame, (proj1 (Hels e) He). done.
Qed.

(** X8. Selecting and hiding do not disturb each other: hiding changes no
    class list, selecting changes no visibility, and the two can be done
    in either order with the same elements at the end, as [renderSegs]
    relies on when it does one after the other. *)
Theorem selection_and_hiding_commute (selected : SelectedProps.t)
    (hidden : HiddenProps.t) (w wb : World) p :
  renderHiddenInstances hidden w = Ok (p, wb) →
  ∃ wa wab wba,
    renderSelectedInstance selected w = Ok (selected, wa)
    ∧ renderHiddenInstances hidden wa = Ok (hidden, wab)
    ∧ renderSelectedInstance selected wb = Ok (selected, wba)
    ∧ (∀ e, elStore wab e = elStore wba e)
    ∧ segStore wab = segStore wba
    ∧ calls wab = calls wba
    ∧ (∀ e, classList (elStore wb e) = classList (elStore w e))
    ∧ (∀ e, visibility (elStore wa e) = visibility (elStore w e)).
Proof.
  intros Hb.
  destruct (renderSelectedInstance_returns selected w) as [wa Ha].
  destruct (renderSelectedInstance_returns selected wb) as [wba Hba].
  pose proof (renderSelectedInstance_ok _ _ _ _ Ha) as (_ & Hsa & Hca & Hea).
  pose proof (renderHiddenInstances_ok _ _ _ _ Hb) as (_ & Hsb & Hcb & Heb).
  destruct (renderHiddenInstances_returns_again _ _ _ _ wa Hb Hsa)
    as [[wab Hab] _].
  pose proof (renderHiddenInstances_ok _ _ _ _ Hab) as (_ & Hsab & Hcab & Heab).
  pose proof (renderSelectedInstance_ok _ _ _ _ Hba) as (_ & Hsba & Hcba & Heba).
  rewrite Hsa in Heab. rewrite Hsb in Heba.
  exists wa, wab, wba. repeat (split; [done|]).
  split; [|split; [congruence|split; [congruence|split]]].
  - intros e.
    destruct (Hea e) as [Hsel Hnsel]. destruct (Heb e) as [Hhid Hnhid].
    destruct (Heab e) as [Hhid' Hnhid']. destruct (Heba e) as [Hsel' Hnsel'].
    destruct (selects_decidable selected (segStore w) e) as [Hs|Hs],
             (hides_decidable hidden (segStore w) e) as [Hh|Hh].
    + by rewrite Hhid', Hsel, Hsel', Hhid.
    + by rewrite Hnhid', Hsel, Hsel', Hnhid.
    + by rewrite Hhid', Hnsel, Hnsel', Hhid.
    + by rewrite Hnhid', Hnsel, Hnsel', Hnhid.
  - intros e. destruct (Heb e) as [Hhid Hnhid].
    destruct (hides_decidable hidden (segStore w) e) as [Hh|Hh].
    + by rewrite Hhid.
    + by rewrite Hnhid.
  - intros e. destruct (Hea e) as [Hsel Hnsel].
    destruct (selects_decidable selected (segStore w) e) as [Hs|Hs].
    + by rewrite Hsel.
    + by rewrite Hnsel.
Qed.

(** X9. [renderSelectedInstance] and then [unrenderSelectedInstance] with
    the same props always return. With a truthy [instanceId] no element of a
    segment has ['fc-selected'] afterwards, also not one that had it before
    and was not selected; every other element is as it was. So the two
    cancel when no element of a segment had ['fc-selected'] before. *)
Theorem selectedInstance_round_trip (props : SelectedProps.t) (w : World) :
  ∃ w1 w2,
    renderSelectedInstance props w = Ok (props, w1)
    ∧ unrenderSelectedInstance props w1 = Ok (tt, w2)
    ∧ segStore w2 = segStore w ∧ calls w2 = calls w
    ∧ (∀ e,
         (unselects props (segStore w) e →
          elStore w2 e = classList_remove "fc-selected" (elStore w e)
          ∧ "fc-selected" ∉ classList (elStore w2 e))
         ∧ (¬ unselects props (segStore w) e → elStore w2 e = elStore w e))
    ∧ ((∀ e, unselects props (segStore w) e →
             "fc-selected" ∉ classList (elStore w e)) →
       ∀ e, elStore w2 e = elStore w e).
Proof.
  destruct (renderSelectedInstance_returns props w) as [w1 H1].
  destruct (unrenderSelectedInstance_returns props w1) as [w2 H2].
  exists w1, w2. split; [done|]. split; [done|].
  pose proof (renderSelectedInstance_ok _ _ _ _ H1) as (_ & Hs1 & Hc1 & He1).
  pose proof (unrenderSelectedInstance_ok _ _ _ H2) as (Hs2 & Hc2 & He2).
  rewrite Hs1 in He2.
  assert (Hels : ∀ e,
    (unselects props (segStore w) e →
     elStore w2 e = classList_remove "fc-selected" (elStore w e))
    ∧ (¬ unselects props (segStore w) e → elStore w2 e = elStore w e)).
  { intros e. destruct (He1 e) as [Hyes1 Hno1].
    destruct (He2 e) as [Hyes2 Hno2]. split.
    - intros He. rewrite Hyes2 by done.
      destruct (selects_decidable props (segStore w) e) as [Hs|Hs].
      + rewrite Hyes1 by done. apply classList_remove_add.
      + by rewrite Hno1.
    - intros He. rewrite Hno2, Hno1; [done| |done].
      intros Hs. by apply He, selects_unselects. }
  split; [congruence|]. split; [congruence|]. split.
  - intros e. split; [|by apply Hels].
    intros He. rewrite (proj1 (Hels e) He).
    split; [done | apply not_elem_of_classList_remove].
  - intros Habsent e.
    destruct (unselects_decidable props (segStore w) e) as [He|He].
    + rewrite (proj1 (Hels e) He). by apply classList_remove_absent, Habsent.
    + by apply Hels.
Qed.

Lemma hiddenInstances_round_trip_witness :
  ∃ w1 w2,
    renderHiddenInstances Sample2.hidden_a Sample2.plain_world
    = Ok (Sample2.hidden_a, w1)
    ∧ visibility (elStore w1 10%nat) = "hidden"
    ∧ unrenderHiddenInstances Sample2.hidden_a w1 = Ok (tt, w2)
    ∧ visibility (elStore w2 10%nat) = ""
    ∧ ∀ e, elStore w2 e = Sample2.plain_element.
Proof.
  eassert (Hrun : renderHiddenInstances Sample2.hidden_a Sample2.plain_world
                  = Ok (_, _)) by (vm_compute; reflexivity).
  destruct (hiddenInstances_round_trip _ _ _ _ Hrun)
    as (w2 & Hun & _ & _ & Hels & Hcancel).
  assert (Hhides : hides Sample2.hidden_a Sample.store0 10%nat).
  { eexists. split; [reflexivity|]. exists 0%nat.
    split; [apply list_elem_of_here|]. split; [|reflexivity].
    eexists. split; [reflexivity|]. left. exists (JBool true).
    split; [apply lookup_singleton_eq | reflexivity]. }
  destruct (proj1 (Hels 10%nat) Hhides) as (_ & Hhidden & Hshown & _).
  eexists _, w2. split; [exact Hrun|]. split; [exact Hhidden|].
  split; [exact Hun|]. split; [exact Hshown|].
  apply (proj1 Hcancel). reflexivity.
Defined.

Lemma selection_and_hiding_commute_witness :
  ∃ wb wa wab wba,
    renderHiddenInstances Sample2.hidden_a Sample.world0
    = Ok (Sample2.hidden_a, wb)
    ∧ renderSelectedInstance Sample2.selected_b Sample.world0
      = Ok (Sample2.selected_b, wa)
    ∧ renderHiddenInstances Sample2.hidden_a wa = Ok (Sample2.hidden_a, wab)
    ∧ renderSelectedInstance Sample2.selected_b wb
      = Ok (Sample2.selected_b, wba)
    ∧ ∀ e, elStore wab e = elStore wba e.
Proof.
  eassert (Hrun : renderHiddenInstances Sample2.hidden_a Sample.world0
                  = Ok (_, _)) by (vm_compute; reflexivity).
  destruct (selection_and_hiding_commute Sample2.selected_b _ _ _ _ Hrun)
    as (wa & wab & wba & Ha & Hab & Hba & Hels & _).
  eexists _, wa, wab, wba. by repeat split.
Defined.

Lemma selectedInstance_round_trip_witness :
  ∃ w1 w2,
    renderSelectedInstance Sample2.selected_b Sample2.plain_world
    = Ok (Sample2.selected_b, w1)
    ∧ unrenderSelectedInstance Sample2.selected_b w1 = Ok (tt, w2)
    ∧ ∀ e, elStore w2 e = Sample2.plain_element.
Proof.
  destruct (selectedInstance_round_trip Sample2.selected_b Sample2.plain_world)
    as (w1 & w2 & H1 & H2 & _ & _ & _ & Hcancel).
  exists w1, w2. split; [exact H1|]. split; [exact H2|].
  intros e. rewrite Hcancel; [reflexivity|].
  intros e' _. simpl. rewrite elem_of_cons, elem_of_nil.
  intros [[=]|[]].
Defined.

(** ** The sizing protocol *)

Section SizingProtocol.
Context `{Datelib} `{!DomManip} `{!EventRendering} `{!SegMethods}.
Context `{ViewFrameworkState} `{!ViewFramework} `{!ComputedDefaults}.

Lemma renderSegs_ok (props : Props.t) (s s' : State) r :
  renderSegs props s = Ok (r, s') →
  isSizeDirty (this s') = true ∧ segs (this s') = r.
Proof.
  intros Hrun. unfold renderSegs in Hrun.
  apply bind_inv in Hrun as (s0 & s1 & _ & Hrun).
  apply bind_inv in Hrun as ([] & s2 & _ & Hrun).
  apply bind_inv in Hrun as (plain & s3 & _ & Hrun).
  apply bind_inv in Hrun as (sel & s4 & _ & Hrun).
  apply bind_inv in Hrun as (hid & s5 & _ & Hrun).
  by injection Hrun as <- <-.
Qed.

Lemma computeSizes_ok (force : bool) (userComponent : JsVal) (s s' : State) :
  computeSizes force userComponent s = Ok (tt, s') →
  this s' = this s
  ∧ calls (world s')
    = calls (world s)
      ++ (if force || isSizeDirty (this s)
          then [CallComputeSegSizes (segs (this s)) userComponent]
          else [])
  ∧ (force || isSizeDirty (this s) = false → s' = s).
Proof.
  intros Hrun. unfold computeSizes in Hrun.
  apply bind_inv in Hrun as (s0 & s1 & [= <- <-] & Hrun).
  destruct (force || isSizeDirty (this s)).
  - apply hook_call_inv in Hrun as (Hthis & _ & Hcalls & _). done.
  - injection Hrun as <-. by rewrite app_nil_r.
Qed.

Lemma assignSizes_ok (force : bool) (userComponent : JsVal) (s s' : State) :
  assignSizes force userComponent s = Ok (tt, s') →
  this s' = set_isSizeDirty false (this s)
  ∧ calls (world s')
    = calls (world s)
      ++ (if force || isSizeDirty (this s)
          then [CallAssignSegSizes (segs (this s)) userComponent]
          else []).
Proof.
  intros Hrun. unfold assignSizes in Hrun.
  apply bind_inv in Hrun as (s0 & s1 & [= <- <-] & Hrun).
  apply bind_inv in Hrun as ([] & s2 & Hhook & [= <-]).
  simpl. destruct (force || isSizeDirty (this s)).
  - apply hook_call_inv in Hhook as (-> & _ & -> & _). done.
  - injection Hhook as <-. by rewrite app_nil_r.
Qed.

Lemma computeSizes_hook (force : bool) (userComponent : JsVal) (s s1 : State) :
  computeSizes force userComponent s = Ok (tt, s1) →
  force || isSizeDirty (this s) = true →
  computeSegSizes (segs (this s)) userComponent
    {| heap_segs := segStore (world s); heap_els := elStore (world s) |}
  = Ok (tt, {| heap_segs := segStore (world s1);
               heap_els := elStore (world s1) |}).
Proof.
  intros Hrun Hneeded. rewrite computeSizes_run, Hneeded in Hrun.
  unfold through_hook, heap_of in Hrun.
  destruct (computeSegSizes _ _ _) as [[[] [hs he]]|]; [|done].
  by injection Hrun as <-.
Qed.

Lemma assignSizes_hook (force : bool) (userComponent : JsVal) (s s1 : State) :
  assignSizes force userComponent s = Ok (tt, s1) →
  force || isSizeDirty (this s) = true →
  assignSegSizes (segs (this s)) userComponent
    {| heap_segs := segStore (world s); heap_els := elStore (world s) |}
  = Ok (tt, {| heap_segs := segStore (world s1);
               heap_els := elStore (world s1) |}).
Proof.
  intros Hrun Hneeded. rewrite assignSizes_run, Hneeded in Hrun.
  unfold through_hook, heap_of in Hrun.
  destruct (assignSegSizes _ _ _) as [[[] [hs he]]|]; [|done].
  by injection Hrun as <-.
Qed.

(** X10. [computeSizes] and then [assignSizes] with the same [force] call
    their hooks as a pair, [computeSegSizes] first and both with the
    renderer's segments, or call neither: [assignSegSizes] works on the
    stores as [computeSegSizes] left them, and what it leaves is the world
    at the end. The flag is false afterwards and the segments are the
    same. *)
Theorem sizes_called_as_a_pair (force : bool) (userComponent : JsVal)
    (s s1 s2 : State) :
  computeSizes force userComponent s = Ok (tt, s1) →
  assignSizes force userComponent s1 = Ok (tt, s2) →
  calls (world s2)
  = calls (world s)
    ++ (if force || isSizeDirty (this s)
        then [ CallComputeSegSizes (segs (this s)) userComponent;
               CallAssignSegSizes (segs (this s)) userComponent ]
        else [])
  ∧ isSizeDirty (this s2) = false
  ∧ segs (this s2) = segs (this s)
  ∧ framework s2 = framework s
  ∧ (force || isSizeDirty (this s) = true →
     computeSegSizes (segs (this s)) userComponent
       {| heap_segs := segStore (world s); heap_els := elStore (world s) |}
     = Ok (tt, {| heap_segs := segStore (world s1);
                  heap_els := elStore (world s1) |})
     ∧ assignSegSizes (segs (this s)) userComponent
         {| heap_segs := segStore (world s1); heap_els := elStore (world s1) |}
       = Ok (tt, {| heap_segs := segStore (world s2);
                    heap_els := elStore (world s2) |}))
  ∧ (force || isSizeDirty (this s) = false → s1 = s ∧ world s2 = world s).
Proof.
  intros Hcompute Hassign.
  rewrite computeSizes_run in Hcompute. rewrite assignSizes_run in Hassign.
  unfold through_hook, heap_of in Hcompute, Hassign.
  destruct (force || isSizeDirty (this s)) eqn:Hneeded.
  - destruct (computeSegSizes _ _ _) as [[[] [hs1 he1]]|] eqn:Hhook1; [|done].
    injection Hcompute as <-. simpl in Hassign. rewrite Hneeded in Hassign.
    destruct (assignSegSizes _ _ _) as [[[] [hs2 he2]]|] eqn:Hhook2; [|done].
    injection Hassign as <-. simpl. rewrite <- app_assoc.
    repeat split; try done.
  - injection Hcompute as <-. rewrite Hneeded in Hassign.
    injection Hassign as <-. simpl. rewrite app_nil_r. repeat split; done.
Qed.

(** X11. Once [assignSizes] has returned, an unforced [computeSizes] or
    [assignSizes] calls no hook and changes nothing, until the segments
    are rendered again. *)
Theorem sizes_settled (force : bool) (userComponent other : JsVal)
    (s s1 : State) :
  assignSizes force userComponent s = Ok (tt, s1) →
  computeSizes false other s1 = Ok (tt, s1)
  ∧ assignSizes false other s1 = Ok (tt, s1).
Proof.
  intros Hrun. apply assignSizes_ok in Hrun as (Hthis & _).
  unfold computeSizes, assignSizes, get, set_this, modify.
  unfold mbind, StateRes_bind. rewrite Hthis. simpl.
  split; [done|]. destruct s1 as [r w f]. simpl in *. by rewrite Hthis.
Qed.

(** X12. After [renderSegs] has returned, an unforced [computeSizes] calls
    [computeSegSizes], and an unforced [assignSizes] after it
    [assignSegSizes], both with the segments [renderSegs] returned and each
    on the stores as they are: what the hook leaves is the world after the
    call. The flag is false afterwards. *)
Theorem sizes_after_renderSegs (props : Props.t) (userComponent : JsVal)
    (s s1 s2 s3 : State) r :
  renderSegs props s = Ok (r, s1) →
  computeSizes false userComponent s1 = Ok (tt, s2) →
  assignSizes false userComponent s2 = Ok (tt, s3) →
  calls (world s2) = calls (world s1) ++ [CallComputeSegSizes r userComponent]
  ∧ calls (world s3) = calls (world s2) ++ [CallAssignSegSizes r userComponent]
  ∧ isSizeDirty (this s3) = false
  ∧ segs (this s3) = r
  ∧ computeSegSizes r userComponent
      {| heap_segs := segStore (world s1); heap_els := elStore (world s1) |}
    = Ok (tt, {| heap_segs := segStore (world s2);
                 heap_els := elStore (world s2) |})
  ∧ assignSegSizes r userComponent
      {| heap_segs := segStore (world s2); heap_els := elStore (world s2) |}
    = Ok (tt, {| heap_segs := segStore (world s3);
                 heap_els := elStore (world s3) |}).
Proof.
  intros Hrender Hcompute Hassign.
  apply renderSegs_ok in Hrender as (Hdirty & Hsegs).
  pose proof (computeSizes_hook _ _ _ _ Hcompute) as Hhook2.
  pose proof (assignSizes_hook _ _ _ _ Hassign) as Hhook3.
  apply computeSizes_ok in Hcompute as (Hthis2 & Hcalls2 & _).
  apply assignSizes_ok in Hassign as (Hthis3 & Hcalls3).
  rewrite Hthis2 in Hthis3, Hcalls3, Hhook3.
  rewrite Hdirty, Hsegs in Hcalls2, Hcalls3, Hhook2, Hhook3.
  simpl in Hcalls2, Hcalls3. rewrite Hthis3.
  repeat split; try done; [by apply Hhook2 | by apply Hhook3].
Qed.

End SizingProtocol.

Lemma sizes_called_as_a_pair_witness :
  ∃ s1 s2,
    @computeSizes Sample.datelib Sample2.measuring Sample.viewFrameworkState
      true JNull Sample2.dirty_state = Ok (tt, s1)
    ∧ @assignSizes Sample.datelib Sample2.measuring Sample.viewFrameworkState
        true JNull s1 = Ok (tt, s2)
    ∧ calls (world s2)
      = [CallComputeSegSizes [0; 1]%nat JNull;
         CallAssignSegSizes [0; 1]%nat JNull]
    ∧ classList (elStore (world s2) 10%nat)
      = ["fc-event"; "computed"; "assigned"].
Proof.
  destruct (@computeSizes Sample.datelib Sample2.measuring
              Sample.viewFrameworkState true JNull Sample2.dirty_state)
    as [[[] s1]|e] eqn:H1; [|by vm_compute in H1].
  destruct (@assignSizes Sample.datelib Sample2.measuring
              Sample.viewFrameworkState true JNull s1)
    as [[[] s2]|e] eqn:H2; [|by vm_compute in H2].
  exists s1, s2. split; [reflexivity|]. split; [exact H2|].
  destruct (sizes_called_as_a_pair true JNull _ _ _ H1 H2)
    as (Hcalls & _ & _ & _ & Hhooks & _).
  split; [exact Hcalls|].
  destruct (Hhooks eq_refl) as [Hhook1 Hhook2].
  injection Hhook1 as _ Hels1. injection Hhook2 as _ Hels2.
  rewrite <- Hels2, fn_lookup_insert, <- Hels1, fn_lookup_insert.
  reflexivity.
Defined.

Lemma sizes_settled_witness :
  ∃ s1,
    @assignSizes Sample.datelib Sample.segMethods Sample.viewFrameworkState
      true JNull Sample.state0 = Ok (tt, s1)
    ∧ @computeSizes Sample.datelib Sample.segMethods Sample.viewFrameworkState
        false JNull s1 = Ok (tt, s1).
Proof.
  eassert (H1 : @assignSizes Sample.datelib Sample.segMethods
                  Sample.viewFrameworkState true JNull Sample.state0
                = Ok (tt, _)) by (vm_compute; reflexivity).
  eexists. split; [exact H1|].
  exact (proj1 (sizes_settled true JNull JNull _ _ H1)).
Defined.

Lemma sizes_after_renderSegs_witness :
  let props := {| Props.segs := [0; 1]%nat; Props.mirrorInfo := None;
                  Props.selectedInstanceId := Some "a";
                  Props.hiddenInstances := None |} in
  ∃ r s1 s2 s3,
    @renderSegs Sample.datelib Sample.domManip Sample.eventRendering
      Sample2.measuring Sample.viewFrameworkState Sample.viewFramework
      baseDefaults props Sample.state0
    = Ok (r, s1)
    ∧ @computeSizes Sample.datelib Sample2.measuring Sample.viewFrameworkState
        false JNull s1 = Ok (tt, s2)
    ∧ @assignSizes Sample.datelib Sample2.measuring Sample.viewFrameworkState
        false JNull s2 = Ok (tt, s3)
    ∧ calls (world s3) = calls (world s2) ++ [CallAssignSegSizes r JNull]
    ∧ "computed" ∈ classList (elStore (world s2) 10%nat)
    ∧ "assigned" ∈ classList (elStore (world s3) 10%nat).
Proof.
  intros props.
  destruct (@renderSegs Sample.datelib Sample.domManip
              Sample.eventRendering Sample2.measuring
              Sample.viewFrameworkState Sample.viewFramework baseDefaults
              props Sample.state0)
    as [[r s1]|e] eqn:H1; [|by vm_compute in H1].
  destruct (@renderSegs_ok Sample.datelib Sample.domManip
              Sample.eventRendering Sample2.measuring
              Sample.viewFrameworkState Sample.viewFramework baseDefaults
              props Sample.state0 s1 r H1) as [Hdirty _].
  destruct (@computeSizes Sample.datelib Sample2.measuring
              Sample.viewFrameworkState false JNull s1)
    as [[[] s2]|e] eqn:H2;
    [|rewrite computeSizes_run, Hdirty in H2; discriminate H2].
  destruct (computeSizes_ok _ _ _ _ H2) as (Hthis2 & _).
  destruct (@assignSizes Sample.datelib Sample2.measuring
              Sample.viewFrameworkState false JNull s2)
    as [[[] s3]|e] eqn:H3;
    [|rewrite assignSizes_run, Hthis2, Hdirty in H3; discriminate H3].
  exists r, s1, s2, s3. split; [reflexivity|]. split; [exact H2|].
  split; [exact H3|].
  destruct (sizes_after_renderSegs _ JNull _ _ _ _ _ H1 H2 H3)
    as (_ & Hcalls & _ & _ & Hhook2 & Hhook3).
  split; [exact Hcalls|].
  injection Hhook2 as _ Hels2. injection Hhook3 as _ Hels3.
  split.
  - rewrite <- Hels2, fn_lookup_insert. apply elem_of_classList_add.
  - rewrite <- Hels3, fn_lookup_insert. apply elem_of_classList_add.
Defined.

(** ** More on sorting *)

Lemma res_map_Throw_inv {A B} (f : A → Res B) (xs : list A) e :
  res_map f xs = Throw e → ∃ x, x ∈ xs ∧ f x = Throw e.
Proof.
  induction xs as [|x xs IH]; [done|]. simpl. unfold mbind, Res_bind.
  destruct (f x) as [y|e'] eqn:Hx.
  - destruct (res_map f xs) as [ys|e'']; [done|].
    intros [= <-]. destruct IH as (x' & Hx' & Hf); [done|].
    exists x'. split; [by apply list_elem_of_further | done].
  - intros [= <-]. exists x. split; [apply list_elem_of_here | done].
Qed.

Lemma buildSegCompareObj_Throw (store : loc → Seg) (l : loc) e :
  buildSegCompareObj store l = Throw e →
  e = TypeError ∧ instance (eventRange (store l)) = None.
Proof.
  unfold buildSegCompareObj.
  destruct (instance (eventRange (store l))); [done | by intros [= <-]].
Qed.

(** X13. [sortEventSegs] returns exactly when every segment has an event
    instance. One segment without an event instance makes the whole sort
    throw a [TypeError], whatever the order specs; nothing else is
    thrown. *)
Theorem sortEventSegs_throws `{Misc} `{ArraySort} (store : loc → Seg)
    (segs : list loc) (eventOrderSpecs : FieldSpecs) :
  ((∃ res, sortEventSegs store segs eventOrderSpecs = Ok res)
   ↔ ∀ l, l ∈ segs → is_Some (instance (eventRange (store l))))
  ∧ ((∃ l, l ∈ segs ∧ instance (eventRange (store l)) = None)
     ↔ sortEventSegs store segs eventOrderSpecs = Throw TypeError)
  ∧ (∀ e, sortEventSegs store segs eventOrderSpecs = Throw e → e = TypeError).
Proof.
  assert (Hthrow : ∀ e, sortEventSegs store segs eventOrderSpecs = Throw e →
    e = TypeError ∧ ∃ l, l ∈ segs ∧ instance (eventRange (store l)) = None).
  { intros e. unfold sortEventSegs, mbind, Res_bind.
    destruct (res_map (buildSegCompareObj store) segs) as [objs|e'] eqn:Hmap;
      [done|].
    intros [= <-]. apply res_map_Throw_inv in Hmap as (l & Hl & Hbuild).
    apply buildSegCompareObj_Throw in Hbuild as [-> Hnone].
    split; [done | by exists l]. }
  assert (Hok : (∃ res, sortEventSegs store segs eventOrderSpecs = Ok res)
    ↔ ∀ l, l ∈ segs → is_Some (instance (eventRange (store l)))).
  { split.
    - intros [res Hres]. by eapply sortEventSegs_instances.
    - intros Hinst. unfold sortEventSegs.
      rewrite res_map_buildSegCompareObj by done. by eexists. }
  split; [done|]. split; [|intros e He; by destruct (Hthrow e He)].
  split.
  - intros (l & Hl & Hnone).
    destruct (sortEventSegs store segs eventOrderSpecs) as [res|e] eqn:Hrun.
    + destruct (proj1 Hok (ex_intro _ res eq_refl) l Hl) as [inst Hinst].
      congruence.
    + by destruct (Hthrow e eq_refl) as [-> _].
  - intros Hrun. by destruct (Hthrow _ Hrun).
Qed.

Lemma sortEventSegs_throws_witness :
  @sortEventSegs Sample.misc Sample.arraySort
    (λ l, if bool_decide (l = 1%nat) then Sample.seg0 None None
          else Sample.store0 l)
    [0; 1; 2]%nat "start"
  = Throw TypeError.
Proof.
  apply (proj1 (proj2 (@sortEventSegs_throws Sample.misc Sample.arraySort
                         _ _ _))).
  exists 1%nat. split; [apply list_elem_of_further, list_elem_of_here|].
  reflexivity.
Defined.

Lemma sort_insert_first {A} (cmp : A → A → Z) x l :
  Forall (in_order cmp x) l → sort_insert cmp x l = x :: l.
Proof.
  destruct l as [|y l]; [done|]. intros Hall.
  assert (Hxy : in_order cmp x y) by (by inversion Hall). simpl.
  unfold in_order in Hxy. by rewrite (proj2 (Z.leb_le _ _) Hxy).
Qed.

Lemma array_sort_ordered {A} (cmp : A → A → Z) l :
  StronglySorted (in_order cmp) l → array_sort cmp l = l.
Proof.
  induction 1 as [|x l Hl IH Hx]; [done|].
  change (array_sort cmp (x :: l)) with (sort_insert cmp x (array_sort cmp l)).
  rewrite IH. by apply sort_insert_first.
Qed.

Lemma Sorted_StronglySorted_on {A} (R : A → A → Prop) (l : list A) :
  (∀ a b c, a ∈ l → b ∈ l → c ∈ l → R a b → R b c → R a c) →
  Sorted R l → StronglySorted R l.
Proof.
  induction l as [|x l IH]; intros Htrans Hsorted; [constructor|].
  apply Sorted_inv in Hsorted as [Hl Hhd].
  assert (Hstrong : StronglySorted R l).
  { apply IH; [|done]. intros a b c Ha Hb Hc.
    apply Htrans; by apply list_elem_of_further. }
  constructor; [done|].
  destruct l as [|y l]; [constructor|].
  apply HdRel_inv in Hhd. apply StronglySorted_inv in Hstrong as [_ Hy].
  constructor; [done|].
  rewrite list.Forall_forall in Hy |- *. intros z Hz.
  apply (Htrans x y z); [apply list_elem_of_here| | |done|].
  - apply list_elem_of_further, list_elem_of_here.
  - by do 2 apply list_elem_of_further.
  - by apply Hy.
Qed.

(** X14. With a comparison that is consistent on the compare objects,
    segments that are already in order (no segment's compare object is
    strictly after that of a later segment) are returned in the order
    given, and sorting what [sortEventSegs] returned changes nothing. *)
Theorem sortEventSegs_ordered_input `{Misc} `{ArraySort} (store : loc → Seg)
    (segs : list loc) (eventOrderSpecs : FieldSpecs) :
  let cmp := λ obj0 obj1, compareByFieldSpecs obj0 obj1 eventOrderSpecs in
  let objs := map (compare_obj store) segs in
  conforming →
  (∀ l, l ∈ segs → is_Some (instance (eventRange (store l)))) →
  consistent cmp objs →
  (StronglySorted (in_order cmp) objs →
   sortEventSegs store segs eventOrderSpecs = Ok (JRef <$> segs))
  ∧ ∃ sorted,
      sortEventSegs store segs eventOrderSpecs = Ok (JRef <$> sorted)
      ∧ sorted ≡ₚ segs
      ∧ sortEventSegs store sorted eventOrderSpecs = Ok (JRef <$> sorted).
Proof.
  intros cmp objs [Hperm Hstable] Hinst Hconsistent. split.
  - intros Hsorted. rewrite sortEventSegs_engine by done. fold cmp objs.
    rewrite Hstable, array_sort_ordered by done.
    f_equal. by apply map_seg_compare_obj.
  - set (cmp' := λ l0 l1, cmp (compare_obj store l0) (compare_obj store l1)).
    assert (Hsort : array_sort cmp objs
                    = map (compare_obj store) (array_sort cmp' segs))
      by exact (array_sort_map (compare_obj store) cmp segs).
    assert (Hperm' : array_sort cmp' segs ≡ₚ segs)
      by apply array_sort_Permutation.
    assert (Hinst' : ∀ l, l ∈ array_sort cmp' segs →
                          is_Some (instance (eventRange (store l)))).
    { intros l Hl. apply Hinst. by rewrite <- Hperm'. }
    exists (array_sort cmp' segs). split; [|split; [done|]].
    + rewrite sortEventSegs_engine by done. fold cmp objs.
      rewrite Hstable, Hsort by done. f_equal. by apply map_seg_compare_obj.
    + rewrite sortEventSegs_engine by done. fold cmp. rewrite <- Hsort.
      assert (Hconsistent' : consistent cmp (array_sort cmp objs)).
      { eapply consistent_Permutation; [|exact Hconsistent].
        symmetry. apply array_sort_Permutation. }
      rewrite Hstable, array_sort_ordered, Hsort; [| |done].
      * f_equal. by apply map_seg_compare_obj.
      * apply Sorted_StronglySorted_on.
        -- by apply consistent_in_order_trans.
        -- by apply array_sort_consistent_Sorted.
Qed.

Lemma sortEventSegs_ordered_input_witness :
  @sortEventSegs Sample.misc Sample.arraySort Sample.store0 [1; 2; 0]%nat
    "start"
  = Ok (JRef <$> [1; 2; 0]%nat).
Proof.
  apply (proj1 (@sortEventSegs_ordered_input Sample.misc Sample.arraySort
                  Sample.store0 [1; 2; 0]%nat "start"
                  insertion_sort_conforming
                  ltac:(intros l _; destruct l as [|[|l]]; by eexists)
                  ltac:(apply numeric_field_consistent; intros o Ho;
                        apply list_elem_of_fmap in Ho as (l & -> & _);
                        destruct l as [|[|l]]; by eexists))).
  repeat constructor; vm_compute; discriminate.
Defined.

(** X15. An extended prop of the event is a property of the compare object,
    and so can be ordered by, unless the definition has a property of that
    name or the name is one of [id], [start], [end], [duration], [allDay]
    and [_seg]; a property of the definition is shadowed by these six
    alone. The definition's own [extendedProps] is such a property: under
    this name the compare object holds the object of the extended props,
    not an extended prop. *)
Theorem buildSegCompareObj_extended_props (store : loc → Seg) (l : loc)
    (obj : gmap string JsVal) (k : string) :
  let eventDef := def (eventRange (store l)) in
  buildSegCompareObj store l = Ok obj →
  k ∉ literal_keys →
  (eventDef_props eventDef !! k = None → obj !! k = extendedProps eventDef !! k)
  ∧ (∀ v, eventDef_props eventDef !! k = Some v → obj !! k = Some v)
  ∧ (k ≠ "publicId" → k ≠ "hasEnd" → k ≠ "allDay" → k ≠ "extendedProps" →
     eventDef_props eventDef !! k = otherProps eventDef !! k)
  ∧ obj !! "publicId" = Some (JStr (publicId eventDef))
  ∧ obj !! "hasEnd" = Some (JBool (hasEnd eventDef))
  ∧ obj !! "extendedProps" = Some (JRef (extendedProps_ref eventDef)).
Proof.
  intros eventDef Hrun Hk.
  destruct (buildSegCompareObj_instance store l obj Hrun) as [inst Hinst].
  unfold buildSegCompareObj in Hrun. rewrite Hinst in Hrun.
  injection Hrun as <-. fold eventDef.
  unfold literal_keys in Hk. rewrite !not_elem_of_cons in Hk.
  destruct Hk as (?&?&?&?&?&?&_).
  rewrite !lookup_insert_ne by done.
  split; [|split; [|split; [|split; [|split]]]].
  - intros Hnone. by rewrite lookup_union_r.
  - intros v Hv. by rewrite (lookup_union_Some_l _ _ _ _ Hv).
  - intros Hp Hh Ha He. unfold eventDef_props. by rewrite !lookup_insert_ne.
  - apply lookup_union_Some_l. unfold eventDef_props.
    apply lookup_insert_eq.
  - apply lookup_union_Some_l. unfold eventDef_props.
    rewrite lookup_insert_ne by done. apply lookup_insert_eq.
  - apply lookup_union_Some_l. unfold eventDef_props.
    rewrite !lookup_insert_ne by done. apply lookup_insert_eq.
Qed.

Lemma buildSegCompareObj_extended_props_witness :
  ∃ obj,
    buildSegCompareObj Sample.store0 0 = Ok obj
    ∧ obj !! "room" = Some (JStr "B2")
    ∧ obj !! "title" = Some (JStr "Meeting")
    ∧ extendedProps (Sample.eventDef0 true false) !! "extendedProps"
      = Some (JStr "shadowed")
    ∧ obj !! "extendedProps" = Some (JRef 50).
Proof.
  eassert (Hrun : buildSegCompareObj Sample.store0 0 = Ok _) by reflexivity.
  eexists. split; [exact Hrun|].
  assert (Hroom : "room" ∉ literal_keys).
  { unfold literal_keys. rewrite !not_elem_of_cons. repeat split; try done.
    apply not_elem_of_nil. }
  assert (Htitle : "title" ∉ literal_keys).
  { unfold literal_keys. rewrite !not_elem_of_cons. repeat split; try done.
    apply not_elem_of_nil. }
  split; [|split; [|split]].
  - rewrite (proj1 (buildSegCompareObj_extended_props _ _ _ "room" Hrun Hroom));
      reflexivity.
  - apply (proj1 (proj2 (buildSegCompareObj_extended_props _ _ _ "title"
                           Hrun Htitle))).
    reflexivity.
  - by vm_compute.
  - apply (proj2 (proj2 (proj2 (proj2 (proj2
             (buildSegCompareObj_extended_props _ _ _ "room" Hrun Hroom)))))).
Defined.

(** ** The build of the example projects *)

Module ExampleProjectsBuildFacts.
Import ExampleProjectsBuild.

Lemma string_app_cons (a : ascii) (s t : string) :
  String a s +:+ t = String a (s +:+ t).
Proof. reflexivity. Qed.

Lemma starts_with_spec (p s : string) :
  starts_with p s = true ↔ ∃ post, s = p +:+ post.
Proof.
  revert s. induction p as [|a p IH]; intros s; simpl.
  - split; [intros _; by exists s | done].
  - destruct s as [|b s].
    + split; [done | by intros [post [=]]].
    + rewrite andb_true_iff, bool_decide_eq_true, IH. split.
      * intros [-> [post ->]]. by exists post.
      * intros [post Hpost]. rewrite string_app_cons in Hpost.
        injection Hpost as -> ->. split; [done | by exists post].
Qed.

Lemma contains_spec (p s : string) :
  contains p s = true ↔ ∃ pre post, s = pre +:+ p +:+ post.
Proof.
  induction s as [|b s IH]; simpl; rewrite orb_true_iff, starts_with_spec.
  - split.
    + intros [[post Hpost]|[=]]. by exists "", post.
    + intros (pre & post & Hs). left. destruct pre as [|c pre]; [|done].
      by exists post.
  - rewrite IH. split.
    + intros [[post Hpost]|(pre & post & ->)].
      * by exists "", post.
      * by exists (String b pre), post.
    + intros (pre & post & Hs). destruct pre as [|c pre].
      * left. by exists post.
      * right. rewrite string_app_cons in Hs. injection Hs as -> ->.
        by exists pre, post.
Qed.

(** X19. The name of a project is its directory without one slash at the
    end: the names of [dir] and of [dir/] are the same when [dir] does not
    end with a slash, and only one slash is taken from [dir//]. *)
Theorem strip_trailing_slash_name (s : string) :
  strip_trailing_slash (s +:+ "/") = s
  ∧ ((∀ s', s ≠ s' +:+ "/") → strip_trailing_slash s = s)
  ∧ ((∀ s', s ≠ s' +:+ "/") →
     strip_trailing_slash (s +:+ "/") = strip_trailing_slash s).
Proof.
  assert (Hslash : ∀ t, strip_trailing_slash (t +:+ "/") = t).
  { induction t as [|c t IH]; [done|].
    rewrite string_app_cons. simpl. rewrite IH.
    destruct t; reflexivity. }
  assert (Hnone : ∀ t, (∀ s', t ≠ s' +:+ "/") → strip_trailing_slash t = t).
  { induction t as [|c t IH]; intros Hno; [done|]. simpl.
    destruct t as [|d t].
    - case_bool_decide as Hc; [|done]. subst. by destruct (Hno "").
    - rewrite IH; [done|]. intros s' Hs'. apply (Hno (String c s')).
      by rewrite string_app_cons, Hs'. }
  split; [done|]. split; [apply Hnone|].
  intros Hno. by rewrite Hslash, Hnone.
Qed.

Lemma strip_trailing_slash_name_witness :
  strip_trailing_slash "react/" = strip_trailing_slash "react".
Proof.
  apply (proj2 (proj2 (strip_trailing_slash_name "react"))).
  intros s' Hs'. do 6 (destruct s' as [|? s']; [discriminate|]).
  destruct s'; discriminate.
Defined.

Lemma builds_exec command cwd effects :
  builds (ExecSync command cwd :: effects) = cwd :: builds effects.
Proof. reflexivity. Qed.

Lemma builds_other effects message :
  builds (ConsoleLog message :: effects) = builds effects
  ∧ builds (ConsoleWarn message :: effects) = builds effects.
Proof. split; reflexivity. Qed.

Section Script.
Context `{Environment}.

Lemma build_projects_cons (IS_CI : bool) (dir : string) (rest : list string) :
  build_projects IS_CI (dir :: rest)
  = if skipped IS_CI dir then
      (ConsoleLog skip_message :: (build_projects IS_CI rest).1,
       (build_projects IS_CI rest).2)
    else if fails dir then
      ([ ExecSync build_command (path_join PROJECTS_ROOT dir);
         ConsoleWarn (fail_message (strip_trailing_slash dir)) ],
       Exit 1)
    else
      (ExecSync build_command (path_join PROJECTS_ROOT dir)
         :: (build_projects IS_CI rest).1,
       (build_projects IS_CI rest).2).
Proof.
  cbn [build_projects]. unfold skipped, fails.
  destruct (IS_CI && contains "angular" (strip_trailing_slash dir)).
  - by destruct (build_projects IS_CI rest).
  - destruct (exec_sync build_command (path_join PROJECTS_ROOT dir)); simpl;
      [by destruct (build_projects IS_CI rest) | done].
Qed.

(** X16. The script ends with [process.exit(1)] exactly when a project
    that is not skipped fails to build, and runs to its end exactly when
    every project is skipped or builds; 1 is the only exit code. When it
    exits, the last things it did are the failing build and the warning
    with the name of that project. *)
Theorem build_exit_code (IS_CI : bool) (dirs : list string) :
  let run := build_projects IS_CI dirs in
  (run.2 = Exit 1 ↔
   ∃ dir, dir ∈ dirs ∧ skipped IS_CI dir = false ∧ fails dir = true)
  ∧ (run.2 = Completed ↔
     ∀ dir, dir ∈ dirs → skipped IS_CI dir = true ∨ fails dir = false)
  ∧ (run.2 = Completed ∨ run.2 = Exit 1)
  ∧ (run.2 = Exit 1 →
     ∃ before dir,
       dir ∈ dirs ∧ skipped IS_CI dir = false ∧ fails dir = true
       ∧ run.1
         = before
           ++ [ ExecSync build_command (path_join PROJECTS_ROOT dir);
                ConsoleWarn (fail_message (strip_trailing_slash dir)) ])
  ∧ (run.2 = Completed → ∀ message, ConsoleWarn message ∉ run.1).
Proof.
  induction dirs as [|dir rest IH]; intros run; subst run.
  - simpl. split; [split; [done|]|].
    { intros (dir & Hdir & _). by apply elem_of_nil in Hdir. }
    split; [split; [|done]|].
    { intros _ dir Hdir. by apply elem_of_nil in Hdir. }
    split; [by left|]. split; [done|].
    intros _ message Hin. by apply elem_of_nil in Hin.
  - simpl in IH. destruct IH as (IHexit & IHdone & IHcode & IHlast & IHwarn).
    rewrite build_projects_cons.
    destruct (skipped IS_CI dir) eqn:Hskip; [|destruct (fails dir) eqn:Hfail];
      cbn [fst snd].
    + split; [|split; [|split; [done|split]]].
      * rewrite IHexit. split.
        -- intros (d & Hd & ?). exists d. split; [by apply list_elem_of_further|done].
        -- intros (d & [->|Hd]%elem_of_cons & Hs & Hf); [congruence|].
           by exists d.
      * rewrite IHdone. split.
        -- intros Hall d [->|Hd]%elem_of_cons; [by left | by apply Hall].
        -- intros Hall d Hd. apply Hall. by apply list_elem_of_further.
      * intros Hexit. destruct (IHlast Hexit) as (before & d & Hd & Hs & Hf & ->).
        exists (ConsoleLog skip_message :: before), d.
        split; [by apply list_elem_of_further|]. by repeat split.
      * intros Hdone message [[=]|Hin]%elem_of_cons. by eapply IHwarn.
    + split; [|split; [|split; [by right|split]]].
      * split; [intros _|done]. exists dir.
        split; [apply list_elem_of_here | done].
      * split; [done|]. intros Hall.
        destruct (Hall dir) as [?|?]; [apply list_elem_of_here|congruence..].
      * intros _. exists [], dir. split; [apply list_elem_of_here|done].
      * done.
    + split; [|split; [|split; [done|split]]].
      * rewrite IHexit. split.
        -- intros (d & Hd & ?). exists d. split; [by apply list_elem_of_further|done].
        -- intros (d & [->|Hd]%elem_of_cons & Hs & Hf); [congruence|].
           by exists d.
      * rewrite IHdone. split.
        -- intros Hall d [->|Hd]%elem_of_cons; [by right | by apply Hall].
        -- intros Hall d Hd. apply Hall. by apply list_elem_of_further.
      * intros Hexit. destruct (IHlast Hexit) as (before & d & Hd & Hs & Hf & ->).
        exists (ExecSync build_command (path_join PROJECTS_ROOT dir) :: before), d.
        split; [by apply list_elem_of_further|]. by repeat split.
      * intros Hdone message [[=]|Hin]%elem_of_cons. by eapply IHwarn.
Qed.

(** X17. The builds run are those of the projects that are not skipped, in
    the order of the directories, up to and with the first one that fails:
    no project is built after a failed build. Every build is
    [yarn run build]. *)
Theorem build_stops_at_first_failure (IS_CI : bool) (dirs : list string) :
  builds (build_projects IS_CI dirs).1
  = map (path_join PROJECTS_ROOT)
      (take_through fails (filter (λ dir, skipped IS_CI dir = false) dirs))
  ∧ ∀ command cwd,
      ExecSync command cwd ∈ (build_projects IS_CI dirs).1 →
      command = build_command.
Proof.
  induction dirs as [|dir rest [IH IHcmd]]; [split; [done|]|].
  { intros ?? Hin. by apply elem_of_nil in Hin. }
  rewrite build_projects_cons. rewrite filter_cons.
  destruct (skipped IS_CI dir) eqn:Hskip; [|destruct (fails dir) eqn:Hfail];
    cbn [fst snd]; case_decide; try done.
  - rewrite (proj1 (builds_other _ _)).
    split; [exact IH|]. intros ?? [[=]|Hin]%elem_of_cons. by eapply IHcmd.
  - cbn [take_through map]. rewrite Hfail. split; [done|].
    intros ?? [[= ? ?]|[[=]|Hin%elem_of_nil]%elem_of_cons]%elem_of_cons; done.
  - cbn [take_through map]. rewrite Hfail, builds_exec, IH.
    split; [done|].
    intros ?? [[= ? ?]|Hin]%elem_of_cons; [done | by eapply IHcmd].
Qed.

(** X18. [IS_CI] is true for every [CI] that is set and not empty. Then a
    project is skipped, with the message about angular, exactly when
    [angular] occurs in its name, and no such project is built. Without
    [CI] no project is skipped: the projects are built in order until one
    fails. *)
Theorem build_skips_angular_on_ci (CI : option string) (dirs : list string) :
  (∀ command cwd,
     ExecSync command cwd ∈ (main CI dirs).1 →
     ∃ dir,
       dir ∈ dirs ∧ cwd = path_join PROJECTS_ROOT dir
       ∧ ((∃ value, CI = Some value ∧ value ≠ "") →
          ¬ ∃ pre post,
              strip_trailing_slash dir = pre +:+ "angular" +:+ post))
  ∧ (∀ dir,
       skipped (str_truthy CI) dir = true ↔
       (∃ value, CI = Some value ∧ value ≠ "")
       ∧ ∃ pre post, strip_trailing_slash dir = pre +:+ "angular" +:+ post)
  ∧ (CI = None ∨ CI = Some "" →
     builds (main CI dirs).1
     = map (path_join PROJECTS_ROOT) (take_through fails dirs)
     ∧ ∀ message, ConsoleLog message ∉ (main CI dirs).1).
Proof.
  assert (Htruthy : str_truthy CI = true ↔ ∃ value, CI = Some value ∧ value ≠ "").
  { destruct CI as [value|]; simpl.
    - rewrite negb_true_iff, String.eqb_neq. split; [by eauto|].
      by intros (? & [= <-] & ?).
    - split; [done | by intros (? & [=] & _)]. }
  assert (Hskipped : ∀ dir,
    skipped (str_truthy CI) dir = true ↔
    (∃ value, CI = Some value ∧ value ≠ "")
    ∧ ∃ pre post, strip_trailing_slash dir = pre +:+ "angular" +:+ post).
  { intros dir. unfold skipped.
    by rewrite andb_true_iff, Htruthy, contains_spec. }
  unfold main. split; [|split; [done|]].
  - induction dirs as [|dir rest IH]; intros command cwd Hin.
    { by apply elem_of_nil in Hin. }
    assert (Hrest : ExecSync command cwd ∈ (build_projects (str_truthy CI) rest).1
                    → ∃ dir0, dir0 ∈ dir :: rest
                        ∧ cwd = path_join PROJECTS_ROOT dir0
                        ∧ ((∃ value, CI = Some value ∧ value ≠ "") →
                           ¬ ∃ pre post, strip_trailing_slash dir0
                                         = pre +:+ "angular" +:+ post)).
    { intros Hin'. destruct (IH _ _ Hin') as (d & Hd & Hcwd & Hno).
      exists d. split; [by apply list_elem_of_further | done]. }
    assert (Hhere : skipped (str_truthy CI) dir = false →
                    ∃ dir0, dir0 ∈ dir :: rest
                      ∧ path_join PROJECTS_ROOT dir = path_join PROJECTS_ROOT dir0
                      ∧ ((∃ value, CI = Some value ∧ value ≠ "") →
                         ¬ ∃ pre post, strip_trailing_slash dir0
                                       = pre +:+ "angular" +:+ post)).
    { intros Hskip. exists dir. split; [apply list_elem_of_here|].
      split; [done|]. intros Hci Hname.
      assert (skipped (str_truthy CI) dir = true) by by apply Hskipped.
      congruence. }
    rewrite build_projects_cons in Hin.
    destruct (skipped (str_truthy CI) dir) eqn:Hskip;
      [|destruct (fails dir) eqn:Hfail]; cbn [fst snd] in Hin.
    + apply elem_of_cons in Hin as [[=]|Hin]. by apply Hrest.
    + apply elem_of_cons in Hin as [Heq|Hin];
        [injection Heq as ? ?; subst; by apply Hhere|].
      apply elem_of_cons in Hin as [[=]|Hin]. by apply elem_of_nil in Hin.
    + apply elem_of_cons in Hin as [Heq|Hin];
        [injection Heq as ? ?; subst; by apply Hhere | by apply Hrest].
  - intros Hci. assert (Hfalse : str_truthy CI = false) by by destruct Hci as [->| ->].
    rewrite Hfalse. clear. induction dirs as [|dir rest [IH IHlog]].
    { split; [done|]. intros ? Hin. by apply elem_of_nil in Hin. }
    rewrite build_projects_cons. unfold skipped. cbn [andb].
    destruct (fails dir) eqn:Hfail; cbn [fst snd].
    + cbn [take_through map]. rewrite Hfail. split; [done|].
      intros ? [[=]|[[=]|Hin%elem_of_nil]%elem_of_cons]%elem_of_cons; done.
    + cbn [take_through map]. rewrite Hfail, builds_exec, IH. split; [done|].
      intros ? [[=]|Hin]%elem_of_cons. by eapply IHlog.
Qed.

End Script.

Lemma build_exit_code_witness :
  (@build_projects (sample_environment ["vue"]) true
     ["angular/"; "react"; "vue"; "next"]).2
  = Exit 1.
Proof.
  apply (proj1 (@build_exit_code (sample_environment ["vue"]) true
                  ["angular/"; "react"; "vue"; "next"])).
  exists "vue". split; [|by split].
  do 2 apply list_elem_of_further. apply list_elem_of_here.
Defined.

Lemma build_stops_at_first_failure_witness :
  builds (@build_projects (sample_environment ["vue"]) true
            ["angular/"; "react"; "vue"; "next"]).1
  = [ "/repo/example-projects/react"; "/repo/example-projects/vue" ].
Proof.
  rewrite (proj1 (@build_stops_at_first_failure (sample_environment ["vue"])
                    true ["angular/"; "react"; "vue"; "next"])).
  reflexivity.
Defined.

Lemma build_skips_angular_on_ci_witness :
  builds (@main (sample_environment []) (Some "") ["angular"; "react"]).1
  = [ "/repo/example-projects/angular"; "/repo/example-projects/react" ]
  ∧ @skipped true "rectangular/" = true.
Proof.
  split.
  - rewrite (proj1 (proj2 (proj2 (@build_skips_angular_on_ci
                                   (sample_environment []) (Some "")
                                   ["angular"; "react"]))
                     (or_intror eq_refl))).
    reflexivity.
  - apply (proj2 (proj1 (proj2 (@build_skips_angular_on_ci
                                  (sample_environment []) (Some "true") []))
                    "rectangular/")).
    split; [by exists "true" | by exists "rect", ""].
Defined.

End ExampleProjectsBuildFacts.
